(** * grad.h: forward- and reverse-mode automatic differentiation

    A shallow embedding of [grad.h] (single-header automatic differentiation
    in C) and the proofs of its specification.

    - [grad_real_t] and the [GRAD_EXP], [GRAD_LOG], ... macros are the
      header's numeric interface: the class [GradReal].  Two instances are
      given: the real numbers (exact arithmetic) and IEEE binary64
      ([GRAD_USE_DOUBLE]) over any libm.
    - [GRAD_FORWARD_TAPE_SIZE] and [GRAD_REVERSE_TAPE_SIZE] are the header's
      redefinable macros: the class [GradConfig].
    - The two global counters and the global tape are threaded as explicit
      state through a state-and-failure monad; [assert] failing stops the
      run with [AssertFail], and what C leaves undefined (a NULL or
      out-of-tape dereference, an undeclared local) is [Undefined]. *)

From Stdlib Require Import Floats.
From Stdlib Require Import List Arith ZArith Bool Lia Reals Lra.
Import ListNotations.

Set Implicit Arguments.

(* ================================================================= *)
(** ** Calls that may stop the process *)

Inductive outcome (A : Type) : Type :=
| Ok (a : A)
| AssertFail
| Undefined.

Arguments Ok {A} a.
Arguments AssertFail {A}.
Arguments Undefined {A}.

(** A C function over the global state [S]. *)
Definition M (S A : Type) : Type := S -> outcome (A * S).

Definition ret {S A : Type} (a : A) : M S A := fun s => Ok (a, s).

Definition bind {S A B : Type} (m : M S A) (k : A -> M S B) : M S B :=
  fun s =>
    match m s with
    | Ok (a, s') => k a s'
    | AssertFail => AssertFail
    | Undefined => Undefined
    end.

Definition get {S : Type} : M S S := fun s => Ok (s, s).
Definition put {S : Type} (s : S) : M S unit := fun _ => Ok (tt, s).
Definition assert_c {S : Type} (b : bool) : M S unit :=
  fun s => if b then Ok (tt, s) else AssertFail.
Definition undefined {S A : Type} : M S A := fun _ => Undefined.

Declare Scope grad_monad_scope.
Delimit Scope grad_monad_scope with gm.
Notation "x <- m ;; k" := (bind m (fun x => k))
  (at level 61, m at next level, right associativity) : grad_monad_scope.
Notation "m ;; k" := (bind m (fun _ => k))
  (at level 61, right associativity) : grad_monad_scope.
Open Scope grad_monad_scope.

(** [for (size_t i = 0; i < n; i++) body(i)] over a value. *)
Definition for_loop {A : Type} (n : nat) (body : nat -> A -> A) (a : A) : A :=
  fold_left (fun acc i => body i acc) (seq 0 n) a.

(** The same loop over the global state, and the descending loop
    [for (ssize_t i = n - 1; i >= 0; --i) body(i)]. *)
Fixpoint for_each {S : Type} (l : list nat) (body : nat -> M S unit) : M S unit :=
  match l with
  | [] => ret tt
  | i :: l' => body i ;; for_each l' body
  end.

Definition for_up {S : Type} (n : nat) (body : nat -> M S unit) : M S unit :=
  for_each (seq 0 n) body.

Definition for_down {S : Type} (n : nat) (body : nat -> M S unit) : M S unit :=
  for_each (rev (seq 0 n)) body.

(** [a[i] = x] on an array held as a list; nothing is written out of range
    (in C that write is undefined). *)
Fixpoint upd {A : Type} (l : list A) (i : nat) (x : A) : list A :=
  match l, i with
  | [], _ => []
  | _ :: t, 0 => x :: t
  | h :: t, S j => h :: upd t j x
  end.

(* ================================================================= *)
(** ** The numeric interface of the header *)

Class GradReal : Type := {
  grad_real_t : Type;
  r_zero : grad_real_t;                                   (* 0.0 *)
  r_one : grad_real_t;                                    (* 1.0 *)
  r_half : grad_real_t;                                   (* 0.5 *)
  r_add : grad_real_t -> grad_real_t -> grad_real_t;      (* x + y *)
  r_sub : grad_real_t -> grad_real_t -> grad_real_t;      (* x - y *)
  r_mul : grad_real_t -> grad_real_t -> grad_real_t;      (* x * y *)
  r_div : grad_real_t -> grad_real_t -> grad_real_t;      (* x / y *)
  r_neg : grad_real_t -> grad_real_t;                     (* -x *)
  GRAD_EXP : grad_real_t -> grad_real_t;
  GRAD_LOG : grad_real_t -> grad_real_t;
  GRAD_SIN : grad_real_t -> grad_real_t;
  GRAD_COS : grad_real_t -> grad_real_t;
  GRAD_SQRT : grad_real_t -> grad_real_t;
  GRAD_POW : grad_real_t -> grad_real_t -> grad_real_t
}.

Class GradConfig : Type := {
  GRAD_FORWARD_TAPE_SIZE : nat;
  GRAD_REVERSE_TAPE_SIZE : nat
}.

(** The header's defaults. *)
Definition default_config : GradConfig :=
  {| GRAD_FORWARD_TAPE_SIZE := 64; GRAD_REVERSE_TAPE_SIZE := 64 |}.

(** *** Exact arithmetic: the real numbers *)

(** The header's operators and libm functions on the reals.  Division,
    [ln] and [sqrt] are total functions here: [x / 0] is [x * / 0] with
    [/ 0 = 0], where the code's division gives an infinity or a NaN.  A
    theorem over this instance that relates a result to a derivative says
    something of the code only where its hypotheses keep every division
    away from 0 and every [ln] on the positive numbers. *)

(** [pow] of libm on the reals: [exp (e * ln x)] for a positive base; for a
    zero or negative base, the integer power [x^e] when [e] is an integer
    (as libm: [pow(-2, -1) = -0.5]) and 0 when it is not (libm: 0 for
    [x = 0] and [e > 0], a domain error for [x < 0]).  At the poles,
    [x = 0] and [e < 0], libm returns an infinity; here the value is that
    of the total inverse, 0. *)
Definition pow_real (x e : R) : R :=
  if Rlt_dec 0 x then Rpower x e
  else if Req_dec_T (IZR (Int_part e)) e then powerRZ x (Int_part e)
  else 0%R.

Definition exact_real : GradReal := {|
  grad_real_t := R;
  r_zero := 0%R;
  r_one := 1%R;
  r_half := (/ 2)%R;
  r_add := Rplus;
  r_sub := Rminus;
  r_mul := Rmult;
  r_div := Rdiv;
  r_neg := Ropp;
  GRAD_EXP := exp;
  GRAD_LOG := ln;
  GRAD_SIN := sin;
  GRAD_COS := cos;
  GRAD_SQRT := sqrt;
  GRAD_POW := pow_real
|}.

(** *** IEEE binary64: [GRAD_USE_DOUBLE] *)

(** The functions the header takes from libm; C leaves their rounding to
    the implementation, so they stay a parameter.  [sqrt] is the IEEE one. *)
Record libm : Type := {
  libm_exp : float -> float;
  libm_log : float -> float;
  libm_sin : float -> float;
  libm_cos : float -> float;
  libm_pow : float -> float -> float
}.

Definition binary64 (m : libm) : GradReal := {|
  grad_real_t := float;
  r_zero := 0%float;
  r_one := 1%float;
  r_half := 0.5%float;
  r_add := PrimFloat.add;
  r_sub := PrimFloat.sub;
  r_mul := PrimFloat.mul;
  r_div := PrimFloat.div;
  r_neg := PrimFloat.opp;
  GRAD_EXP := libm_exp m;
  GRAD_LOG := libm_log m;
  GRAD_SIN := libm_sin m;
  GRAD_COS := libm_cos m;
  GRAD_SQRT := PrimFloat.sqrt;
  GRAD_POW := libm_pow m
|}.

(* ================================================================= *)
(** ** Forward mode *)

Module Forward.
Section Engine.
Context {G : GradReal} {C : GradConfig}.

(** [struct grad_forward_t]; [derivative] has [GRAD_FORWARD_TAPE_SIZE]
    entries. *)
Record grad_forward_t : Type := {
  id : nat;
  value : grad_real_t;
  derivative : list grad_real_t
}.

(** The global [grad_forward_current_id]. *)
Record state : Type := { grad_forward_current_id : nat }.

Definition FM : Type -> Type := M state.

(** [grad_forward_t result = {0};] *)
Definition zero_init : grad_forward_t :=
  {| id := 0; value := r_zero;
     derivative := repeat r_zero GRAD_FORWARD_TAPE_SIZE |}.

Definition set_id (v : grad_forward_t) (n : nat) : grad_forward_t :=
  {| id := n; value := value v; derivative := derivative v |}.

Definition set_value (v : grad_forward_t) (x : grad_real_t) : grad_forward_t :=
  {| id := id v; value := x; derivative := derivative v |}.

Definition set_derivative (v : grad_forward_t) (d : list grad_real_t)
  : grad_forward_t :=
  {| id := id v; value := value v; derivative := d |}.

(** [v->derivative[i]] and [v.derivative[i] = x]. *)
Definition derivative_at (v : grad_forward_t) (i : nat) : grad_real_t :=
  nth i (derivative v) r_zero.

Definition set_derivative_at (v : grad_forward_t) (i : nat) (x : grad_real_t)
  : grad_forward_t :=
  set_derivative v (upd (derivative v) i x).

(** [memset(dst, 0, sizeof(grad_real_t) * n)]: all bits zero is 0.0. *)
Definition memset_zero (n : nat) (dst : list grad_real_t) : list grad_real_t :=
  repeat r_zero (Nat.min n (length dst)) ++ skipn n dst.

(** [memcpy(dst, src, sizeof(grad_real_t) * n)]. *)
Definition memcpy (n : nat) (dst src : list grad_real_t) : list grad_real_t :=
  firstn n src ++ skipn (Nat.min n (length src)) dst.

Definition grad_forward_start_scope : FM unit :=
  put {| grad_forward_current_id := 0 |}.

Definition grad_forward_init (v : grad_real_t) : FM grad_forward_t :=
  s <- get ;;
  let cur := grad_forward_current_id s in
  assert_c (cur <? GRAD_FORWARD_TAPE_SIZE) ;;
  let result := zero_init in
  let result := set_value result v in
  let result :=
    set_derivative result
      (memset_zero GRAD_FORWARD_TAPE_SIZE (derivative result)) in
  let result := set_id result cur in
  let result := set_derivative_at result cur r_one in
  put {| grad_forward_current_id := cur + 1 |} ;;
  ret result.

Definition grad_forward_add (left right : grad_forward_t) : FM grad_forward_t :=
  s <- get ;;
  let result := zero_init in
  let result := set_value result (r_add (value left) (value right)) in
  ret (for_loop (grad_forward_current_id s)
         (fun i result =>
            set_derivative_at result i
              (r_add (derivative_at left i) (derivative_at right i)))
         result).

Definition grad_forward_add_c (grad : grad_forward_t) (constant : grad_real_t)
  : FM grad_forward_t :=
  let result := zero_init in
  let result := set_value result (r_add (value grad) constant) in
  ret (set_derivative result
         (memcpy GRAD_FORWARD_TAPE_SIZE (derivative result) (derivative grad))).

Definition grad_forward_mul (left right : grad_forward_t) : FM grad_forward_t :=
  s <- get ;;
  let result := zero_init in
  let result := set_value result (r_mul (value left) (value right)) in
  ret (for_loop (grad_forward_current_id s)
         (fun i result =>
            set_derivative_at result i
              (r_add (r_mul (derivative_at left i) (value right))
                     (r_mul (value left) (derivative_at right i))))
         result).

Definition grad_forward_mul_c (grad : grad_forward_t) (constant : grad_real_t)
  : FM grad_forward_t :=
  s <- get ;;
  let result := zero_init in
  let result := set_value result (r_mul (value grad) constant) in
  ret (for_loop (grad_forward_current_id s)
         (fun i result =>
            set_derivative_at result i (r_mul constant (derivative_at grad i)))
         result).

Definition grad_forward_inv (grad : grad_forward_t) : FM grad_forward_t :=
  s <- get ;;
  let result := zero_init in
  let result := set_value result (r_div r_one (value grad)) in
  let inv_sq := r_div r_one (r_mul (value grad) (value grad)) in
  ret (for_loop (grad_forward_current_id s)
         (fun i result =>
            set_derivative_at result i
              (r_mul (r_neg (derivative_at grad i)) inv_sq))
         result).

Definition grad_forward_div (left right : grad_forward_t) : FM grad_forward_t :=
  right_inv <- grad_forward_inv right ;;
  grad_forward_mul left right_inv.

Definition grad_forward_neg (grad : grad_forward_t) : FM grad_forward_t :=
  grad_forward_mul_c grad (r_neg r_one).

Definition grad_forward_sub (left right : grad_forward_t) : FM grad_forward_t :=
  right_neg <- grad_forward_neg right ;;
  grad_forward_add left right_neg.

Definition grad_forward_exp (grad : grad_forward_t) : FM grad_forward_t :=
  s <- get ;;
  let result := zero_init in
  let result := set_value result (GRAD_EXP (value grad)) in
  ret (for_loop (grad_forward_current_id s)
         (fun i result =>
            set_derivative_at result i
              (r_mul (value result) (derivative_at grad i)))
         result).

Definition grad_forward_log (grad : grad_forward_t) : FM grad_forward_t :=
  s <- get ;;
  let result := zero_init in
  let result := set_value result (GRAD_LOG (value grad)) in
  let inv := r_div r_one (value grad) in
  ret (for_loop (grad_forward_current_id s)
         (fun i result =>
            set_derivative_at result i (r_mul inv (derivative_at grad i)))
         result).

Definition grad_forward_sin (grad : grad_forward_t) : FM grad_forward_t :=
  s <- get ;;
  let result := zero_init in
  let result := set_value result (GRAD_SIN (value grad)) in
  let val := GRAD_COS (value grad) in
  ret (for_loop (grad_forward_current_id s)
         (fun i result =>
            set_derivative_at result i (r_mul val (derivative_at grad i)))
         result).

Definition grad_forward_cos (grad : grad_forward_t) : FM grad_forward_t :=
  s <- get ;;
  let result := zero_init in
  let result := set_value result (GRAD_COS (value grad)) in
  let val := r_neg (GRAD_SIN (value grad)) in
  ret (for_loop (grad_forward_current_id s)
         (fun i result =>
            set_derivative_at result i (r_mul val (derivative_at grad i)))
         result).

Definition grad_forward_tan (grad : grad_forward_t) : FM grad_forward_t :=
  s <- grad_forward_sin grad ;;
  c <- grad_forward_cos grad ;;
  grad_forward_div s c.

Definition grad_forward_sqrt (grad : grad_forward_t) : FM grad_forward_t :=
  s <- get ;;
  let result := zero_init in
  let result := set_value result (GRAD_SQRT (value grad)) in
  let inv := r_div r_half (value result) in
  ret (for_loop (grad_forward_current_id s)
         (fun i result =>
            set_derivative_at result i (r_mul inv (derivative_at grad i)))
         result).

Definition grad_forward_pow (grad : grad_forward_t) (e : grad_real_t)
  : FM grad_forward_t :=
  s <- get ;;
  let result := zero_init in
  let result := set_value result (GRAD_POW (value grad) e) in
  let val := GRAD_POW (value grad) (r_sub e r_one) in
  ret (for_loop (grad_forward_current_id s)
         (fun i result =>
            set_derivative_at result i
              (r_mul (r_mul e val) (derivative_at grad i)))
         result).

End Engine.
End Forward.

(* ================================================================= *)
(** ** Reverse mode *)

Module Reverse.
Section Engine.
Context {G : GradReal} {C : GradConfig}.

Inductive grad_reverse_op_t : Type :=
| GRAD_OP_NONE
| GRAD_OP_ADD
| GRAD_OP_MUL
| GRAD_OP_NEG
| GRAD_OP_INV
| GRAD_OP_SIN
| GRAD_OP_COS
| GRAD_OP_EXP
| GRAD_OP_LOG.

(** A [grad_reverse_t *]: NULL, or [&grad_reverse_tape[i]]. *)
Definition ptr : Type := option nat.

(** [struct grad_reverse_t]. *)
Record grad_reverse_t : Type := {
  value : grad_real_t;
  derivative : grad_real_t;
  operation : grad_reverse_op_t;
  left : ptr;
  right : ptr
}.

(** The globals [grad_reverse_tape] and [grad_reverse_current_id]. *)
Record state : Type := {
  grad_reverse_tape : list grad_reverse_t;
  grad_reverse_current_id : nat
}.

Definition RM : Type -> Type := M state.

(** Static storage before the first call: all bits zero. *)
Definition zero_node : grad_reverse_t :=
  {| value := r_zero; derivative := r_zero; operation := GRAD_OP_NONE;
     left := None; right := None |}.

Definition initial_state : state :=
  {| grad_reverse_tape := repeat zero_node GRAD_REVERSE_TAPE_SIZE;
     grad_reverse_current_id := 0 |}.

(** [*p] read and written. *)
Definition load (p : ptr) : RM grad_reverse_t :=
  fun s =>
    match p with
    | Some i =>
        match nth_error (grad_reverse_tape s) i with
        | Some n => Ok (n, s)
        | None => Undefined
        end
    | None => Undefined
    end.

Definition store (p : ptr) (n : grad_reverse_t) : RM unit :=
  fun s =>
    match p with
    | Some i =>
        if i <? length (grad_reverse_tape s) then
          Ok (tt, {| grad_reverse_tape := upd (grad_reverse_tape s) i n;
                     grad_reverse_current_id := grad_reverse_current_id s |})
        else Undefined
    | None => Undefined
    end.

(** [p->value = x], [p->derivative = x], [p->operation = o],
    [p->left = q], [p->right = q]. *)
Definition write_value (p : ptr) (x : grad_real_t) : RM unit :=
  n <- load p ;;
  store p {| value := x; derivative := derivative n;
             operation := operation n; left := left n; right := right n |}.

Definition write_derivative (p : ptr) (x : grad_real_t) : RM unit :=
  n <- load p ;;
  store p {| value := value n; derivative := x;
             operation := operation n; left := left n; right := right n |}.

Definition write_operation (p : ptr) (o : grad_reverse_op_t) : RM unit :=
  n <- load p ;;
  store p {| value := value n; derivative := derivative n;
             operation := o; left := left n; right := right n |}.

Definition write_left (p q : ptr) : RM unit :=
  n <- load p ;;
  store p {| value := value n; derivative := derivative n;
             operation := operation n; left := q; right := right n |}.

Definition write_right (p q : ptr) : RM unit :=
  n <- load p ;;
  store p {| value := value n; derivative := derivative n;
             operation := operation n; left := left n; right := q |}.

(** [p->derivative += x] *)
Definition add_derivative (p : ptr) (x : grad_real_t) : RM unit :=
  n <- load p ;;
  write_derivative p (r_add (derivative n) x).

Definition grad_reverse_start_scope : RM unit :=
  s <- get ;;
  put {| grad_reverse_tape := grad_reverse_tape s;
         grad_reverse_current_id := 0 |}.

Definition grad_reverse_init (v : grad_real_t) : RM ptr :=
  s <- get ;;
  assert_c (grad_reverse_current_id s <? GRAD_REVERSE_TAPE_SIZE) ;;
  let result : ptr := Some (grad_reverse_current_id s) in
  put {| grad_reverse_tape := grad_reverse_tape s;
         grad_reverse_current_id := grad_reverse_current_id s + 1 |} ;;
  write_value result v ;;
  write_operation result GRAD_OP_NONE ;;
  write_derivative result r_zero ;;
  ret result.

Definition grad_reverse_add (left right : ptr) : RM ptr :=
  l <- load left ;;
  r <- load right ;;
  result <- grad_reverse_init (r_add (value l) (value r)) ;;
  write_operation result GRAD_OP_ADD ;;
  write_left result left ;;
  write_right result right ;;
  ret result.

Definition grad_reverse_mul (left right : ptr) : RM ptr :=
  l <- load left ;;
  r <- load right ;;
  result <- grad_reverse_init (r_mul (value l) (value r)) ;;
  write_operation result GRAD_OP_MUL ;;
  write_left result left ;;
  write_right result right ;;
  ret result.

Definition grad_reverse_neg (grad : ptr) : RM ptr :=
  g <- load grad ;;
  result <- grad_reverse_init (r_neg (value g)) ;;
  write_operation result GRAD_OP_NEG ;;
  write_left result grad ;;
  ret result.

Definition grad_reverse_inv (grad : ptr) : RM ptr :=
  g <- load grad ;;
  result <- grad_reverse_init (r_div r_one (value g)) ;;
  write_operation result GRAD_OP_INV ;;
  write_left result grad ;;
  ret result.

Definition grad_reverse_sub (left right : ptr) : RM ptr :=
  neg_right <- grad_reverse_neg right ;;
  grad_reverse_add left neg_right.

Definition grad_reverse_div (left right : ptr) : RM ptr :=
  inv_right <- grad_reverse_inv right ;;
  grad_reverse_mul left inv_right.

Definition grad_reverse_sin (grad : ptr) : RM ptr :=
  g <- load grad ;;
  result <- grad_reverse_init (GRAD_SIN (value g)) ;;
  write_operation result GRAD_OP_SIN ;;
  write_left result grad ;;
  ret result.

Definition grad_reverse_cos (grad : ptr) : RM ptr :=
  g <- load grad ;;
  result <- grad_reverse_init (GRAD_COS (value g)) ;;
  write_operation result GRAD_OP_COS ;;
  write_left result grad ;;
  ret result.

Definition grad_reverse_exp (grad : ptr) : RM ptr :=
  g <- load grad ;;
  result <- grad_reverse_init (GRAD_EXP (value g)) ;;
  write_operation result GRAD_OP_EXP ;;
  write_left result grad ;;
  ret result.

Definition grad_reverse_log (grad : ptr) : RM ptr :=
  g <- load grad ;;
  result <- grad_reverse_init (GRAD_LOG (value g)) ;;
  write_operation result GRAD_OP_LOG ;;
  write_left result grad ;;
  ret result.

(** The body of the [switch] of [grad_reverse_backward] for the node at
    [grad]; every statement reads the tape anew. *)
Definition propagate (grad : ptr) : RM unit :=
  g <- load grad ;;
  match operation g with
  | GRAD_OP_ADD =>
      (g <- load grad ;;
       add_derivative (left g) (derivative g)) ;;
      (g <- load grad ;;
       add_derivative (right g) (derivative g))
  | GRAD_OP_MUL =>
      (g <- load grad ;;
       r <- load (right g) ;;
       add_derivative (left g) (r_mul (value r) (derivative g))) ;;
      (g <- load grad ;;
       l <- load (left g) ;;
       add_derivative (right g) (r_mul (value l) (derivative g)))
  | GRAD_OP_NEG =>
      g <- load grad ;;
      add_derivative (left g) (r_mul (r_neg r_one) (derivative g))
  | GRAD_OP_INV =>
      g <- load grad ;;
      l <- load (left g) ;;
      add_derivative (left g)
        (r_div (r_neg (derivative g)) (r_mul (value l) (value l)))
  | GRAD_OP_SIN =>
      g <- load grad ;;
      l <- load (left g) ;;
      add_derivative (left g) (r_mul (GRAD_COS (value l)) (derivative g))
  | GRAD_OP_COS =>
      g <- load grad ;;
      l <- load (left g) ;;
      add_derivative (left g)
        (r_mul (r_neg (GRAD_SIN (value l))) (derivative g))
  | GRAD_OP_EXP =>
      g <- load grad ;;
      l <- load (left g) ;;
      add_derivative (left g) (r_mul (GRAD_EXP (value l)) (derivative g))
  | GRAD_OP_LOG =>
      g <- load grad ;;
      l <- load (left g) ;;
      add_derivative (left g) (r_div (derivative g) (value l))
  | GRAD_OP_NONE => ret tt
  end.

Definition grad_reverse_backward (output : ptr) : RM unit :=
  s <- get ;;
  for_up (grad_reverse_current_id s)
    (fun i => write_derivative (Some i) r_zero) ;;
  write_derivative output r_one ;;
  s <- get ;;
  for_down (grad_reverse_current_id s) (fun i => propagate (Some i)).

End Engine.
End Reverse.

(* ================================================================= *)
(** ** Callers: sequences of calls

    A caller declares locals one after the other, each the result of a call
    on earlier locals ([grad_forward_t s1 = grad_forward_mul(&x, &x);]).
    A call names its operands by their position among the locals declared
    so far. *)

(** The operations both engines have. *)
Inductive unop : Type := ONeg | OInv | OSin | OCos | OExp | OLog.
Inductive binop : Type := OAdd | OMul | OSub | ODiv.

Section Callers.
Context {G : GradReal} {C : GradConfig}.

Inductive call : Type :=
| Init (v : grad_real_t)
| Un (o : unop) (a : nat)
| Bin (o : binop) (a b : nat).

(** The operations of the forward engine alone. *)
Inductive fwd_only : Type :=
| AddC (constant : grad_real_t)
| MulC (constant : grad_real_t)
| Tan
| Sqrt
| Pow (e : grad_real_t).

Inductive fwd_call : Type :=
| FCall (c : call)
| FOnly (o : fwd_only) (a : nat).

Inductive rev_call : Type :=
| RCall (c : call)
| RBackward (a : nat).

(** The [a]-th local. *)
Definition local {S A : Type} (env : list A) (a : nat) : M S A :=
  match nth_error env a with
  | Some x => ret x
  | None => undefined
  end.

Definition fwd_unop (o : unop)
  : Forward.grad_forward_t -> Forward.FM Forward.grad_forward_t :=
  match o with
  | ONeg => Forward.grad_forward_neg
  | OInv => Forward.grad_forward_inv
  | OSin => Forward.grad_forward_sin
  | OCos => Forward.grad_forward_cos
  | OExp => Forward.grad_forward_exp
  | OLog => Forward.grad_forward_log
  end.

Definition fwd_binop (o : binop)
  : Forward.grad_forward_t -> Forward.grad_forward_t ->
    Forward.FM Forward.grad_forward_t :=
  match o with
  | OAdd => Forward.grad_forward_add
  | OMul => Forward.grad_forward_mul
  | OSub => Forward.grad_forward_sub
  | ODiv => Forward.grad_forward_div
  end.

Definition fwd_only_op (o : fwd_only)
  : Forward.grad_forward_t -> Forward.FM Forward.grad_forward_t :=
  match o with
  | AddC c => fun g => Forward.grad_forward_add_c g c
  | MulC c => fun g => Forward.grad_forward_mul_c g c
  | Tan => Forward.grad_forward_tan
  | Sqrt => Forward.grad_forward_sqrt
  | Pow e => fun g => Forward.grad_forward_pow g e
  end.

Definition fwd_exec (c : fwd_call) (env : list Forward.grad_forward_t)
  : Forward.FM Forward.grad_forward_t :=
  match c with
  | FCall (Init v) => Forward.grad_forward_init v
  | FCall (Un o a) => x <- local env a ;; fwd_unop o x
  | FCall (Bin o a b) => x <- local env a ;; y <- local env b ;; fwd_binop o x y
  | FOnly o a => x <- local env a ;; fwd_only_op o x
  end.

Fixpoint fwd_run (p : list fwd_call) (env : list Forward.grad_forward_t)
  : Forward.FM (list Forward.grad_forward_t) :=
  match p with
  | [] => ret env
  | c :: p' => x <- fwd_exec c env ;; fwd_run p' (env ++ [x])
  end.

(** [grad_forward_start_scope(); ...calls...] *)
Definition fwd_scope (p : list fwd_call)
  : Forward.FM (list Forward.grad_forward_t) :=
  Forward.grad_forward_start_scope ;; fwd_run p [].

Definition rev_unop (o : unop) : Reverse.ptr -> Reverse.RM Reverse.ptr :=
  match o with
  | ONeg => Reverse.grad_reverse_neg
  | OInv => Reverse.grad_reverse_inv
  | OSin => Reverse.grad_reverse_sin
  | OCos => Reverse.grad_reverse_cos
  | OExp => Reverse.grad_reverse_exp
  | OLog => Reverse.grad_reverse_log
  end.

Definition rev_binop (o : binop)
  : Reverse.ptr -> Reverse.ptr -> Reverse.RM Reverse.ptr :=
  match o with
  | OAdd => Reverse.grad_reverse_add
  | OMul => Reverse.grad_reverse_mul
  | OSub => Reverse.grad_reverse_sub
  | ODiv => Reverse.grad_reverse_div
  end.

Definition rev_exec (c : call) (env : list Reverse.ptr)
  : Reverse.RM Reverse.ptr :=
  match c with
  | Init v => Reverse.grad_reverse_init v
  | Un o a => x <- local env a ;; rev_unop o x
  | Bin o a b => x <- local env a ;; y <- local env b ;; rev_binop o x y
  end.

Fixpoint rev_run (p : list rev_call) (env : list Reverse.ptr)
  : Reverse.RM (list Reverse.ptr) :=
  match p with
  | [] => ret env
  | RCall c :: p' => x <- rev_exec c env ;; rev_run p' (env ++ [x])
  | RBackward a :: p' =>
      x <- local env a ;; Reverse.grad_reverse_backward x ;; rev_run p' env
  end.

(** [grad_reverse_start_scope(); ...calls...] *)
Definition rev_scope (p : list rev_call) : Reverse.RM (list Reverse.ptr) :=
  Reverse.grad_reverse_start_scope ;; rev_run p [].

End Callers.

(* ================================================================= *)
(** ** Vocabulary of the specification *)

Section ForwardVocabulary.
Context {G : GradReal} {C : GradConfig}.

(** A derivative vector given entry by entry: [g j] below the slot count
    [n], zero from there on. *)
Definition fill (n : nat) (g : nat -> grad_real_t) : list grad_real_t :=
  map (fun j => if j <? n then g j else r_zero)
      (seq 0 GRAD_FORWARD_TAPE_SIZE).

(** The array of a Variable has the declared number of entries. *)
Definition var_ok (v : Forward.grad_forward_t) : Prop :=
  length (Forward.derivative v) = GRAD_FORWARD_TAPE_SIZE.

(** Operands are earlier locals: [k] locals are declared before the calls. *)
Definition call_scoped (k : nat) (c : call) : bool :=
  match c with
  | Init _ => true
  | Un _ a => a <? k
  | Bin _ a b => (a <? k) && (b <? k)
  end.

Definition fwd_call_scoped (k : nat) (c : fwd_call) : bool :=
  match c with
  | FCall c => call_scoped k c
  | FOnly _ a => a <? k
  end.

Fixpoint fwd_scoped (k : nat) (p : list fwd_call) : bool :=
  match p with
  | [] => true
  | c :: p' => fwd_call_scoped k c && fwd_scoped (S k) p'
  end.

Definition is_init (c : fwd_call) : bool :=
  match c with
  | FCall (Init _) => true
  | _ => false
  end.

(** Slots a call sequence asks for. *)
Definition count_inits (p : list fwd_call) : nat :=
  length (filter is_init p).

End ForwardVocabulary.

Section ReverseVocabulary.
Context {G : GradReal} {C : GradConfig}.
Import Reverse.

(** [grad_reverse_tape[i]]. *)
Definition node_at (t : list grad_reverse_t) (i : nat) : grad_reverse_t :=
  nth i t zero_node.

(** The operand references a node's operation reads: none for a leaf,
    [left] for a unary node, [left] and [right] for [ADD] and [MUL]. *)
Definition operands (n : grad_reverse_t) : list ptr :=
  match operation n with
  | GRAD_OP_NONE => []
  | GRAD_OP_ADD | GRAD_OP_MUL => [left n; right n]
  | GRAD_OP_NEG | GRAD_OP_INV | GRAD_OP_SIN | GRAD_OP_COS
  | GRAD_OP_EXP | GRAD_OP_LOG => [left n]
  end.

(** Every operand reference of node [i] is the address of a node of
    strictly smaller index. *)
Definition operands_below (t : list grad_reverse_t) (i : nat) : Prop :=
  forall q, In q (operands (node_at t i)) -> exists l, q = Some l /\ l < i.

(** The tape is the declared array, the counter is within it, and the live
    nodes refer backwards. *)
Definition tape_ok (s : state) : Prop :=
  length (grad_reverse_tape s) = GRAD_REVERSE_TAPE_SIZE /\
  grad_reverse_current_id s <= GRAD_REVERSE_TAPE_SIZE /\
  forall i, i < grad_reverse_current_id s ->
            operands_below (grad_reverse_tape s) i.

(** The order in which [grad_reverse_backward] visits the live nodes. *)
Definition backward_order (s : state) : list nat :=
  rev (seq 0 (grad_reverse_current_id s)).

(** *** The tape after a call, written out *)

Definition with_derivative (n : grad_reverse_t) (x : grad_real_t)
  : grad_reverse_t :=
  {| value := value n; derivative := x; operation := operation n;
     left := left n; right := right n |}.

Definition set_derivative_in (t : list grad_reverse_t) (i : nat)
  (x : grad_real_t) : list grad_reverse_t :=
  upd t i (with_derivative (node_at t i) x).

Definition add_derivative_in (t : list grad_reverse_t) (i : nat)
  (x : grad_real_t) : list grad_reverse_t :=
  set_derivative_in t i (r_add (derivative (node_at t i)) x).

Definition index_of (q : ptr) : nat :=
  match q with
  | Some i => i
  | None => 0
  end.

(** The node a creating call writes at the counter: [init] leaves the
    [left] and [right] found in the cell. *)
Definition leaf_node (t : list grad_reverse_t) (i : nat) (v : grad_real_t)
  : grad_reverse_t :=
  {| value := v; derivative := r_zero; operation := GRAD_OP_NONE;
     left := left (node_at t i); right := right (node_at t i) |}.

Definition unary_node (t : list grad_reverse_t) (i : nat) (v : grad_real_t)
  (o : grad_reverse_op_t) (l : nat) : grad_reverse_t :=
  {| value := v; derivative := r_zero; operation := o;
     left := Some l; right := right (node_at t i) |}.

Definition binary_node (v : grad_real_t) (o : grad_reverse_op_t) (l r : nat)
  : grad_reverse_t :=
  {| value := v; derivative := r_zero; operation := o;
     left := Some l; right := Some r |}.

(** The terms node [i] adds to its operands' adjoints, in the order of the
    statements of the [switch], for the adjoint [a] of the node. *)
Definition contributions (t : list grad_reverse_t) (i : nat) (a : grad_real_t)
  : list (nat * grad_real_t) :=
  let g := node_at t i in
  let l := index_of (left g) in
  let r := index_of (right g) in
  let lv := value (node_at t l) in
  let rv := value (node_at t r) in
  match operation g with
  | GRAD_OP_NONE => []
  | GRAD_OP_ADD => [(l, a); (r, a)]
  | GRAD_OP_MUL => [(l, r_mul rv a); (r, r_mul lv a)]
  | GRAD_OP_NEG => [(l, r_mul (r_neg r_one) a)]
  | GRAD_OP_INV => [(l, r_div (r_neg a) (r_mul lv lv))]
  | GRAD_OP_SIN => [(l, r_mul (GRAD_COS lv) a)]
  | GRAD_OP_COS => [(l, r_mul (r_neg (GRAD_SIN lv)) a)]
  | GRAD_OP_EXP => [(l, r_mul (GRAD_EXP lv) a)]
  | GRAD_OP_LOG => [(l, r_div a lv)]
  end.

Definition add_all (cs : list (nat * grad_real_t)) (t : list grad_reverse_t)
  : list grad_reverse_t :=
  fold_left (fun t c => add_derivative_in t (fst c) (snd c)) cs t.

(** One turn of the descending loop of [grad_reverse_backward]. *)
Definition propagate_in (i : nat) (t : list grad_reverse_t)
  : list grad_reverse_t :=
  add_all (contributions t i (derivative (node_at t i))) t.

(** The tape [grad_reverse_backward] leaves. *)
Definition zero_seed (out n : nat) (t : list grad_reverse_t)
  : list grad_reverse_t :=
  set_derivative_in
    (for_loop n (fun i t => set_derivative_in t i r_zero) t) out r_one.

Definition propagate_from (k : nat) (t : list grad_reverse_t)
  : list grad_reverse_t :=
  fold_left (fun t i => propagate_in i t) (rev (seq 0 k)) t.

Definition backward_in (out n : nat) (t : list grad_reverse_t)
  : list grad_reverse_t :=
  propagate_from n (zero_seed out n t).

(** Nodes a call appends: [sub] and [div] go through [neg] and [inv]. *)
Definition nodes_of_call (c : call) : nat :=
  match c with
  | Bin OSub _ _ | Bin ODiv _ _ => 2
  | _ => 1
  end.

Definition nodes_of (c : rev_call) : nat :=
  match c with
  | RCall c => nodes_of_call c
  | RBackward _ => 0
  end.

Definition count_nodes (p : list rev_call) : nat :=
  fold_right (fun c n => nodes_of c + n) 0 p.

Definition rev_call_scoped (k : nat) (c : rev_call) : bool :=
  match c with
  | RCall c => call_scoped k c
  | RBackward a => a <? k
  end.

Definition declares (c : rev_call) : nat :=
  match c with
  | RCall _ => 1
  | RBackward _ => 0
  end.

Fixpoint rev_scoped (k : nat) (p : list rev_call) : bool :=
  match p with
  | [] => true
  | c :: p' => rev_call_scoped k c && rev_scoped (declares c + k) p'
  end.

End ReverseVocabulary.

Section ReverseCalls.
Context {G : GradReal} {C : GradConfig}.
Import Reverse.

(** Two tapes with the same nodes up to their adjoints. *)
Definition same_shape (t t' : list grad_reverse_t) : Prop :=
  length t = length t' /\
  forall j, value (node_at t j) = value (node_at t' j) /\
            operation (node_at t j) = operation (node_at t' j) /\
            left (node_at t j) = left (node_at t' j) /\
            right (node_at t j) = right (node_at t' j).

Definition zero_all (n : nat) (t : list grad_reverse_t) : list grad_reverse_t :=
  for_loop n (fun i t => set_derivative_in t i r_zero) t.

(** The value and the tag a unary call records. *)
Definition unop_value (o : unop) (v : grad_real_t) : grad_real_t :=
  match o with
  | ONeg => r_neg v
  | OInv => r_div r_one v
  | OSin => GRAD_SIN v
  | OCos => GRAD_COS v
  | OExp => GRAD_EXP v
  | OLog => GRAD_LOG v
  end.

Definition unop_tag (o : unop) : grad_reverse_op_t :=
  match o with
  | ONeg => GRAD_OP_NEG
  | OInv => GRAD_OP_INV
  | OSin => GRAD_OP_SIN
  | OCos => GRAD_OP_COS
  | OExp => GRAD_OP_EXP
  | OLog => GRAD_OP_LOG
  end.

(** The tape a creating call leaves, for the counter [n] it finds and the
    locals [env] of its caller. *)
Definition call_in (c : call) (env : list ptr) (t : list grad_reverse_t)
  (n : nat) : list grad_reverse_t :=
  match c with
  | Init v => upd t n (leaf_node t n v)
  | Un o a =>
      let l := index_of (nth a env None) in
      upd t n (unary_node t n (unop_value o (value (node_at t l)))
                 (unop_tag o) l)
  | Bin o a b =>
      let l := index_of (nth a env None) in
      let r := index_of (nth b env None) in
      let lv := value (node_at t l) in
      let rv := value (node_at t r) in
      match o with
      | OAdd => upd t n (binary_node (r_add lv rv) GRAD_OP_ADD l r)
      | OMul => upd t n (binary_node (r_mul lv rv) GRAD_OP_MUL l r)
      | OSub =>
          let t1 := upd t n (unary_node t n (r_neg rv) GRAD_OP_NEG r) in
          upd t1 (n + 1)
            (binary_node (r_add (value (node_at t1 l)) (value (node_at t1 n)))
               GRAD_OP_ADD l n)
      | ODiv =>
          let t1 := upd t n (unary_node t n (r_div r_one rv) GRAD_OP_INV r) in
          upd t1 (n + 1)
            (binary_node (r_mul (value (node_at t1 l)) (value (node_at t1 n)))
               GRAD_OP_MUL l n)
      end
  end.

(** The caller's locals are addresses of live nodes. *)
Definition env_ok (env : list ptr) (n : nat) : Prop :=
  forall q, In q env -> exists i, q = Some i /\ i < n.

End ReverseCalls.

Section ReverseInvariantDef.
Context {G : GradReal} {C : GradConfig}.

(** What a run keeps true: the tape is well formed and the locals are
    addresses of live nodes. *)
Definition rev_inv (s : Reverse.state) (env : list Reverse.ptr) : Prop :=
  tape_ok s /\ env_ok env (Reverse.grad_reverse_current_id s).

End ReverseInvariantDef.

(** ** The examples of the repository

    [examples/newton_reverse.c] and [examples/newton_forward.c] build
    [-x^2 + 6x + 3] at the current iterate [x]; here over the reals, with
    the header's default tape sizes. *)

Definition newton_reverse (x : R) : list (@rev_call exact_real) :=
  [ RCall (Init (G := exact_real) x);      (* x_grad *)
    RCall (Bin OMul 0 0);                  (* s1 = x * x *)
    RCall (Un ONeg 1);                     (* s2 = -s1 *)
    RCall (Init (G := exact_real) 6%R);    (* coe_grad *)
    RCall (Bin OMul 0 3);                  (* s3 = x * 6 *)
    RCall (Bin OAdd 2 4);                  (* s4 = s2 + s3 *)
    RCall (Init (G := exact_real) 3%R);    (* c *)
    RCall (Bin OAdd 5 6);                  (* f = s4 + c *)
    RBackward 7 ].

Definition newton_forward (x : R) : list (@fwd_call exact_real) :=
  [ FCall (Init (G := exact_real) x);      (* x_grad *)
    FOnly (Pow (G := exact_real) 2%R) 0;   (* s1 = pow(x, 2) *)
    FCall (Un ONeg 1);                     (* s2 = -s1 *)
    FOnly (MulC (G := exact_real) 6%R) 0;  (* s3 = 6 x *)
    FCall (Bin OAdd 2 3);                  (* s4 = s2 + s3 *)
    FOnly (AddC (G := exact_real) 3%R) 4 ].  (* f = s4 + 3 *)

(** [y = 1 / x] at [x = 2], over the reals. *)
Definition reciprocal_calls : list (@call exact_real) :=
  [ Init (G := exact_real) 2%R;            (* x *)
    Un OInv 0 ].                           (* y = 1 / x *)

(** The polynomial of the examples, [-x^2 + 6x + 3], from the operations
    both engines have. *)
Definition newton_calls (x : R) : list (@call exact_real) :=
  [ Init (G := exact_real) x;
    Bin OMul 0 0;
    Un ONeg 1;
    Init (G := exact_real) 6%R;
    Bin OMul 0 3;
    Bin OAdd 2 4;
    Init (G := exact_real) 3%R;
    Bin OAdd 5 6 ].

Section Observation.
Context {G : GradReal} {C : GradConfig}.
Import Reverse.

(** What a caller can read of a live node: its value, its adjoint, and the
    graph (operation and the operands that operation has).  The [left] and
    [right] a leaf or a unary node found in its cell are not part of it. *)
Definition node_view (n : grad_reverse_t)
  : grad_real_t * grad_real_t * grad_reverse_op_t * list ptr :=
  (value n, derivative n, operation n, operands n).

(** The live segment of the tape, as a caller reads it. *)
Definition live_view (s : state)
  : nat * list (grad_real_t * grad_real_t * grad_reverse_op_t * list ptr) :=
  (grad_reverse_current_id s,
   map node_view (firstn (grad_reverse_current_id s) (grad_reverse_tape s))).

(** The result of a run, as a caller reads it. *)
Definition observe {A : Type} (r : outcome (A * state))
  : outcome (A * (nat * list (grad_real_t * grad_real_t *
                              grad_reverse_op_t * list ptr))) :=
  match r with
  | Ok (a, s) => Ok (a, live_view s)
  | AssertFail => AssertFail
  | Undefined => Undefined
  end.

(** Two tapes that read the same below [n]. *)
Definition live_eq (n : nat) (t1 t2 : list grad_reverse_t) : Prop :=
  forall i, i < n -> node_view (node_at t1 i) = node_view (node_at t2 i).

(** The adjoint of node [j]. *)
Definition adjoint (s : state) (j : nat) : grad_real_t :=
  derivative (node_at (grad_reverse_tape s) j).

(** The terms an appended node [i] adds when its own adjoint is zero leave
    the adjoints 0.0 and 1.0 as they are. *)
Definition neutral_node (t : list grad_reverse_t) (i : nat) : Prop :=
  forall c, In c (contributions t i r_zero) ->
            r_add r_zero (snd c) = r_zero /\ r_add r_one (snd c) = r_one.

End Observation.

Section RelatedRuns.
Context {G : GradReal} {C : GradConfig}.
Import Reverse.

(** Two runs of the same calls, from tapes that read the same. *)
Definition related {A : Type} (r1 r2 : outcome (A * state)) : Prop :=
  match r1, r2 with
  | Ok (a1, s1), Ok (a2, s2) =>
      a1 = a2 /\
      grad_reverse_current_id s1 = grad_reverse_current_id s2 /\
      live_eq (grad_reverse_current_id s1)
        (grad_reverse_tape s1) (grad_reverse_tape s2) /\
      length (grad_reverse_tape s1) = GRAD_REVERSE_TAPE_SIZE /\
      length (grad_reverse_tape s2) = GRAD_REVERSE_TAPE_SIZE /\
      grad_reverse_current_id s1 <= GRAD_REVERSE_TAPE_SIZE
  | AssertFail, AssertFail => True
  | Undefined, Undefined => True
  | _, _ => False
  end.

End RelatedRuns.

Section DeadNodesDef.
Context {G : GradReal} {C : GradConfig}.
Import Reverse.

(** The turns of the descending loop for the nodes [n + k - 1] down to [n]. *)
Definition propagate_range (n k : nat) (t : list grad_reverse_t)
  : list grad_reverse_t :=
  fold_left (fun t i => propagate_in i t) (rev (seq n k)) t.

(** The adjoint of node [j] once the calls [p], started in a fresh scope on
    the zeroed static tape, have run. *)
Definition final_adjoint (p : list rev_call) (j : nat) : option grad_real_t :=
  match rev_scope p initial_state with
  | Ok (_, s) => Some (adjoint s j)
  | _ => None
  end.

End DeadNodesDef.

(** A node appended after the output, on a singularity: [x = 0.0],
    [out = x + x], then [grad_reverse_inv(x)] which nothing refers to. *)
Definition dead_inv_calls (m : libm) : list (@rev_call (binary64 m)) :=
  [ RCall (Init (G := binary64 m) 0%float);
    RCall (Bin OAdd 0 0);
    RCall (Un OInv 0);
    RBackward 1 ].

Definition live_only_calls (m : libm) : list (@rev_call (binary64 m)) :=
  [ RCall (Init (G := binary64 m) 0%float);
    RCall (Bin OAdd 0 0);
    RBackward 1 ].

(** ** The chain rule over the recorded graph, in exact arithmetic *)

(** A list built entry by entry, each entry from the entries before it. *)
Fixpoint build {A : Type} (step : nat -> list A -> A) (n : nat) : list A :=
  match n with
  | 0 => []
  | S k => let l := build step k in l ++ [step k l]
  end.

Section ValueConsistency.
Context {G : GradReal} {C : GradConfig}.
Import Reverse.

(** The value a node records is its operation applied to the values its
    operands record. *)
Definition value_consistent (t : list grad_reverse_t) (i : nat) : Prop :=
  let g := node_at t i in
  let lv := value (node_at t (index_of (left g))) in
  let rv := value (node_at t (index_of (right g))) in
  match operation g with
  | GRAD_OP_NONE => True
  | GRAD_OP_ADD => value g = r_add lv rv
  | GRAD_OP_MUL => value g = r_mul lv rv
  | GRAD_OP_NEG => value g = r_neg lv
  | GRAD_OP_INV => value g = r_div r_one lv
  | GRAD_OP_SIN => value g = GRAD_SIN lv
  | GRAD_OP_COS => value g = GRAD_COS lv
  | GRAD_OP_EXP => value g = GRAD_EXP lv
  | GRAD_OP_LOG => value g = GRAD_LOG lv
  end.

(** Every live node records the value of its operation on its operands. *)
Definition consistent (s : state) : Prop :=
  forall i, i < grad_reverse_current_id s ->
            value_consistent (grad_reverse_tape s) i.

End ValueConsistency.

Section ExactChainRule.
Context {C : GradConfig}.
#[local] Existing Instance exact_real.
Import Reverse.

(** The partial derivatives of node [i] with respect to its operands, at
    the recorded values: the table of the backward pass. *)
Definition partials (t : list grad_reverse_t) (i : nat) : list (nat * R) :=
  let g := node_at t i in
  let l := index_of (left g) in
  let r := index_of (right g) in
  let lv := value (node_at t l) in
  let rv := value (node_at t r) in
  match operation g with
  | GRAD_OP_NONE => []
  | GRAD_OP_ADD => [(l, 1); (r, 1)]
  | GRAD_OP_MUL => [(l, rv); (r, lv)]
  | GRAD_OP_NEG => [(l, - 1)]
  | GRAD_OP_INV => [(l, - / (lv * lv))]
  | GRAD_OP_SIN => [(l, cos lv)]
  | GRAD_OP_COS => [(l, - sin lv)]
  | GRAD_OP_EXP => [(l, exp lv)]
  | GRAD_OP_LOG => [(l, / lv)]
  end%R.

(** [sum_k w_k * f k] over a list of (index, weight). *)
Definition weighted (cs : list (nat * R)) (f : nat -> R) : R :=
  fold_right (fun c acc => snd c * f (fst c) + acc)%R 0%R cs.

(** The derivative of node [i] with respect to node [j] by the chain rule:
    0 before [j], 1 at [j], and after [j] the partials of the node times
    the derivatives of its operands. *)
Definition tangent_step (t : list grad_reverse_t) (j i : nat) (ts : list R)
  : R :=
  if i <? j then 0%R
  else if i =? j then 1%R
  else weighted (partials t i) (fun l => nth l ts 0%R).

Definition tangent (t : list grad_reverse_t) (j i : nat) : R :=
  tangent_step t j i (build (tangent_step t j) i).

(** The operation of a node, applied to values of its operands. *)
Definition op_apply (g : grad_reverse_t) (lv rv : R) : R :=
  match operation g with
  | GRAD_OP_NONE => value g
  | GRAD_OP_ADD => lv + rv
  | GRAD_OP_MUL => lv * rv
  | GRAD_OP_NEG => - lv
  | GRAD_OP_INV => 1 / lv
  | GRAD_OP_SIN => sin lv
  | GRAD_OP_COS => cos lv
  | GRAD_OP_EXP => exp lv
  | GRAD_OP_LOG => ln lv
  end%R.

(** The value of node [i] as a function of the value [x] given to node
    [j]: the nodes before [j] keep their values, the nodes after it are
    computed anew from their operands (a leaf keeps its value). *)
Definition revalue_step (t : list grad_reverse_t) (j : nat) (x : R) (i : nat)
  (vs : list R) : R :=
  let g := node_at t i in
  if i <? j then value g
  else if i =? j then x
  else op_apply g (nth (index_of (left g)) vs 0%R)
                  (nth (index_of (right g)) vs 0%R).

Definition value_wrt (t : list grad_reverse_t) (j i : nat) (x : R) : R :=
  revalue_step t j x i (build (revalue_step t j x) i).

(** Node [i] is away from the singularities of its operation. *)
Definition regular_node (t : list grad_reverse_t) (i : nat) : Prop :=
  let g := node_at t i in
  let lv := value (node_at t (index_of (left g))) in
  match operation g with
  | GRAD_OP_INV => lv <> 0%R
  | GRAD_OP_LOG => (0 < lv)%R
  | _ => True
  end.

(** [sum_(m < k) adjoint m * f m]. *)
Fixpoint adjoint_sum (t : list grad_reverse_t) (k : nat) (f : nat -> R) : R :=
  match k with
  | 0 => 0%R
  | S m => (adjoint_sum t m f + derivative (node_at t m) * f m)%R
  end.

(** What the descending loop keeps: the adjoints of the nodes not yet
    visited, weighted by their tangents, plus the adjoint of [j] once [j]
    has been visited. *)
Definition potential (t T : list grad_reverse_t) (j k : nat) : R :=
  (adjoint_sum T k (tangent t j) +
   (if k <=? j then derivative (node_at T j) else 0))%R.

End ExactChainRule.

Section ForwardClosedForms.
Context {G : GradReal} {C : GradConfig}.

(** The value and the derivative entry each forward operation computes,
    from the value [v] of its operand and the operand's entry [dv]. *)
Definition unop_fvalue (o : unop) (v : grad_real_t) : grad_real_t :=
  match o with
  | ONeg => r_mul v (r_neg r_one)
  | OInv => r_div r_one v
  | OSin => GRAD_SIN v
  | OCos => GRAD_COS v
  | OExp => GRAD_EXP v
  | OLog => GRAD_LOG v
  end.

Definition unop_fentry (o : unop) (v dv : grad_real_t) : grad_real_t :=
  match o with
  | ONeg => r_mul (r_neg r_one) dv
  | OInv => r_mul (r_neg dv) (r_div r_one (r_mul v v))
  | OSin => r_mul (GRAD_COS v) dv
  | OCos => r_mul (r_neg (GRAD_SIN v)) dv
  | OExp => r_mul (GRAD_EXP v) dv
  | OLog => r_mul (r_div r_one v) dv
  end.

Definition binop_fvalue (o : binop) (a b : grad_real_t) : grad_real_t :=
  match o with
  | OAdd => r_add a b
  | OMul => r_mul a b
  | OSub => r_add a (unop_fvalue ONeg b)
  | ODiv => r_mul a (unop_fvalue OInv b)
  end.

Definition binop_fentry (o : binop) (a b da db : grad_real_t) : grad_real_t :=
  match o with
  | OAdd => r_add da db
  | OMul => r_add (r_mul da b) (r_mul a db)
  | OSub => r_add da (unop_fentry ONeg b db)
  | ODiv => r_add (r_mul da (unop_fvalue OInv b))
                  (r_mul a (unop_fentry OInv b db))
  end.

Definition only_fvalue (o : fwd_only) (v : grad_real_t) : grad_real_t :=
  match o with
  | AddC c => r_add v c
  | MulC c => r_mul v c
  | Tan => binop_fvalue ODiv (GRAD_SIN v) (GRAD_COS v)
  | Sqrt => GRAD_SQRT v
  | Pow e => GRAD_POW v e
  end.

Definition only_fentry (o : fwd_only) (v dv : grad_real_t) : grad_real_t :=
  match o with
  | AddC c => dv
  | MulC c => r_mul c dv
  | Tan => binop_fentry ODiv (GRAD_SIN v) (GRAD_COS v)
             (unop_fentry OSin v dv) (unop_fentry OCos v dv)
  | Sqrt => r_mul (r_div r_half (GRAD_SQRT v)) dv
  | Pow e => r_mul (r_mul e (GRAD_POW v (r_sub e r_one))) dv
  end.

(** The Variable an operation returns at slot count [n]. *)
Definition result_of (n : nat) (v : grad_real_t) (g : nat -> grad_real_t)
  : Forward.grad_forward_t :=
  {| Forward.id := 0; Forward.value := v; Forward.derivative := fill n g |}.

(** The entries from the slot count on are zero. *)
Definition zero_beyond (n : nat) (x : Forward.grad_forward_t) : Prop :=
  forall m, n <= m -> Forward.derivative_at x m = r_zero.

End ForwardClosedForms.

Section CrossModeDef.
Context {C : GradConfig}.
#[local] Existing Instance exact_real.

(** The partial derivative a unary node records for its operand. *)
Definition unop_partial (o : unop) (v : R) : R :=
  match o with
  | ONeg => - 1
  | OInv => - / (v * v)
  | OSin => cos v
  | OCos => - sin v
  | OExp => exp v
  | OLog => / v
  end%R.

(** The [k]-th local of a forward caller, and the tape index of the [k]-th
    local of a reverse caller. *)
Definition var_at (envf : list Forward.grad_forward_t) (k : nat)
  : Forward.grad_forward_t :=
  nth k envf Forward.zero_init.

Definition node_of (envr : list Reverse.ptr) (k : nat) : nat :=
  index_of (nth k envr None).

(** The two engines after the same calls [done]: the locals correspond, with
    equal values, and the forward entry of every local at the slot of every
    seed is the chain-rule tangent of its node with respect to the seed's
    leaf. *)
Definition agree (done : list call)
  (envf : list Forward.grad_forward_t) (sf : Forward.state)
  (envr : list Reverse.ptr) (sr : Reverse.state) : Prop :=
  length envf = length done /\
  length envr = length done /\
  rev_inv sr envr /\
  Forward.grad_forward_current_id sf <= GRAD_FORWARD_TAPE_SIZE /\
  (forall k, k < length done ->
     zero_beyond (Forward.grad_forward_current_id sf) (var_at envf k) /\
     Forward.value (var_at envf k) =
       Reverse.value (node_at (Reverse.grad_reverse_tape sr) (node_of envr k))) /\
  (forall a v, nth_error done a = Some (Init v) ->
     Forward.id (var_at envf a) < Forward.grad_forward_current_id sf /\
     forall k, k < length done ->
       Forward.derivative_at (var_at envf k) (Forward.id (var_at envf a)) =
       tangent (Reverse.grad_reverse_tape sr) (node_of envr a) (node_of envr k)).

End CrossModeDef.

(** ** The two engines side by side *)

Section CrossModeReaders.
Context {G : GradReal} {C : GradConfig}.

(** Forward mode: the calls [p] in a fresh scope, then the entry of the
    derivative vector of local [o] at the slot of local [a]. *)
Definition forward_entry (p : list call) (o a : nat) : option grad_real_t :=
  match fwd_scope (map FCall p) {| Forward.grad_forward_current_id := 0 |} with
  | Ok (envf, _) =>
      Some (Forward.derivative_at (nth o envf Forward.zero_init)
              (Forward.id (nth a envf Forward.zero_init)))
  | _ => None
  end.

(** Reverse mode: the calls [p] in a fresh scope on the zeroed static tape,
    [grad_reverse_backward] on local [o], then the adjoint of local [a]. *)
Definition reverse_entry (p : list call) (o a : nat) : option grad_real_t :=
  match rev_scope (map RCall p ++ [RBackward o]) Reverse.initial_state with
  | Ok (envr, s) => Some (adjoint s (index_of (nth a envr None)))
  | _ => None
  end.

(** The value of local [o] after the calls [p], in each engine. *)
Definition forward_value (p : list call) (o : nat) : option grad_real_t :=
  match fwd_scope (map FCall p) {| Forward.grad_forward_current_id := 0 |} with
  | Ok (envf, _) => Some (Forward.value (nth o envf Forward.zero_init))
  | _ => None
  end.

Definition reverse_value (p : list call) (o : nat) : option grad_real_t :=
  match rev_scope (map RCall p) Reverse.initial_state with
  | Ok (envr, s) =>
      Some (Reverse.value
              (node_at (Reverse.grad_reverse_tape s)
                 (index_of (nth o envr None))))
  | _ => None
  end.

End CrossModeReaders.

(** [y = 1 / x] at [x = 0.0]. *)
Definition inv_calls (m : libm) : list (@call (binary64 m)) :=
  [ Init (G := binary64 m) 0%float;        (* x *)
    Un OInv 0 ].                           (* y = 1 / x *)

(** [z = 1 / x] at [x = 0.0], with a second seed [c = 5.0] that [z] does
    not depend on. *)
Definition second_seed_calls (m : libm) : list (@call (binary64 m)) :=
  [ Init (G := binary64 m) 0%float;        (* x *)
    Init (G := binary64 m) 5%float;        (* c *)
    Un OInv 0 ].                           (* z = 1 / x *)

(** [y = x * b + x * (-b) + x * h] at [x = 1], [b = 1e16], [h = 0.5]. *)
Definition cancelling_calls (m : libm) : list (@call (binary64 m)) :=
  [ Init (G := binary64 m) 1%float;
    Init (G := binary64 m) 1e16%float;
    Init (G := binary64 m) (-1e16)%float;
    Init (G := binary64 m) 0.5%float;
    Bin OMul 0 1;
    Bin OMul 0 2;
    Bin OAdd 4 5;
    Bin OMul 0 3;
    Bin OAdd 6 7 ].

(** The same calls over the reals. *)
Definition cancelling_exact : list (@call exact_real) :=
  [ Init (G := exact_real) 1%R;
    Init (G := exact_real) 10000000000000000%R;
    Init (G := exact_real) (-10000000000000000)%R;
    Init (G := exact_real) (/ 2)%R;
    Bin OMul 0 1;
    Bin OMul 0 2;
    Bin OAdd 4 5;
    Bin OMul 0 3;
    Bin OAdd 6 7 ].

(** [y = (x * b + x * h) + x * (-b)] at [x = 1], [b = 1e16], [h = 0.5]. *)
Definition absorbing_calls (m : libm) : list (@call (binary64 m)) :=
  [ Init (G := binary64 m) 1%float;
    Init (G := binary64 m) 1e16%float;
    Init (G := binary64 m) (-1e16)%float;
    Init (G := binary64 m) 0.5%float;
    Bin OMul 0 1;
    Bin OMul 0 3;
    Bin OAdd 4 5;
    Bin OMul 0 2;
    Bin OAdd 6 7 ].

(** The same calls over the reals. *)
Definition absorbing_exact : list (@call exact_real) :=
  [ Init (G := exact_real) 1%R;
    Init (G := exact_real) 10000000000000000%R;
    Init (G := exact_real) (-10000000000000000)%R;
    Init (G := exact_real) (/ 2)%R;
    Bin OMul 0 1;
    Bin OMul 0 3;
    Bin OAdd 4 5;
    Bin OMul 0 2;
    Bin OAdd 6 7 ].

(** ** Tests on a run *)

(** A test on the result and the final state of a run that returns. *)
Definition run_check {A S : Type} (r : outcome (A * S)) (P : A -> S -> bool)
  : bool :=
  match r with
  | Ok (a, s) => P a s
  | _ => false
  end.

(** The operations without a singularity. *)
Definition smooth_op (o : Reverse.grad_reverse_op_t) : bool :=
  match o with
  | Reverse.GRAD_OP_INV | Reverse.GRAD_OP_LOG => false
  | _ => true
  end.

(** ** Forward mode and the derivative *)

Section ForwardAnalyticDef.
Context {C : GradConfig}.
#[local] Existing Instance exact_real.

(** The calls [p] with the call at position [a] replaced by
    [grad_forward_init(x)]. *)
Fixpoint reseed_at (a : nat) (x : R) (p : list fwd_call) : list fwd_call :=
  match p, a with
  | [], _ => []
  | _ :: p', 0 => FCall (Init x) :: p'
  | c :: p', S a' => c :: reseed_at a' x p'
  end.

(** The value of local [k] once the calls [p] have run in a fresh scope. *)
Definition value_after (p : list fwd_call) (k : nat) : R :=
  match fwd_scope p {| Forward.grad_forward_current_id := 0 |} with
  | Ok (env, _) => Forward.value (var_at env k)
  | _ => 0%R
  end.

(** The operand values at which an operation has the derivative its loop
    writes: away from its singularities. *)
Definition unop_regular (o : unop) (v : R) : Prop :=
  match o with
  | OInv => v <> 0%R
  | OLog => (0 < v)%R
  | _ => True
  end.

Definition binop_regular (o : binop) (a b : R) : Prop :=
  match o with
  | ODiv => b <> 0%R
  | _ => True
  end.

Definition only_regular (o : fwd_only) (v : R) : Prop :=
  match o with
  | Tan => cos v <> 0%R
  | Sqrt => (0 < v)%R
  | Pow e =>
      (0 < v)%R \/ exists z : Z, e = IZR z /\ (v <> 0%R \/ (0 < z)%Z)
  | _ => True
  end.

Definition call_regular (c : fwd_call) (env : list Forward.grad_forward_t)
  : Prop :=
  match c with
  | FCall (Init _) => True
  | FCall (Un o a) => unop_regular o (Forward.value (var_at env a))
  | FCall (Bin o a b) =>
      binop_regular o (Forward.value (var_at env a))
                      (Forward.value (var_at env b))
  | FOnly o a => only_regular o (Forward.value (var_at env a))
  end.

(** The locals a call reads. *)
Definition fwd_operands (c : fwd_call) : list nat :=
  match c with
  | FCall (Init _) => []
  | FCall (Un _ a) => [a]
  | FCall (Bin _ a b) => [a; b]
  | FOnly _ a => [a]
  end.

(** Local [k] is computed from local [j]: [j] is [k] itself, or an operand
    of the call that makes [k] is computed from [j]. *)
Inductive computed_from (p : list fwd_call) : nat -> nat -> Prop :=
| computed_self k : computed_from p k k
| computed_operand k c a j :
    nth_error p k = Some c -> In a (fwd_operands c) ->
    computed_from p a j -> computed_from p k j.

(** The calls that local [k] is computed from are away from the
    singularities. *)
Definition regular_for (p : list fwd_call)
  (env : list Forward.grad_forward_t) (k : nat) : Prop :=
  forall j c,
    computed_from p k j -> nth_error p j = Some c -> call_regular c env.

(** The value a call computes from the values of the locals before it. *)
Definition fwd_value_step (c : fwd_call) (vals : list R) : R :=
  match c with
  | FCall (Init v) => v
  | FCall (Un o a) => unop_fvalue o (nth a vals 0%R)
  | FCall (Bin o a b) => binop_fvalue o (nth a vals 0%R) (nth b vals 0%R)
  | FOnly o a => only_fvalue o (nth a vals 0%R)
  end.

(** The values of the locals of the calls [p]. *)
Definition pure_values (p : list fwd_call) : list R :=
  fold_left (fun vals c => vals ++ [fwd_value_step c vals]) p [].

(** The forward run of the calls [done] is sound: the locals are well
    formed, hold the values of the calls, and the entry of every local at
    the slot of every seed is the derivative of the local's value with
    respect to the seed's value. *)
Definition fwd_sound (done : list fwd_call)
  (env : list Forward.grad_forward_t) (s : Forward.state) : Prop :=
  length env = length done /\
  Forward.grad_forward_current_id s <= GRAD_FORWARD_TAPE_SIZE /\
  (forall j c, nth_error done j = Some c -> fwd_call_scoped j c = true) /\
  (forall k, k < length done ->
     var_ok (var_at env k) /\
     zero_beyond (Forward.grad_forward_current_id s) (var_at env k) /\
     Forward.value (var_at env k) = nth k (pure_values done) 0%R) /\
  (forall i, i < Forward.grad_forward_current_id s ->
     exists a v, nth_error done a = Some (FCall (Init v)) /\
                 Forward.id (var_at env a) = i) /\
  (forall a v, nth_error done a = Some (FCall (Init v)) ->
     Forward.id (var_at env a) < Forward.grad_forward_current_id s /\
     forall k, k < length done -> regular_for done env k ->
       derivable_pt_lim
         (fun x => nth k (pure_values (reseed_at a x done)) 0%R) v
         (Forward.derivative_at (var_at env k) (Forward.id (var_at env a)))).

End ForwardAnalyticDef.

(** ** Adjoints as a function of the output *)

Section AdjointAfter.
Context {G : GradReal} {C : GradConfig}.

(** The adjoint of node [j] that [grad_reverse_backward] on node [out]
    leaves, from the state [s]. *)
Definition adjoint_after (s : Reverse.state) (out j : nat) : grad_real_t :=
  match Reverse.grad_reverse_backward (Some out) s with
  | Ok (_, s') => adjoint s' j
  | _ => r_zero
  end.

End AdjointAfter.

(** A stand-in for libm where a binary64 run needs one: every function
    returns its first argument.  The theorems hold for every libm. *)
Definition libm_stub : libm := {|
  libm_exp := fun x => x;
  libm_log := fun x => x;
  libm_sin := fun x => x;
  libm_cos := fun x => x;
  libm_pow := fun x _ => x
|}.

(* ================================================================= *)
(** * Proofs *)

(** ** Tests on a run, and what they give *)

Section RunChecks.

Lemma run_check_ok {A S : Type} (r : outcome (A * S)) (P : A -> S -> bool) :
  run_check r P = true -> exists a s, r = Ok (a, s) /\ P a s = true.
Proof.
  destruct r as [[a s]| |]; simpl; intros H; try discriminate H.
  now exists a, s.
Qed.

End RunChecks.

(** ** Arrays and loops *)

Section ArrayFacts.
Context {A : Type}.
Implicit Types (l : list A) (i j : nat) (x d : A).

Lemma upd_length l i x : length (upd l i x) = length l.
Proof.
  revert i; induction l as [|h t IH]; intros [|i]; simpl; auto.
Qed.

Lemma nth_upd_same l i x d : i < length l -> nth i (upd l i x) d = x.
Proof.
  revert i; induction l as [|h t IH]; intros [|i]; simpl; intros H;
    try lia; auto.
  apply IH; lia.
Qed.

Lemma nth_upd_other l i j x d : i <> j -> nth j (upd l i x) d = nth j l d.
Proof.
  revert i j; induction l as [|h t IH]; intros [|i] [|j]; simpl; intros H;
    try congruence; auto.
Qed.

Lemma nth_upd l i j x d :
  nth j (upd l i x) d = if (i =? j) && (j <? length l) then x else nth j l d.
Proof.
  destruct (Nat.eqb_spec i j) as [->|Hne]; simpl.
  - destruct (Nat.ltb_spec j (length l)) as [Hlt|Hge].
    + now apply nth_upd_same.
    + rewrite !nth_overflow; auto. now rewrite upd_length.
  - now apply nth_upd_other.
Qed.

Lemma nth_error_upd_same l i x : i < length l -> nth_error (upd l i x) i = Some x.
Proof.
  revert i; induction l as [|h t IH]; intros [|i]; simpl; intros H;
    try lia; auto.
  apply IH; lia.
Qed.

Lemma nth_error_upd_other l i j x :
  i <> j -> nth_error (upd l i x) j = nth_error l j.
Proof.
  revert i j; induction l as [|h t IH]; intros [|i] [|j]; simpl; intros H;
    try congruence; auto.
Qed.

Lemma nth_error_nth_default l i d :
  i < length l -> nth_error l i = Some (nth i l d).
Proof.
  revert i; induction l as [|h t IH]; intros [|i]; simpl; intros H;
    try lia; auto.
  apply IH; lia.
Qed.

Lemma upd_upd_same l i x y : upd (upd l i x) i y = upd l i y.
Proof.
  revert i; induction l as [|h t IH]; intros [|i]; simpl; auto.
  now rewrite IH.
Qed.

Lemma upd_nth_id l i d : upd l i (nth i l d) = l.
Proof.
  revert i; induction l as [|h t IH]; intros [|i]; simpl; auto.
  now rewrite IH.
Qed.

Lemma for_loop_0 (body : nat -> A -> A) (a : A) : for_loop 0 body a = a.
Proof. reflexivity. Qed.

Lemma for_loop_S n (body : nat -> A -> A) (a : A) :
  for_loop (S n) body a = body n (for_loop n body a).
Proof.
  unfold for_loop. rewrite seq_S, fold_left_app. reflexivity.
Qed.

End ArrayFacts.

(** ** The monad *)

Section MonadFacts.
Context {S : Type}.

Lemma bind_ok {A B : Type} (m : M S A) (k : A -> M S B) s a s' :
  m s = Ok (a, s') -> bind m k s = k a s'.
Proof. unfold bind; now intros ->. Qed.

Lemma bind_inv_ok {A B : Type} (m : M S A) (k : A -> M S B) s b s2 :
  bind m k s = Ok (b, s2) ->
  exists a s1, m s = Ok (a, s1) /\ k a s1 = Ok (b, s2).
Proof.
  unfold bind. destruct (m s) as [[a s1]| |]; try discriminate.
  intros H; now exists a, s1.
Qed.

Lemma for_each_app (l1 l2 : list nat) (body : nat -> M S unit) s :
  for_each (l1 ++ l2) body s =
  bind (for_each l1 body) (fun _ => for_each l2 body) s.
Proof.
  revert s; induction l1 as [|i l1 IH]; intros s; simpl.
  - reflexivity.
  - unfold bind in *. destruct (body i s) as [[[] s1]| |]; auto.
Qed.

Lemma local_ok {A : Type} (env : list A) a x (s : S) :
  nth_error env a = Some x -> local env a s = Ok (x, s).
Proof. unfold local; now intros ->. Qed.

Lemma local_inv_ok {A : Type} (env : list A) a x (s s' : S) :
  local env a s = Ok (x, s') -> nth_error env a = Some x /\ s' = s.
Proof.
  unfold local. destruct (nth_error env a); cbn; intros H; inversion H; auto.
Qed.

End MonadFacts.

(** ** Forward mode: what each call returns *)

Section ForwardFacts.
Context {G : GradReal} {C : GradConfig}.
Import Forward.

Lemma fill_length n g : length (fill n g) = GRAD_FORWARD_TAPE_SIZE.
Proof. unfold fill. now rewrite length_map, length_seq. Qed.

Lemma nth_map_seq {A : Type} (f : nat -> A) (d : A) n j :
  nth j (map f (seq 0 n)) d = if j <? n then f j else d.
Proof.
  destruct (Nat.ltb_spec j n) as [Hlt|Hge].
  - rewrite (nth_indep _ d (f 0)) by now rewrite length_map, length_seq.
    rewrite (map_nth f (seq 0 n) 0 j), seq_nth by assumption. reflexivity.
  - apply nth_overflow. now rewrite length_map, length_seq.
Qed.

Lemma nth_fill n g j :
  nth j (fill n g) r_zero =
  if (j <? n) && (j <? GRAD_FORWARD_TAPE_SIZE) then g j else r_zero.
Proof.
  unfold fill. rewrite nth_map_seq.
  destruct (j <? GRAD_FORWARD_TAPE_SIZE), (j <? n); reflexivity.
Qed.

Lemma fill_0 g : fill 0 g = repeat r_zero GRAD_FORWARD_TAPE_SIZE.
Proof.
  apply nth_ext with (d := r_zero) (d' := r_zero).
  - now rewrite fill_length, repeat_length.
  - intros j _. rewrite nth_fill. simpl. now rewrite nth_repeat.
Qed.

Lemma fill_S n g : upd (fill n g) n (g n) = fill (S n) g.
Proof.
  apply nth_ext with (d := r_zero) (d' := r_zero).
  - now rewrite upd_length, !fill_length.
  - intros j _. rewrite nth_upd, !nth_fill, fill_length.
    destruct (Nat.eqb_spec n j) as [->|Hne]; simpl.
    + rewrite Nat.ltb_irrefl. simpl.
      replace (j <? S j) with true by (symmetry; apply Nat.ltb_lt; lia).
      now destruct (j <? GRAD_FORWARD_TAPE_SIZE).
    + destruct (Nat.ltb_spec j n), (Nat.ltb_spec j (S n)); try lia; reflexivity.
Qed.

Lemma for_loop_fill n body g v :
  (forall i r, value r = v -> body i r = set_derivative_at r i (g i)) ->
  for_loop n body (set_value zero_init v) =
  {| id := 0; value := v; derivative := fill n g |}.
Proof.
  intros Hbody. induction n as [|n IH].
  - rewrite for_loop_0, fill_0. reflexivity.
  - rewrite for_loop_S, IH, Hbody by reflexivity.
    unfold set_derivative_at, set_derivative; simpl. now rewrite fill_S.
Qed.

Ltac run_loop g0 :=
  unfold bind, get, ret; cbn beta iota;
  rewrite (for_loop_fill _ _ g0) by (intros ? ? E; rewrite ?E; reflexivity);
  reflexivity.

Lemma grad_forward_add_run x y s :
  grad_forward_add x y s =
  Ok ({| id := 0; value := r_add (value x) (value y);
         derivative := fill (grad_forward_current_id s)
           (fun i => r_add (derivative_at x i) (derivative_at y i)) |}, s).
Proof.
  unfold grad_forward_add.
  run_loop (fun i => r_add (derivative_at x i) (derivative_at y i)).
Qed.

Lemma grad_forward_mul_run x y s :
  grad_forward_mul x y s =
  Ok ({| id := 0; value := r_mul (value x) (value y);
         derivative := fill (grad_forward_current_id s)
           (fun i => r_add (r_mul (derivative_at x i) (value y))
                           (r_mul (value x) (derivative_at y i))) |}, s).
Proof.
  unfold grad_forward_mul.
  run_loop (fun i => r_add (r_mul (derivative_at x i) (value y))
                           (r_mul (value x) (derivative_at y i))).
Qed.

Lemma grad_forward_mul_c_run x c s :
  grad_forward_mul_c x c s =
  Ok ({| id := 0; value := r_mul (value x) c;
         derivative := fill (grad_forward_current_id s)
           (fun i => r_mul c (derivative_at x i)) |}, s).
Proof.
  unfold grad_forward_mul_c.
  run_loop (fun i => r_mul c (derivative_at x i)).
Qed.

Lemma grad_forward_inv_run x s :
  grad_forward_inv x s =
  Ok ({| id := 0; value := r_div r_one (value x);
         derivative := fill (grad_forward_current_id s)
           (fun i => r_mul (r_neg (derivative_at x i))
                       (r_div r_one (r_mul (value x) (value x)))) |}, s).
Proof.
  unfold grad_forward_inv.
  run_loop (fun i => r_mul (r_neg (derivative_at x i))
                       (r_div r_one (r_mul (value x) (value x)))).
Qed.

Lemma grad_forward_exp_run x s :
  grad_forward_exp x s =
  Ok ({| id := 0; value := GRAD_EXP (value x);
         derivative := fill (grad_forward_current_id s)
           (fun i => r_mul (GRAD_EXP (value x)) (derivative_at x i)) |}, s).
Proof.
  unfold grad_forward_exp.
  run_loop (fun i => r_mul (GRAD_EXP (value x)) (derivative_at x i)).
Qed.

Lemma grad_forward_log_run x s :
  grad_forward_log x s =
  Ok ({| id := 0; value := GRAD_LOG (value x);
         derivative := fill (grad_forward_current_id s)
           (fun i => r_mul (r_div r_one (value x)) (derivative_at x i)) |}, s).
Proof.
  unfold grad_forward_log.
  run_loop (fun i => r_mul (r_div r_one (value x)) (derivative_at x i)).
Qed.

Lemma grad_forward_sin_run x s :
  grad_forward_sin x s =
  Ok ({| id := 0; value := GRAD_SIN (value x);
         derivative := fill (grad_forward_current_id s)
           (fun i => r_mul (GRAD_COS (value x)) (derivative_at x i)) |}, s).
Proof.
  unfold grad_forward_sin.
  run_loop (fun i => r_mul (GRAD_COS (value x)) (derivative_at x i)).
Qed.

Lemma grad_forward_cos_run x s :
  grad_forward_cos x s =
  Ok ({| id := 0; value := GRAD_COS (value x);
         derivative := fill (grad_forward_current_id s)
           (fun i => r_mul (r_neg (GRAD_SIN (value x))) (derivative_at x i)) |}, s).
Proof.
  unfold grad_forward_cos.
  run_loop (fun i => r_mul (r_neg (GRAD_SIN (value x))) (derivative_at x i)).
Qed.

Lemma grad_forward_sqrt_run x s :
  grad_forward_sqrt x s =
  Ok ({| id := 0; value := GRAD_SQRT (value x);
         derivative := fill (grad_forward_current_id s)
           (fun i => r_mul (r_div r_half (GRAD_SQRT (value x)))
                       (derivative_at x i)) |}, s).
Proof.
  unfold grad_forward_sqrt.
  run_loop (fun i => r_mul (r_div r_half (GRAD_SQRT (value x)))
                       (derivative_at x i)).
Qed.

Lemma grad_forward_pow_run x e s :
  grad_forward_pow x e s =
  Ok ({| id := 0; value := GRAD_POW (value x) e;
         derivative := fill (grad_forward_current_id s)
           (fun i => r_mul (r_mul e (GRAD_POW (value x) (r_sub e r_one)))
                       (derivative_at x i)) |}, s).
Proof.
  unfold grad_forward_pow.
  run_loop (fun i => r_mul (r_mul e (GRAD_POW (value x) (r_sub e r_one)))
                       (derivative_at x i)).
Qed.

Lemma memcpy_full (dst src : list grad_real_t) :
  length src = GRAD_FORWARD_TAPE_SIZE ->
  length dst = GRAD_FORWARD_TAPE_SIZE ->
  memcpy GRAD_FORWARD_TAPE_SIZE dst src = src.
Proof.
  intros Hs Hd. unfold memcpy.
  rewrite Hs, Nat.min_id, <- Hs, firstn_all, Hs, <- Hd, skipn_all.
  apply app_nil_r.
Qed.

Lemma grad_forward_add_c_run x c s :
  var_ok x ->
  grad_forward_add_c x c s =
  Ok ({| id := 0; value := r_add (value x) c; derivative := derivative x |}, s).
Proof.
  intros Hx. unfold grad_forward_add_c, ret, set_derivative; simpl.
  rewrite memcpy_full; auto. apply repeat_length.
Qed.

Lemma memset_zero_zero :
  memset_zero GRAD_FORWARD_TAPE_SIZE (repeat r_zero GRAD_FORWARD_TAPE_SIZE) =
  repeat r_zero GRAD_FORWARD_TAPE_SIZE.
Proof.
  unfold memset_zero. rewrite repeat_length, Nat.min_id.
  rewrite skipn_all2 by (rewrite repeat_length; lia). apply app_nil_r.
Qed.

Lemma grad_forward_init_run v s :
  grad_forward_init v s =
  if grad_forward_current_id s <? GRAD_FORWARD_TAPE_SIZE then
    Ok ({| id := grad_forward_current_id s; value := v;
           derivative := upd (repeat r_zero GRAD_FORWARD_TAPE_SIZE)
                             (grad_forward_current_id s) r_one |},
        {| grad_forward_current_id := grad_forward_current_id s + 1 |})
  else AssertFail.
Proof.
  unfold grad_forward_init, bind, get, assert_c, put, ret.
  destruct (grad_forward_current_id s <? GRAD_FORWARD_TAPE_SIZE); auto.
  unfold set_derivative_at, set_derivative, set_id, set_value; simpl.
  now rewrite memset_zero_zero.
Qed.

Lemma grad_forward_neg_run x s :
  grad_forward_neg x s =
  Ok ({| id := 0; value := r_mul (value x) (r_neg r_one);
         derivative := fill (grad_forward_current_id s)
           (fun i => r_mul (r_neg r_one) (derivative_at x i)) |}, s).
Proof. apply grad_forward_mul_c_run. Qed.

Lemma fwd_unop_frame o x s : exists r, fwd_unop o x s = Ok (r, s).
Proof.
  destruct o; simpl;
    [ rewrite grad_forward_neg_run | rewrite grad_forward_inv_run
    | rewrite grad_forward_sin_run | rewrite grad_forward_cos_run
    | rewrite grad_forward_exp_run | rewrite grad_forward_log_run ];
    eauto.
Qed.

Lemma grad_forward_sub_frame x y s : exists r, grad_forward_sub x y s = Ok (r, s).
Proof.
  unfold grad_forward_sub.
  rewrite (bind_ok _ _ _ (grad_forward_neg_run y s)), grad_forward_add_run.
  eauto.
Qed.

Lemma grad_forward_div_frame x y s : exists r, grad_forward_div x y s = Ok (r, s).
Proof.
  unfold grad_forward_div.
  rewrite (bind_ok _ _ _ (grad_forward_inv_run y s)), grad_forward_mul_run.
  eauto.
Qed.

Lemma fwd_binop_frame o x y s : exists r, fwd_binop o x y s = Ok (r, s).
Proof.
  destruct o; simpl.
  - rewrite grad_forward_add_run; eauto.
  - rewrite grad_forward_mul_run; eauto.
  - apply grad_forward_sub_frame.
  - apply grad_forward_div_frame.
Qed.

Lemma grad_forward_tan_frame x s : exists r, grad_forward_tan x s = Ok (r, s).
Proof.
  unfold grad_forward_tan.
  rewrite (bind_ok _ _ _ (grad_forward_sin_run x s)).
  rewrite (bind_ok _ _ _ (grad_forward_cos_run x s)).
  apply grad_forward_div_frame.
Qed.

Lemma fwd_only_op_frame o x s : exists r, fwd_only_op o x s = Ok (r, s).
Proof.
  destruct o; simpl.
  - unfold grad_forward_add_c, ret; eauto.
  - rewrite grad_forward_mul_c_run; eauto.
  - apply grad_forward_tan_frame.
  - rewrite grad_forward_sqrt_run; eauto.
  - rewrite grad_forward_pow_run; eauto.
Qed.

(** A call other than [grad_forward_init], on declared locals. *)
Lemma fwd_exec_frame c env s :
  is_init c = false -> fwd_call_scoped (length env) c = true ->
  exists r, fwd_exec c env s = Ok (r, s).
Proof.
  intros Hni Hsc.
  destruct c as [[v|o a|o a b]|o a]; simpl in *; try discriminate.
  - apply Nat.ltb_lt in Hsc.
    destruct (nth_error env a) as [x|] eqn:E;
      [|apply nth_error_None in E; lia].
    rewrite (bind_ok _ _ _ (local_ok _ _ s E)). apply fwd_unop_frame.
  - apply andb_true_iff in Hsc as [Ha Hb].
    apply Nat.ltb_lt in Ha, Hb.
    destruct (nth_error env a) as [x|] eqn:Ea;
      [|apply nth_error_None in Ea; lia].
    destruct (nth_error env b) as [y|] eqn:Eb;
      [|apply nth_error_None in Eb; lia].
    rewrite (bind_ok _ _ _ (local_ok _ _ s Ea)).
    rewrite (bind_ok _ _ _ (local_ok _ _ s Eb)). apply fwd_binop_frame.
  - apply Nat.ltb_lt in Hsc.
    destruct (nth_error env a) as [x|] eqn:E;
      [|apply nth_error_None in E; lia].
    rewrite (bind_ok _ _ _ (local_ok _ _ s E)). apply fwd_only_op_frame.
Qed.

Lemma fwd_run_capacity p : forall env s,
  fwd_scoped (length env) p = true ->
  grad_forward_current_id s <= GRAD_FORWARD_TAPE_SIZE ->
  (grad_forward_current_id s + count_inits p <= GRAD_FORWARD_TAPE_SIZE ->
   exists env',
     fwd_run p env s =
       Ok (env', {| grad_forward_current_id :=
                      grad_forward_current_id s + count_inits p |}) /\
     length env' = length env + length p /\
     firstn (length env) env' = env) /\
  (GRAD_FORWARD_TAPE_SIZE < grad_forward_current_id s + count_inits p ->
   fwd_run p env s = AssertFail).
Proof.
  induction p as [|c p IH]; intros env s Hsc Hcur.
  - unfold count_inits; simpl. split; [intros _|lia].
    exists env. rewrite !Nat.add_0_r, firstn_all. destruct s; auto.
  - simpl in Hsc. apply andb_true_iff in Hsc as [Hc Hp].
    unfold count_inits in *. simpl filter.
    destruct (is_init c) eqn:Hi.
    + destruct c as [[v|o a|o a b]|o a]; try discriminate.
      simpl length. simpl fwd_run. unfold bind. simpl fwd_exec.
      rewrite grad_forward_init_run.
      destruct (Nat.ltb_spec (grad_forward_current_id s) GRAD_FORWARD_TAPE_SIZE)
        as [Hlt|Hge].
      * specialize (IH (env ++ [ {| id := grad_forward_current_id s; value := v;
           derivative := upd (repeat r_zero GRAD_FORWARD_TAPE_SIZE)
                             (grad_forward_current_id s) r_one |} ])
          {| grad_forward_current_id := grad_forward_current_id s + 1 |}).
        rewrite length_app in IH. simpl in IH.
        replace (length env + 1) with (Datatypes.S (length env)) in IH by lia.
        destruct (IH Hp) as [IHok IHfail]; [simpl; lia|]. split.
        -- intros Hle. destruct IHok as (env' & Hrun & Hlen & Hpre); [lia|].
           exists env'. rewrite Hrun. split; [f_equal; f_equal; f_equal; lia|].
           split; [lia|].
           apply (f_equal (firstn (length env))) in Hpre.
           rewrite firstn_firstn, Nat.min_l, firstn_app, Nat.sub_diag in Hpre by lia.
           rewrite firstn_all in Hpre. simpl in Hpre.
           now rewrite app_nil_r in Hpre.
        -- intros Hgt. apply IHfail. lia.
      * split; [lia|auto].
    + destruct (fwd_exec_frame c env s Hi Hc) as [r Hr].
      simpl fwd_run. rewrite (bind_ok _ _ _ Hr).
      specialize (IH (env ++ [r]) s). rewrite length_app in IH. simpl in IH.
      replace (length env + 1) with (Datatypes.S (length env)) in IH by lia.
      destruct (IH Hp Hcur) as [IHok IHfail]. split.
      * intros Hle. destruct (IHok Hle) as (env' & Hrun & Hlen & Hpre).
        exists env'. split; [assumption|]. split; [simpl; lia|].
        apply (f_equal (firstn (length env))) in Hpre.
        rewrite firstn_firstn, Nat.min_l, firstn_app, Nat.sub_diag in Hpre by lia.
        rewrite firstn_all in Hpre. simpl in Hpre.
        now rewrite app_nil_r in Hpre.
      * assumption.
Qed.

End ForwardFacts.

(** ** Forward mode: initialisation and frame *)

Section ForwardTheorems.
Context {G : GradReal} {C : GradConfig}.
Import Forward.

(** C4. [grad_forward_init(value)] stops on the capacity assertion once the
    slot counter has reached [GRAD_FORWARD_TAPE_SIZE]; below it, it returns
    a Variable whose [id] is the counter, whose [value] is the argument and
    whose derivative vector is zero except for a one at [id], and it leaves
    the counter one higher. *)
Theorem grad_forward_init_spec (v : grad_real_t) (s : state) :
  (GRAD_FORWARD_TAPE_SIZE <= grad_forward_current_id s ->
   grad_forward_init v s = AssertFail) /\
  (grad_forward_current_id s < GRAD_FORWARD_TAPE_SIZE ->
   exists x,
     grad_forward_init v s =
       Ok (x, {| grad_forward_current_id := S (grad_forward_current_id s) |}) /\
     id x = grad_forward_current_id s /\
     value x = v /\
     length (derivative x) = GRAD_FORWARD_TAPE_SIZE /\
     forall i, i < GRAD_FORWARD_TAPE_SIZE ->
       derivative_at x i =
         if i =? grad_forward_current_id s then r_one else r_zero).
Proof.
  rewrite grad_forward_init_run. split; intros H.
  - destruct (Nat.ltb_spec (grad_forward_current_id s) GRAD_FORWARD_TAPE_SIZE);
      [lia|reflexivity].
  - destruct (Nat.ltb_spec (grad_forward_current_id s) GRAD_FORWARD_TAPE_SIZE);
      [|lia].
    eexists. split; [rewrite Nat.add_1_r; reflexivity|]. simpl.
    repeat split.
    + now rewrite upd_length, repeat_length.
    + intros i Hi. unfold derivative_at; simpl.
      rewrite nth_upd, repeat_length, nth_repeat.
      rewrite (Nat.eqb_sym i).
      destruct (grad_forward_current_id s =? i); simpl; auto.
      now apply Nat.ltb_lt in Hi as ->.
Qed.

(** C9. Each of the fifteen elementary operations returns, in every state
    and on every operand, with the slot counter as it found it: none of
    them can fail the capacity assertion.  Operands are read through
    [const] pointers and the result is a fresh struct, so the locals
    declared before a call are the locals after it.  Hence a sequence of
    calls on declared locals runs to its end exactly when it holds at most
    [GRAD_FORWARD_TAPE_SIZE] calls of [grad_forward_init], however many
    operations it holds. *)
Theorem forward_operations_frame :
  (forall o x s, exists r, fwd_unop o x s = Ok (r, s)) /\
  (forall o x y s, exists r, fwd_binop o x y s = Ok (r, s)) /\
  (forall o x s, exists r, fwd_only_op o x s = Ok (r, s)) /\
  (forall c env s,
     is_init c = false -> fwd_call_scoped (length env) c = true ->
     exists r, fwd_run [c] env s = Ok (env ++ [r], s)) /\
  (forall p s0,
     fwd_scoped 0 p = true ->
     (count_inits p <= GRAD_FORWARD_TAPE_SIZE ->
      exists env,
        fwd_scope p s0 = Ok (env, {| grad_forward_current_id := count_inits p |}) /\
        length env = length p) /\
     (GRAD_FORWARD_TAPE_SIZE < count_inits p -> fwd_scope p s0 = AssertFail)).
Proof.
  split; [exact fwd_unop_frame|].
  split; [exact fwd_binop_frame|].
  split; [exact fwd_only_op_frame|].
  split.
  - intros c env s Hi Hsc. destruct (fwd_exec_frame c env s Hi Hsc) as [r Hr].
    exists r. simpl. now rewrite (bind_ok _ _ _ Hr).
  - intros p s0 Hsc.
    destruct (fwd_run_capacity p [] {| grad_forward_current_id := 0 |} Hsc)
      as [Hok Hfail]; [simpl; lia|].
    unfold fwd_scope, grad_forward_start_scope, bind, put. simpl in *. split.
    + intros Hle. destruct (Hok Hle) as (env & Hrun & Hlen & _). eauto.
    + assumption.
Qed.

End ForwardTheorems.

(** ** Reverse mode: what each call leaves on the tape *)

Section ReverseFacts.
Context {G : GradReal} {C : GradConfig}.
Import Reverse.

Implicit Types (t : list grad_reverse_t) (s : state) (i j l r : nat).

Lemma load_run s i :
  i < length (grad_reverse_tape s) ->
  load (Some i) s = Ok (node_at (grad_reverse_tape s) i, s).
Proof.
  intros H. unfold load, node_at.
  now rewrite (nth_error_nth_default _ zero_node H).
Qed.

Lemma store_run s i n :
  i < length (grad_reverse_tape s) ->
  store (Some i) n s =
  Ok (tt, {| grad_reverse_tape := upd (grad_reverse_tape s) i n;
             grad_reverse_current_id := grad_reverse_current_id s |}).
Proof.
  intros H. unfold store. now apply Nat.ltb_lt in H as ->.
Qed.

Lemma write_derivative_run s i x :
  i < length (grad_reverse_tape s) ->
  write_derivative (Some i) x s =
  Ok (tt, {| grad_reverse_tape := set_derivative_in (grad_reverse_tape s) i x;
             grad_reverse_current_id := grad_reverse_current_id s |}).
Proof.
  intros H. unfold write_derivative.
  rewrite (bind_ok _ _ _ (load_run s H)). now apply store_run.
Qed.

Lemma add_derivative_run s i x :
  i < length (grad_reverse_tape s) ->
  add_derivative (Some i) x s =
  Ok (tt, {| grad_reverse_tape := add_derivative_in (grad_reverse_tape s) i x;
             grad_reverse_current_id := grad_reverse_current_id s |}).
Proof.
  intros H. unfold add_derivative.
  rewrite (bind_ok _ _ _ (load_run s H)). now apply write_derivative_run.
Qed.

(** Writing an adjoint keeps everything else of every node. *)
Lemma set_derivative_in_length t i x :
  length (set_derivative_in t i x) = length t.
Proof. apply upd_length. Qed.

Lemma node_at_set_derivative_in t i j x :
  node_at (set_derivative_in t i x) j =
  if (i =? j) && (j <? length t) then with_derivative (node_at t j) x
  else node_at t j.
Proof.
  unfold set_derivative_in, node_at. rewrite nth_upd.
  destruct (Nat.eqb_spec i j) as [->|]; reflexivity.
Qed.

Lemma value_set_derivative_in t i j x :
  value (node_at (set_derivative_in t i x) j) = value (node_at t j).
Proof.
  rewrite node_at_set_derivative_in.
  destruct ((i =? j) && (j <? length t)); reflexivity.
Qed.

Lemma operation_set_derivative_in t i j x :
  operation (node_at (set_derivative_in t i x) j) = operation (node_at t j).
Proof.
  rewrite node_at_set_derivative_in.
  destruct ((i =? j) && (j <? length t)); reflexivity.
Qed.

Lemma left_set_derivative_in t i j x :
  left (node_at (set_derivative_in t i x) j) = left (node_at t j).
Proof.
  rewrite node_at_set_derivative_in.
  destruct ((i =? j) && (j <? length t)); reflexivity.
Qed.

Lemma right_set_derivative_in t i j x :
  right (node_at (set_derivative_in t i x) j) = right (node_at t j).
Proof.
  rewrite node_at_set_derivative_in.
  destruct ((i =? j) && (j <? length t)); reflexivity.
Qed.

Lemma derivative_set_derivative_in t i j x :
  derivative (node_at (set_derivative_in t i x) j) =
  if (i =? j) && (j <? length t) then x else derivative (node_at t j).
Proof.
  rewrite node_at_set_derivative_in.
  destruct ((i =? j) && (j <? length t)); reflexivity.
Qed.

Lemma same_shape_refl t : same_shape t t.
Proof. split; auto. Qed.

Lemma same_shape_trans t1 t2 t3 :
  same_shape t1 t2 -> same_shape t2 t3 -> same_shape t1 t3.
Proof.
  intros [H1 H1'] [H2 H2']. split; [congruence|].
  intros j. destruct (H1' j) as (?&?&?&?), (H2' j) as (?&?&?&?).
  repeat split; congruence.
Qed.

Lemma same_shape_set_derivative_in t i x : same_shape t (set_derivative_in t i x).
Proof.
  split; [now rewrite set_derivative_in_length|].
  intros j. now rewrite value_set_derivative_in, operation_set_derivative_in,
    left_set_derivative_in, right_set_derivative_in.
Qed.

Lemma same_shape_add_all cs t : same_shape t (add_all cs t).
Proof.
  revert t; induction cs as [|c cs IH]; intros t; simpl.
  - apply same_shape_refl.
  - eapply same_shape_trans; [|apply IH].
    apply same_shape_set_derivative_in.
Qed.

Lemma same_shape_propagate_in i t : same_shape t (propagate_in i t).
Proof. apply same_shape_add_all. Qed.

Lemma same_shape_operands t t' j :
  same_shape t t' -> operands (node_at t j) = operands (node_at t' j).
Proof.
  intros [_ H]. destruct (H j) as (_ & Ho & Hl & Hr).
  unfold operands. now rewrite Ho, Hl, Hr.
Qed.

Lemma same_shape_operands_below t t' j :
  same_shape t t' -> operands_below t j -> operands_below t' j.
Proof.
  intros Hs Hb q. rewrite <- (same_shape_operands j Hs). apply Hb.
Qed.

Lemma operands_below_left t i :
  operands_below t i -> operation (node_at t i) <> GRAD_OP_NONE ->
  exists l, left (node_at t i) = Some l /\ l < i.
Proof.
  intros Hb Hop. apply Hb. unfold operands.
  destruct (operation (node_at t i)); simpl; auto; congruence.
Qed.

Lemma operands_below_right t i :
  operands_below t i ->
  operation (node_at t i) = GRAD_OP_ADD \/ operation (node_at t i) = GRAD_OP_MUL ->
  exists r, right (node_at t i) = Some r /\ r < i.
Proof.
  intros Hb Hop. apply Hb. unfold operands.
  destruct Hop as [-> | ->]; simpl; auto.
Qed.

Lemma node_at_add_other t l x i :
  l <> i -> node_at (add_derivative_in t l x) i = node_at t i.
Proof.
  intros Hne. unfold add_derivative_in. rewrite node_at_set_derivative_in.
  now destruct (Nat.eqb_spec l i).
Qed.

Lemma add_derivative_in_length t i x :
  length (add_derivative_in t i x) = length t.
Proof. apply upd_length. Qed.

Ltac tape_len :=
  cbn [grad_reverse_tape grad_reverse_current_id];
  rewrite ?add_derivative_in_length, ?set_derivative_in_length; lia.

Ltac load_step :=
  erewrite bind_ok by (apply load_run; tape_len);
  cbn [grad_reverse_tape grad_reverse_current_id].

Ltac unary_case Hl Hlen :=
  load_step; rewrite Hl; load_step;
  rewrite add_derivative_run by tape_len; reflexivity.

Lemma propagate_run s i :
  i < length (grad_reverse_tape s) ->
  operands_below (grad_reverse_tape s) i ->
  propagate (Some i) s =
  Ok (tt, {| grad_reverse_tape := propagate_in i (grad_reverse_tape s);
             grad_reverse_current_id := grad_reverse_current_id s |}).
Proof.
  destruct s as [t n]; simpl. intros Hlen Hb.
  unfold propagate, propagate_in, contributions. cbv zeta.
  load_step. cbn [grad_reverse_tape grad_reverse_current_id].
  destruct (operation (node_at t i)) eqn:Hop; simpl add_all.
  - reflexivity.
  - destruct (operands_below_left Hb) as (l & Hl & Hli); [congruence|].
    destruct (operands_below_right Hb) as (r & Hr & Hri); [auto|].
    rewrite Hl, Hr; simpl index_of.
    erewrite bind_ok; cycle 1.
    { load_step. rewrite Hl. apply add_derivative_run. tape_len. }
    load_step.
    rewrite node_at_add_other by lia. rewrite Hr.
    rewrite add_derivative_run by tape_len.
    reflexivity.
  - destruct (operands_below_left Hb) as (l & Hl & Hli); [congruence|].
    destruct (operands_below_right Hb) as (r & Hr & Hri); [auto|].
    rewrite Hl, Hr; simpl index_of.
    erewrite bind_ok; cycle 1.
    { load_step. rewrite Hr. load_step. rewrite Hl.
      apply add_derivative_run. tape_len. }
    load_step.
    rewrite node_at_add_other by lia. rewrite Hl.
    load_step. rewrite Hr.
    rewrite add_derivative_run by tape_len.
    cbn [grad_reverse_tape grad_reverse_current_id].
    unfold add_derivative_in at 3.
    now rewrite value_set_derivative_in.
  - destruct (operands_below_left Hb) as (l & Hl & Hli); [congruence|].
    rewrite Hl; simpl index_of. load_step. rewrite Hl.
    rewrite add_derivative_run by tape_len. reflexivity.
  - destruct (operands_below_left Hb) as (l & Hl & Hli); [congruence|].
    rewrite Hl; simpl index_of. unary_case Hl Hlen.
  - destruct (operands_below_left Hb) as (l & Hl & Hli); [congruence|].
    rewrite Hl; simpl index_of. unary_case Hl Hlen.
  - destruct (operands_below_left Hb) as (l & Hl & Hli); [congruence|].
    rewrite Hl; simpl index_of. unary_case Hl Hlen.
  - destruct (operands_below_left Hb) as (l & Hl & Hli); [congruence|].
    rewrite Hl; simpl index_of. unary_case Hl Hlen.
  - destruct (operands_below_left Hb) as (l & Hl & Hli); [congruence|].
    rewrite Hl; simpl index_of. unary_case Hl Hlen.
Qed.

Lemma rev_seq_S k : rev (seq 0 (S k)) = k :: rev (seq 0 k).
Proof. rewrite seq_S, rev_app_distr. reflexivity. Qed.

Lemma propagate_from_S k t :
  propagate_from (S k) t = propagate_from k (propagate_in k t).
Proof. unfold propagate_from. now rewrite rev_seq_S. Qed.

Lemma zero_all_length n t : length (zero_all n t) = length t.
Proof.
  unfold zero_all. induction n as [|n IH]; [reflexivity|].
  now rewrite for_loop_S, set_derivative_in_length.
Qed.

Lemma same_shape_zero_all n t : same_shape t (zero_all n t).
Proof.
  unfold zero_all. induction n as [|n IH]; [apply same_shape_refl|].
  rewrite for_loop_S. eapply same_shape_trans; [apply IH|].
  apply same_shape_set_derivative_in.
Qed.

Lemma derivative_zero_all n t j :
  derivative (node_at (zero_all n t) j) =
  if (j <? n) && (j <? length t) then r_zero else derivative (node_at t j).
Proof.
  unfold zero_all. induction n as [|n IH]; [reflexivity|].
  rewrite for_loop_S, derivative_set_derivative_in, IH.
  fold (zero_all n t). rewrite zero_all_length.
  destruct (Nat.eqb_spec n j) as [->|Hne]; simpl.
  - rewrite Nat.ltb_irrefl.
    replace (j <? S j) with true by (symmetry; apply Nat.ltb_lt; lia).
    simpl. now destruct (j <? length t).
  - destruct (Nat.ltb_spec j n), (Nat.ltb_spec j (S n)); try lia; reflexivity.
Qed.

Lemma for_up_zero_run n : forall t c,
  n <= length t ->
  for_up n (fun i => write_derivative (Some i) r_zero)
    {| grad_reverse_tape := t; grad_reverse_current_id := c |} =
  Ok (tt, {| grad_reverse_tape := zero_all n t; grad_reverse_current_id := c |}).
Proof.
  unfold for_up, zero_all. induction n as [|n IH]; intros t c Hn.
  - reflexivity.
  - rewrite seq_S, for_each_app. erewrite bind_ok by (apply IH; lia).
    simpl for_each.
    erewrite bind_ok; cycle 1.
    { apply write_derivative_run. cbn [grad_reverse_tape].
      fold (zero_all n t). rewrite zero_all_length. lia. }
    now rewrite for_loop_S.
Qed.

Lemma propagate_from_length k : forall t, length (propagate_from k t) = length t.
Proof.
  induction k as [|k IH]; intros t; [reflexivity|].
  rewrite propagate_from_S, IH.
  symmetry. apply (same_shape_propagate_in k t).
Qed.

Lemma same_shape_propagate_from k : forall t, same_shape t (propagate_from k t).
Proof.
  induction k as [|k IH]; intros t; [apply same_shape_refl|].
  rewrite propagate_from_S. eapply same_shape_trans; [|apply IH].
  apply same_shape_propagate_in.
Qed.

Lemma for_down_propagate_run k : forall t c,
  k <= length t ->
  (forall i, i < k -> operands_below t i) ->
  for_down k (fun i => propagate (Some i))
    {| grad_reverse_tape := t; grad_reverse_current_id := c |} =
  Ok (tt, {| grad_reverse_tape := propagate_from k t;
             grad_reverse_current_id := c |}).
Proof.
  unfold for_down. induction k as [|k IH]; intros t c Hk Hb.
  - reflexivity.
  - rewrite rev_seq_S. simpl for_each.
    erewrite bind_ok; cycle 1.
    { apply propagate_run; [simpl; lia|apply Hb; lia]. }
    cbn [grad_reverse_tape grad_reverse_current_id].
    rewrite IH, propagate_from_S; auto.
    + rewrite <- (proj1 (same_shape_propagate_in k t)). lia.
    + intros i Hi. eapply same_shape_operands_below;
        [apply same_shape_propagate_in|]. apply Hb; lia.
Qed.

Lemma zero_seed_length out n t : length (zero_seed out n t) = length t.
Proof.
  unfold zero_seed. fold (zero_all n t).
  now rewrite set_derivative_in_length, zero_all_length.
Qed.

Lemma same_shape_zero_seed out n t : same_shape t (zero_seed out n t).
Proof.
  unfold zero_seed. fold (zero_all n t).
  eapply same_shape_trans; [apply same_shape_zero_all|].
  apply same_shape_set_derivative_in.
Qed.

Lemma same_shape_backward_in out n t : same_shape t (backward_in out n t).
Proof.
  unfold backward_in.
  eapply same_shape_trans; [apply same_shape_zero_seed|].
  apply same_shape_propagate_from.
Qed.

(** [grad_reverse_backward] returns on a tape whose live nodes refer
    backwards, for an output within the tape. *)
Lemma grad_reverse_backward_run s out :
  tape_ok s -> out < GRAD_REVERSE_TAPE_SIZE ->
  grad_reverse_backward (Some out) s =
  Ok (tt, {| grad_reverse_tape :=
               backward_in out (grad_reverse_current_id s) (grad_reverse_tape s);
             grad_reverse_current_id := grad_reverse_current_id s |}).
Proof.
  destruct s as [t n]. intros (Hlen & Hn & Hb) Hout. simpl in *.
  unfold grad_reverse_backward, bind at 1, get.
  cbn [grad_reverse_current_id].
  erewrite bind_ok by (apply for_up_zero_run; lia).
  erewrite bind_ok; cycle 1.
  { apply write_derivative_run. simpl. rewrite zero_all_length. lia. }
  unfold bind, get. cbn [grad_reverse_tape grad_reverse_current_id].
  rewrite for_down_propagate_run.
  - reflexivity.
  - rewrite set_derivative_in_length, zero_all_length. lia.
  - intros i Hi. eapply same_shape_operands_below; [|apply Hb, Hi].
    apply (same_shape_zero_seed out n t).
Qed.

Lemma load_store_run (F : grad_reverse_t -> grad_reverse_t) t c i :
  i < length t ->
  (n <- load (Some i) ;; store (Some i) (F n))
    {| grad_reverse_tape := t; grad_reverse_current_id := c |} =
  Ok (tt, {| grad_reverse_tape := upd t i (F (node_at t i));
             grad_reverse_current_id := c |}).
Proof.
  intros H. erewrite bind_ok by (apply load_run; exact H).
  now rewrite store_run.
Qed.

Lemma load_store_upd (F : grad_reverse_t -> grad_reverse_t) t c i x :
  i < length t ->
  (n <- load (Some i) ;; store (Some i) (F n))
    {| grad_reverse_tape := upd t i x; grad_reverse_current_id := c |} =
  Ok (tt, {| grad_reverse_tape := upd t i (F x);
             grad_reverse_current_id := c |}).
Proof.
  intros H. rewrite load_store_run by now rewrite upd_length.
  unfold node_at. now rewrite nth_upd_same, upd_upd_same.
Qed.

Lemma grad_reverse_init_run v t n :
  length t = GRAD_REVERSE_TAPE_SIZE ->
  grad_reverse_init v {| grad_reverse_tape := t; grad_reverse_current_id := n |} =
  if n <? GRAD_REVERSE_TAPE_SIZE then
    Ok (Some n, {| grad_reverse_tape := upd t n (leaf_node t n v);
                   grad_reverse_current_id := n + 1 |})
  else AssertFail.
Proof.
  intros Hlen. unfold grad_reverse_init, bind at 1, get.
  cbn [grad_reverse_tape grad_reverse_current_id].
  unfold bind at 1, assert_c.
  destruct (Nat.ltb_spec n GRAD_REVERSE_TAPE_SIZE) as [Hlt|Hge]; [|reflexivity].
  unfold bind at 1, put.
  unfold write_value, write_operation, write_derivative.
  erewrite bind_ok by (apply load_store_run; lia).
  erewrite bind_ok by (apply load_store_upd; lia).
  erewrite bind_ok by (apply load_store_upd; lia).
  reflexivity.
Qed.

Lemma reverse_unary_run (f : grad_real_t -> grad_real_t) o t n l :
  length t = GRAD_REVERSE_TAPE_SIZE -> l < GRAD_REVERSE_TAPE_SIZE ->
  (g <- load (Some l) ;;
   result <- grad_reverse_init (f (value g)) ;;
   write_operation result o ;;
   write_left result (Some l) ;;
   ret result)
    {| grad_reverse_tape := t; grad_reverse_current_id := n |} =
  if n <? GRAD_REVERSE_TAPE_SIZE then
    Ok (Some n,
        {| grad_reverse_tape :=
             upd t n (unary_node t n (f (value (node_at t l))) o l);
           grad_reverse_current_id := n + 1 |})
  else AssertFail.
Proof.
  intros Hlen Hl.
  erewrite bind_ok by (apply load_run; simpl; lia).
  cbn [grad_reverse_tape].
  unfold bind at 1. rewrite grad_reverse_init_run by exact Hlen.
  destruct (Nat.ltb_spec n GRAD_REVERSE_TAPE_SIZE) as [Hlt|Hge]; [|reflexivity].
  unfold write_operation, write_left.
  erewrite bind_ok by (apply load_store_upd; lia).
  erewrite bind_ok by (apply load_store_upd; lia).
  reflexivity.
Qed.

Lemma reverse_binary_run (f : grad_real_t -> grad_real_t -> grad_real_t)
  o t n l r :
  length t = GRAD_REVERSE_TAPE_SIZE ->
  l < GRAD_REVERSE_TAPE_SIZE -> r < GRAD_REVERSE_TAPE_SIZE ->
  (x <- load (Some l) ;;
   y <- load (Some r) ;;
   result <- grad_reverse_init (f (value x) (value y)) ;;
   write_operation result o ;;
   write_left result (Some l) ;;
   write_right result (Some r) ;;
   ret result)
    {| grad_reverse_tape := t; grad_reverse_current_id := n |} =
  if n <? GRAD_REVERSE_TAPE_SIZE then
    Ok (Some n,
        {| grad_reverse_tape :=
             upd t n (binary_node
                        (f (value (node_at t l)) (value (node_at t r))) o l r);
           grad_reverse_current_id := n + 1 |})
  else AssertFail.
Proof.
  intros Hlen Hl Hr.
  erewrite bind_ok by (apply load_run; simpl; lia).
  erewrite bind_ok by (apply load_run; simpl; lia).
  cbn [grad_reverse_tape].
  unfold bind at 1. rewrite grad_reverse_init_run by exact Hlen.
  destruct (Nat.ltb_spec n GRAD_REVERSE_TAPE_SIZE) as [Hlt|Hge]; [|reflexivity].
  unfold write_operation, write_left, write_right.
  erewrite bind_ok by (apply load_store_upd; lia).
  erewrite bind_ok by (apply load_store_upd; lia).
  erewrite bind_ok by (apply load_store_upd; lia).
  reflexivity.
Qed.

Lemma env_ok_nth env n a :
  env_ok env n -> a < length env ->
  exists l, nth_error env a = Some (Some l) /\ nth a env None = Some l /\ l < n.
Proof.
  intros He Ha.
  destruct (nth_error env a) as [q|] eqn:E; [|apply nth_error_None in E; lia].
  destruct (He q (nth_error_In _ _ E)) as (l & -> & Hl).
  exists l. repeat split; auto. now apply nth_error_nth.
Qed.

Lemma rev_unop_run o t n l :
  length t = GRAD_REVERSE_TAPE_SIZE -> l < GRAD_REVERSE_TAPE_SIZE ->
  rev_unop o (Some l)
    {| grad_reverse_tape := t; grad_reverse_current_id := n |} =
  if n <? GRAD_REVERSE_TAPE_SIZE then
    Ok (Some n,
        {| grad_reverse_tape :=
             upd t n (unary_node t n (unop_value o (value (node_at t l)))
                        (unop_tag o) l);
           grad_reverse_current_id := n + 1 |})
  else AssertFail.
Proof.
  intros Hlen Hl.
  destruct o; exact (reverse_unary_run _ _ t n Hlen Hl).
Qed.

Lemma grad_reverse_add_run t n l r :
  length t = GRAD_REVERSE_TAPE_SIZE ->
  l < GRAD_REVERSE_TAPE_SIZE -> r < GRAD_REVERSE_TAPE_SIZE ->
  grad_reverse_add (Some l) (Some r)
    {| grad_reverse_tape := t; grad_reverse_current_id := n |} =
  if n <? GRAD_REVERSE_TAPE_SIZE then
    Ok (Some n,
        {| grad_reverse_tape :=
             upd t n (binary_node
                        (r_add (value (node_at t l)) (value (node_at t r)))
                        GRAD_OP_ADD l r);
           grad_reverse_current_id := n + 1 |})
  else AssertFail.
Proof. intros. now apply (reverse_binary_run r_add). Qed.

Lemma grad_reverse_mul_run t n l r :
  length t = GRAD_REVERSE_TAPE_SIZE ->
  l < GRAD_REVERSE_TAPE_SIZE -> r < GRAD_REVERSE_TAPE_SIZE ->
  grad_reverse_mul (Some l) (Some r)
    {| grad_reverse_tape := t; grad_reverse_current_id := n |} =
  if n <? GRAD_REVERSE_TAPE_SIZE then
    Ok (Some n,
        {| grad_reverse_tape :=
             upd t n (binary_node
                        (r_mul (value (node_at t l)) (value (node_at t r)))
                        GRAD_OP_MUL l r);
           grad_reverse_current_id := n + 1 |})
  else AssertFail.
Proof. intros. now apply (reverse_binary_run r_mul). Qed.

Lemma grad_reverse_sub_run t n l r :
  length t = GRAD_REVERSE_TAPE_SIZE ->
  l < GRAD_REVERSE_TAPE_SIZE -> r < GRAD_REVERSE_TAPE_SIZE ->
  n <= GRAD_REVERSE_TAPE_SIZE ->
  grad_reverse_sub (Some l) (Some r)
    {| grad_reverse_tape := t; grad_reverse_current_id := n |} =
  if n + 2 <=? GRAD_REVERSE_TAPE_SIZE then
    Ok (Some (n + 1),
        {| grad_reverse_tape := call_in (Bin OSub 0 1) [Some l; Some r] t n;
           grad_reverse_current_id := n + 2 |})
  else AssertFail.
Proof.
  intros Hlen Hl Hr Hn. unfold grad_reverse_sub, bind at 1.
  change (grad_reverse_neg (Some r)) with (rev_unop ONeg (Some r)).
  rewrite (rev_unop_run ONeg) by assumption.
  destruct (Nat.ltb_spec n GRAD_REVERSE_TAPE_SIZE) as [Hlt|Hge].
  - rewrite grad_reverse_add_run by (rewrite ?upd_length; lia).
    destruct (Nat.ltb_spec (n + 1) GRAD_REVERSE_TAPE_SIZE),
             (Nat.leb_spec (n + 2) GRAD_REVERSE_TAPE_SIZE); try lia; auto.
    replace (n + 1 + 1) with (n + 2) by lia. reflexivity.
  - destruct (Nat.leb_spec (n + 2) GRAD_REVERSE_TAPE_SIZE); [lia|reflexivity].
Qed.

Lemma grad_reverse_div_run t n l r :
  length t = GRAD_REVERSE_TAPE_SIZE ->
  l < GRAD_REVERSE_TAPE_SIZE -> r < GRAD_REVERSE_TAPE_SIZE ->
  n <= GRAD_REVERSE_TAPE_SIZE ->
  grad_reverse_div (Some l) (Some r)
    {| grad_reverse_tape := t; grad_reverse_current_id := n |} =
  if n + 2 <=? GRAD_REVERSE_TAPE_SIZE then
    Ok (Some (n + 1),
        {| grad_reverse_tape := call_in (Bin ODiv 0 1) [Some l; Some r] t n;
           grad_reverse_current_id := n + 2 |})
  else AssertFail.
Proof.
  intros Hlen Hl Hr Hn. unfold grad_reverse_div, bind at 1.
  change (grad_reverse_inv (Some r)) with (rev_unop OInv (Some r)).
  rewrite (rev_unop_run OInv) by assumption.
  destruct (Nat.ltb_spec n GRAD_REVERSE_TAPE_SIZE) as [Hlt|Hge].
  - rewrite grad_reverse_mul_run by (rewrite ?upd_length; lia).
    destruct (Nat.ltb_spec (n + 1) GRAD_REVERSE_TAPE_SIZE),
             (Nat.leb_spec (n + 2) GRAD_REVERSE_TAPE_SIZE); try lia; auto.
    replace (n + 1 + 1) with (n + 2) by lia. reflexivity.
  - destruct (Nat.leb_spec (n + 2) GRAD_REVERSE_TAPE_SIZE); [lia|reflexivity].
Qed.

(** A creating call on declared locals: it returns the address of the last
    node it appended, or stops on the capacity assertion. *)
Lemma rev_exec_run c env t n :
  length t = GRAD_REVERSE_TAPE_SIZE -> n <= GRAD_REVERSE_TAPE_SIZE ->
  env_ok env n -> call_scoped (length env) c = true ->
  rev_exec c env {| grad_reverse_tape := t; grad_reverse_current_id := n |} =
  if n + nodes_of_call c <=? GRAD_REVERSE_TAPE_SIZE then
    Ok (Some (n + nodes_of_call c - 1),
        {| grad_reverse_tape := call_in c env t n;
           grad_reverse_current_id := n + nodes_of_call c |})
  else AssertFail.
Proof.
  intros Hlen Hn He Hsc. destruct c as [v|o a|o a b]; simpl in Hsc.
  - simpl. rewrite grad_reverse_init_run by assumption.
    destruct (Nat.ltb_spec n GRAD_REVERSE_TAPE_SIZE),
             (Nat.leb_spec (n + 1) GRAD_REVERSE_TAPE_SIZE); try lia; auto.
    now rewrite Nat.add_sub.
  - apply Nat.ltb_lt in Hsc.
    destruct (env_ok_nth He Hsc) as (l & El & El' & Hl).
    simpl rev_exec. rewrite (bind_ok _ _ _ (local_ok _ _ _ El)).
    rewrite rev_unop_run by (auto; lia).
    simpl nodes_of_call. simpl call_in. rewrite El'. simpl index_of.
    destruct (Nat.ltb_spec n GRAD_REVERSE_TAPE_SIZE),
             (Nat.leb_spec (n + 1) GRAD_REVERSE_TAPE_SIZE); try lia; auto.
    now rewrite Nat.add_sub.
  - apply andb_true_iff in Hsc as [Ha Hb].
    apply Nat.ltb_lt in Ha, Hb.
    destruct (env_ok_nth He Ha) as (l & El & El' & Hl).
    destruct (env_ok_nth He Hb) as (r & Er & Er' & Hr).
    simpl rev_exec. rewrite (bind_ok _ _ _ (local_ok _ _ _ El)).
    rewrite (bind_ok _ _ _ (local_ok _ _ _ Er)).
    destruct o; simpl rev_binop; simpl nodes_of_call.
    + rewrite grad_reverse_add_run by (auto; lia).
      simpl call_in. rewrite El', Er'. simpl index_of.
      destruct (Nat.ltb_spec n GRAD_REVERSE_TAPE_SIZE),
               (Nat.leb_spec (n + 1) GRAD_REVERSE_TAPE_SIZE); try lia; auto.
      now rewrite Nat.add_sub.
    + rewrite grad_reverse_mul_run by (auto; lia).
      simpl call_in. rewrite El', Er'. simpl index_of.
      destruct (Nat.ltb_spec n GRAD_REVERSE_TAPE_SIZE),
               (Nat.leb_spec (n + 1) GRAD_REVERSE_TAPE_SIZE); try lia; auto.
      now rewrite Nat.add_sub.
    + rewrite grad_reverse_sub_run by (auto; lia).
      simpl call_in. rewrite El', Er'. simpl index_of.
      replace (n + 2 - 1) with (n + 1) by lia. reflexivity.
    + rewrite grad_reverse_div_run by (auto; lia).
      simpl call_in. rewrite El', Er'. simpl index_of.
      replace (n + 2 - 1) with (n + 1) by lia. reflexivity.
Qed.

End ReverseFacts.

(** ** Reverse mode: what a run keeps true *)

Section ReverseInvariant.
Context {G : GradReal} {C : GradConfig}.
Import Reverse.

Implicit Types (t : list grad_reverse_t) (s : state) (i j l n : nat).

Lemma call_in_length c env t n : length (call_in c env t n) = length t.
Proof.
  destruct c as [v|o a|[] a b]; simpl; now rewrite ?upd_length.
Qed.

(** A call writes the cells from the counter on and no other. *)
Lemma call_in_below c env t n j :
  j < n -> node_at (call_in c env t n) j = node_at t j.
Proof.
  intros Hj. unfold node_at.
  destruct c as [v|o a|[] a b]; simpl;
    rewrite ?nth_upd_other by lia; reflexivity.
Qed.

Lemma call_in_above c env t n j :
  n + nodes_of_call c <= j -> node_at (call_in c env t n) j = node_at t j.
Proof.
  intros Hj. unfold node_at.
  destruct c as [v|o a|[] a b]; simpl in *;
    rewrite ?nth_upd_other by lia; reflexivity.
Qed.

Lemma env_ok_nth' env n a :
  env_ok env n -> a < length env ->
  exists l, nth a env None = Some l /\ l < n.
Proof.
  intros He Ha. destruct (env_ok_nth He Ha) as (l & _ & H1 & H2). eauto.
Qed.

Lemma call_in_operands_below c env t n j :
  length t = GRAD_REVERSE_TAPE_SIZE ->
  n + nodes_of_call c <= GRAD_REVERSE_TAPE_SIZE ->
  env_ok env n -> call_scoped (length env) c = true ->
  n <= j < n + nodes_of_call c ->
  operands_below (call_in c env t n) j.
Proof.
  intros Hlen Hn He Hsc Hj. unfold operands_below, node_at.
  destruct c as [v|o a|o a b]; simpl in Hsc, Hn, Hj.
  - replace j with n by lia. simpl. rewrite nth_upd_same by lia.
    intros q [].
  - apply Nat.ltb_lt in Hsc.
    destruct (env_ok_nth' He Hsc) as (l & El & Hl).
    replace j with n by lia. simpl. rewrite El. simpl index_of.
    rewrite nth_upd_same by lia.
    destruct o; simpl; intros q [<-|[]]; eauto.
  - apply andb_true_iff in Hsc as [Ha Hb].
    apply Nat.ltb_lt in Ha, Hb.
    destruct (env_ok_nth' He Ha) as (l & El & Hl).
    destruct (env_ok_nth' He Hb) as (r & Er & Hr).
    simpl. rewrite El, Er. simpl index_of.
    destruct o; simpl in Hj, Hn.
    + replace j with n by lia. rewrite nth_upd_same by lia.
      simpl; intros q [<-|[<-|[]]]; eauto.
    + replace j with n by lia. rewrite nth_upd_same by lia.
      simpl; intros q [<-|[<-|[]]]; eauto.
    + destruct (Nat.eq_dec j n) as [->|Hne].
      * rewrite nth_upd_other, nth_upd_same by lia.
        simpl; intros q [<-|[]]; eauto.
      * replace j with (n + 1) by lia.
        rewrite nth_upd_same by (rewrite upd_length; lia).
        simpl; intros q [<-|[<-|[]]]; eauto.
        -- exists l; split; auto; lia.
        -- exists n; split; auto; lia.
    + destruct (Nat.eq_dec j n) as [->|Hne].
      * rewrite nth_upd_other, nth_upd_same by lia.
        simpl; intros q [<-|[]]; eauto.
      * replace j with (n + 1) by lia.
        rewrite nth_upd_same by (rewrite upd_length; lia).
        simpl; intros q [<-|[<-|[]]]; eauto.
        -- exists l; split; auto; lia.
        -- exists n; split; auto; lia.
Qed.

Lemma operands_below_ext t t' j :
  node_at t' j = node_at t j -> operands_below t j -> operands_below t' j.
Proof. unfold operands_below. now intros ->. Qed.

Lemma env_ok_mono env n m : env_ok env n -> n <= m -> env_ok env m.
Proof.
  intros He Hnm q Hq. destruct (He q Hq) as (i & -> & Hi).
  exists i; split; auto; lia.
Qed.

Lemma env_ok_snoc env n i : env_ok env n -> i < n -> env_ok (env ++ [Some i]) n.
Proof.
  intros He Hi q Hq. apply in_app_or in Hq as [Hq|[<-|[]]]; eauto.
Qed.

Lemma rev_exec_ok_scoped c env s r s' :
  rev_exec c env s = Ok (r, s') -> call_scoped (length env) c = true.
Proof.
  destruct c as [v|o a|o a b]; simpl; auto; intros H.
  - apply bind_inv_ok in H as (x & s1 & H & _).
    apply local_inv_ok in H as [H _].
    apply Nat.ltb_lt, nth_error_Some. congruence.
  - apply bind_inv_ok in H as (x & s1 & Hx & H).
    apply bind_inv_ok in H as (y & s2 & Hy & _).
    apply local_inv_ok in Hx as [Hx _]. apply local_inv_ok in Hy as [Hy _].
    apply andb_true_iff; split; apply Nat.ltb_lt, nth_error_Some; congruence.
Qed.

Lemma tape_ok_call_in c env t n :
  tape_ok {| grad_reverse_tape := t; grad_reverse_current_id := n |} ->
  env_ok env n -> call_scoped (length env) c = true ->
  n + nodes_of_call c <= GRAD_REVERSE_TAPE_SIZE ->
  tape_ok {| grad_reverse_tape := call_in c env t n;
             grad_reverse_current_id := n + nodes_of_call c |}.
Proof.
  intros (Hlen & Hn & Hb) He Hsc Hcap. simpl in *.
  repeat split; simpl.
  - now rewrite call_in_length.
  - assumption.
  - intros i Hi. destruct (Nat.lt_ge_cases i n) as [Hlt|Hge].
    + eapply operands_below_ext; [apply call_in_below, Hlt|]. now apply Hb.
    + apply call_in_operands_below; auto.
Qed.

Lemma rev_exec_inv c env s r s' :
  rev_inv s env -> rev_exec c env s = Ok (r, s') ->
  rev_inv s' (env ++ [r]) /\
  r = Some (grad_reverse_current_id s + nodes_of_call c - 1) /\
  grad_reverse_current_id s' = grad_reverse_current_id s + nodes_of_call c /\
  grad_reverse_tape s' =
    call_in c env (grad_reverse_tape s) (grad_reverse_current_id s) /\
  grad_reverse_current_id s' <= GRAD_REVERSE_TAPE_SIZE.
Proof.
  destruct s as [t n]. intros [Hok He] Hrun. simpl in *.
  pose proof (rev_exec_ok_scoped _ _ _ Hrun) as Hsc.
  rewrite rev_exec_run in Hrun; auto; try apply Hok.
  destruct (Nat.leb_spec (n + nodes_of_call c) GRAD_REVERSE_TAPE_SIZE)
    as [Hcap|]; [|discriminate].
  inversion Hrun; subst; clear Hrun. simpl.
  assert (Hpos : 1 <= nodes_of_call c) by (destruct c as [?|? ?|[] ? ?]; simpl; lia).
  split; [split|auto].
  - now apply tape_ok_call_in.
  - simpl. apply env_ok_snoc; [|lia]. eapply env_ok_mono; eauto. lia.
Qed.

Lemma backward_inv s env out s' :
  rev_inv s env -> out < grad_reverse_current_id s ->
  grad_reverse_backward (Some out) s = Ok (tt, s') ->
  rev_inv s' env /\
  grad_reverse_current_id s' = grad_reverse_current_id s /\
  grad_reverse_tape s' =
    backward_in out (grad_reverse_current_id s) (grad_reverse_tape s).
Proof.
  intros [Hok He] Hout Hrun.
  rewrite grad_reverse_backward_run in Hrun; auto;
    [|destruct Hok as (_ & ? & _); lia].
  inversion Hrun; subst; clear Hrun. simpl.
  destruct Hok as (Hlen & Hn & Hb).
  repeat split; simpl; auto.
  - now rewrite <- (proj1 (same_shape_backward_in out _ _)).
  - intros i Hi. eapply same_shape_operands_below;
      [apply same_shape_backward_in|]. now apply Hb.
Qed.

Lemma rev_run_inv p : forall env s env' s',
  rev_inv s env -> rev_run p env s = Ok (env', s') -> rev_inv s' env'.
Proof.
  induction p as [|[c|a] p IH]; intros env s env' s' Hinv Hrun; simpl in Hrun.
  - inversion Hrun; subst; auto.
  - apply bind_inv_ok in Hrun as (r & s1 & Hc & Hrun).
    eapply IH; [|exact Hrun]. eapply rev_exec_inv; eauto.
  - apply bind_inv_ok in Hrun as (q & s1 & Hq & Hrun).
    apply local_inv_ok in Hq as [Hq ->].
    apply bind_inv_ok in Hrun as ([] & s2 & Hb & Hrun).
    destruct (proj2 Hinv q (nth_error_In _ _ Hq)) as (out & -> & Hout).
    eapply IH; [|exact Hrun]. eapply backward_inv; eauto.
Qed.

Lemma rev_inv_start s :
  length (grad_reverse_tape s) = GRAD_REVERSE_TAPE_SIZE ->
  rev_inv {| grad_reverse_tape := grad_reverse_tape s;
             grad_reverse_current_id := 0 |} [].
Proof.
  intros Hlen. repeat split; simpl; auto; try lia.
  intros q [].
Qed.

Lemma rev_scope_inv p s env' s' :
  length (grad_reverse_tape s) = GRAD_REVERSE_TAPE_SIZE ->
  rev_scope p s = Ok (env', s') -> rev_inv s' env'.
Proof.
  intros Hlen Hrun. unfold rev_scope, grad_reverse_start_scope in Hrun.
  unfold bind at 1 2, get, put in Hrun.
  eapply rev_run_inv; [|exact Hrun]. now apply rev_inv_start.
Qed.

End ReverseInvariant.

(** ** Capacity, tape order and the two-node calls *)

Section ReverseCapacity.
Context {G : GradReal} {C : GradConfig}.
Import Reverse.

Lemma nodes_of_call_pos c : 1 <= nodes_of_call c.
Proof. destruct c as [?|? ?|[] ? ?]; simpl; lia. Qed.

Lemma rev_run_capacity p : forall env s,
  rev_inv s env -> rev_scoped (length env) p = true ->
  (grad_reverse_current_id s + count_nodes p <= GRAD_REVERSE_TAPE_SIZE ->
   exists env' s',
     rev_run p env s = Ok (env', s') /\
     grad_reverse_current_id s' = grad_reverse_current_id s + count_nodes p) /\
  (GRAD_REVERSE_TAPE_SIZE < grad_reverse_current_id s + count_nodes p ->
   rev_run p env s = AssertFail).
Proof.
  induction p as [|[c|a] p IH]; intros env s Hinv Hsc.
  - simpl. destruct Hinv as [(_ & Hn & _) _].
    split; [intros _|lia]. exists env, s. split; auto.
  - simpl in Hsc. apply andb_true_iff in Hsc as [Hc Hp].
    simpl count_nodes. simpl rev_run. unfold bind.
    destruct s as [t n]. destruct Hinv as [Hok He].
    pose proof Hok as (Hlen & Hn & Hb). simpl in *.
    rewrite rev_exec_run by assumption.
    destruct (Nat.leb_spec (n + nodes_of_call c) GRAD_REVERSE_TAPE_SIZE)
      as [Hcap|Hcap].
    + pose proof (nodes_of_call_pos c) as Hpos.
      destruct (IH (env ++ [Some (n + nodes_of_call c - 1)])
                  {| grad_reverse_tape := call_in c env t n;
                     grad_reverse_current_id := n + nodes_of_call c |})
        as [IHok IHfail].
      * split; [now apply tape_ok_call_in|]. simpl.
        apply env_ok_snoc; [|lia]. eapply env_ok_mono; eauto. lia.
      * rewrite length_app. simpl. now rewrite Nat.add_comm.
      * simpl in *. split.
        -- intros Hle. destruct IHok as (env' & s' & Hrun & Hcur); [lia|].
           exists env', s'. split; auto. lia.
        -- intros Hgt. apply IHfail. lia.
    + split; [lia|reflexivity].
  - simpl in Hsc. apply andb_true_iff in Hsc as [Ha Hp].
    apply Nat.ltb_lt in Ha.
    destruct Hinv as [Hok He].
    destruct (env_ok_nth He Ha) as (out & Eo & _ & Hout).
    simpl rev_run. rewrite (bind_ok _ _ _ (local_ok _ _ _ Eo)).
    unfold bind.
    rewrite grad_reverse_backward_run;
      [|assumption|destruct Hok as (_ & ? & _); lia].
    destruct (IH env
      {| grad_reverse_tape :=
           backward_in out (grad_reverse_current_id s) (grad_reverse_tape s);
         grad_reverse_current_id := grad_reverse_current_id s |})
      as [IHok IHfail]; auto.
    + destruct Hok as (Hlen & Hn & Hb). split; [repeat split|]; simpl; auto.
      * now rewrite <- (proj1 (same_shape_backward_in out _ _)).
      * intros i Hi. eapply same_shape_operands_below;
          [apply same_shape_backward_in|]. now apply Hb.
Qed.

(** C6. On a tape built within one scope, every operand reference of a live
    node is the address of a node of strictly smaller index, so the
    descending loop of [grad_reverse_backward] visits a node before each of
    its operands. *)
Theorem tape_topological_invariant (p : list rev_call) (s0 : state)
  (env : list ptr) (s : state) :
  length (grad_reverse_tape s0) = GRAD_REVERSE_TAPE_SIZE ->
  rev_scope p s0 = Ok (env, s) ->
  forall i q,
    i < grad_reverse_current_id s ->
    In q (operands (node_at (grad_reverse_tape s) i)) ->
    exists l,
      q = Some l /\ l < i /\
      exists l1 l2 l3, backward_order s = l1 ++ i :: l2 ++ l :: l3.
Proof.
  intros Hlen Hrun i q Hi Hq.
  destruct (rev_scope_inv _ _ Hlen Hrun) as [(_ & _ & Hb) _].
  destruct (Hb i Hi q Hq) as (l & -> & Hl).
  exists l. repeat split; auto.
  exists (rev (seq (S i) (grad_reverse_current_id s - S i))),
         (rev (seq (S l) (i - S l))), (rev (seq 0 l)).
  unfold backward_order.
  replace (grad_reverse_current_id s)
    with (l + (1 + ((i - S l) + (1 + (grad_reverse_current_id s - S i)))))
    at 1 by lia.
  rewrite !seq_app, !rev_app_distr. simpl.
  replace (l + 1 + (i - S l)) with i by lia.
  replace (l + 1) with (S l) by lia.
  replace (i + 1) with (S i) by lia.
  rewrite <- !app_assoc. simpl. reflexivity.
Qed.

(** C10. [grad_reverse_sub] and [grad_reverse_div] each append two nodes:
    at the counter the [NEG] (resp. [INV]) node of the right operand, and
    after it the [ADD] (resp. [MUL]) node of the left operand and that
    node, whose address is returned.  The counter goes up by two, no other
    cell is written, and the call stops on the capacity assertion unless two
    cells are free. *)
Theorem reverse_sub_div_append_two (s : state) (l r : nat) :
  length (grad_reverse_tape s) = GRAD_REVERSE_TAPE_SIZE ->
  grad_reverse_current_id s <= GRAD_REVERSE_TAPE_SIZE ->
  l < grad_reverse_current_id s -> r < grad_reverse_current_id s ->
  (grad_reverse_current_id s + 2 <= GRAD_REVERSE_TAPE_SIZE ->
   exists s1 s2,
     grad_reverse_sub (Some l) (Some r) s =
       Ok (Some (grad_reverse_current_id s + 1), s1) /\
     grad_reverse_div (Some l) (Some r) s =
       Ok (Some (grad_reverse_current_id s + 1), s2) /\
     grad_reverse_current_id s1 = grad_reverse_current_id s + 2 /\
     grad_reverse_current_id s2 = grad_reverse_current_id s + 2 /\
     node_at (grad_reverse_tape s1) (grad_reverse_current_id s) =
       unary_node (grad_reverse_tape s) (grad_reverse_current_id s)
         (r_neg (value (node_at (grad_reverse_tape s) r))) GRAD_OP_NEG r /\
     node_at (grad_reverse_tape s1) (grad_reverse_current_id s + 1) =
       binary_node
         (r_add (value (node_at (grad_reverse_tape s) l))
                (r_neg (value (node_at (grad_reverse_tape s) r))))
         GRAD_OP_ADD l (grad_reverse_current_id s) /\
     node_at (grad_reverse_tape s2) (grad_reverse_current_id s) =
       unary_node (grad_reverse_tape s) (grad_reverse_current_id s)
         (r_div r_one (value (node_at (grad_reverse_tape s) r))) GRAD_OP_INV r /\
     node_at (grad_reverse_tape s2) (grad_reverse_current_id s + 1) =
       binary_node
         (r_mul (value (node_at (grad_reverse_tape s) l))
                (r_div r_one (value (node_at (grad_reverse_tape s) r))))
         GRAD_OP_MUL l (grad_reverse_current_id s) /\
     forall j,
       j <> grad_reverse_current_id s -> j <> grad_reverse_current_id s + 1 ->
       node_at (grad_reverse_tape s1) j = node_at (grad_reverse_tape s) j /\
       node_at (grad_reverse_tape s2) j = node_at (grad_reverse_tape s) j) /\
  (GRAD_REVERSE_TAPE_SIZE < grad_reverse_current_id s + 2 ->
   grad_reverse_sub (Some l) (Some r) s = AssertFail /\
   grad_reverse_div (Some l) (Some r) s = AssertFail).
Proof.
  destruct s as [t n]; simpl. intros Hlen Hn Hl Hr.
  rewrite grad_reverse_sub_run, grad_reverse_div_run by (auto; lia).
  split; intros Hcap.
  - destruct (Nat.leb_spec (n + 2) GRAD_REVERSE_TAPE_SIZE); [|lia].
    do 2 eexists. split; [reflexivity|]. split; [reflexivity|].
    simpl. unfold node_at.
    rewrite !(nth_upd_other _ (i := n + 1) (j := n)) by lia.
    rewrite !nth_upd_same by (rewrite ?upd_length; lia).
    rewrite !(nth_upd_other _ (i := n) (j := l)) by lia.
    repeat split; auto.
    + now rewrite !nth_upd_other by lia.
    + now rewrite !nth_upd_other by lia.
  - destruct (Nat.leb_spec (n + 2) GRAD_REVERSE_TAPE_SIZE); [lia|auto].
Qed.

End ReverseCapacity.

Section Capacity.
Context {G : GradReal} {C : GradConfig}.

(** C5. In a fresh scope of either engine, a sequence of calls that creates
    exactly the configured number of Variables (resp. nodes) runs to its
    end, and from the state it leaves every further creating call stops on
    the capacity assertion. *)
Theorem capacity_boundary :
  (forall (p : list fwd_call) (s0 : Forward.state),
     fwd_scoped 0 p = true ->
     count_inits p = GRAD_FORWARD_TAPE_SIZE ->
     exists env s,
       fwd_scope p s0 = Ok (env, s) /\
       forall v, Forward.grad_forward_init v s = AssertFail) /\
  (forall (p : list rev_call) (s0 : Reverse.state),
     length (Reverse.grad_reverse_tape s0) = GRAD_REVERSE_TAPE_SIZE ->
     rev_scoped 0 p = true ->
     count_nodes p = GRAD_REVERSE_TAPE_SIZE ->
     exists env s,
       rev_scope p s0 = Ok (env, s) /\
       forall c, call_scoped (length env) c = true ->
                 rev_exec c env s = AssertFail).
Proof.
  split.
  - intros p s0 Hsc Hcount.
    destruct (fwd_run_capacity p [] {| Forward.grad_forward_current_id := 0 |} Hsc)
      as [Hok _]; [simpl; lia|].
    destruct Hok as (env & Hrun & _); [simpl; lia|].
    eexists env, _. unfold fwd_scope, Forward.grad_forward_start_scope.
    unfold bind at 1, put. split; [exact Hrun|].
    intros v. rewrite grad_forward_init_run. simpl. rewrite Hcount.
    now rewrite Nat.ltb_irrefl.
  - intros p s0 Hlen Hsc Hcount.
    pose proof (rev_inv_start s0 Hlen) as Hinv.
    destruct (rev_run_capacity p Hinv Hsc) as [Hok _].
    destruct Hok as (env & s & Hrun & Hcur); [simpl; lia|].
    exists env, s. unfold rev_scope, Reverse.grad_reverse_start_scope.
    unfold bind at 1 2, get, put. split; [exact Hrun|].
    intros c Hc. pose proof (rev_run_inv _ Hinv Hrun) as [Hok He].
    destruct s as [t n]. pose proof Hok as (Hlen' & Hn & _). simpl in *.
    rewrite rev_exec_run by assumption.
    pose proof (nodes_of_call_pos c).
    destruct (Nat.leb_spec (n + nodes_of_call c) GRAD_REVERSE_TAPE_SIZE);
      [lia|reflexivity].
Qed.

End Capacity.

(** ** Reverse mode: runs that read the same *)

Section LiveEq.
Context {G : GradReal} {C : GradConfig}.
Import Reverse.
Implicit Types (t : list grad_reverse_t) (s : state) (i j l n : nat).

Lemma node_view_set_derivative_in t i j x :
  node_view (node_at (set_derivative_in t i x) j) =
  if (i =? j) && (j <? length t)
  then (value (node_at t j), x, operation (node_at t j), operands (node_at t j))
  else node_view (node_at t j).
Proof.
  rewrite node_at_set_derivative_in.
  destruct ((i =? j) && (j <? length t)); reflexivity.
Qed.

Lemma live_eq_refl n t : live_eq n t t.
Proof. intros i _. reflexivity. Qed.

Lemma live_eq_sym n t1 t2 : live_eq n t1 t2 -> live_eq n t2 t1.
Proof. intros H i Hi. symmetry. now apply H. Qed.

Lemma live_eq_trans n t1 t2 t3 :
  live_eq n t1 t2 -> live_eq n t2 t3 -> live_eq n t1 t3.
Proof. intros H1 H2 i Hi. rewrite H1, H2; auto. Qed.

Lemma live_eq_mono n m t1 t2 : live_eq n t1 t2 -> m <= n -> live_eq m t1 t2.
Proof. intros H Hm i Hi. apply H. lia. Qed.

Lemma live_eq_fields n t1 t2 i :
  live_eq n t1 t2 -> i < n ->
  value (node_at t1 i) = value (node_at t2 i) /\
  derivative (node_at t1 i) = derivative (node_at t2 i) /\
  operation (node_at t1 i) = operation (node_at t2 i) /\
  operands (node_at t1 i) = operands (node_at t2 i).
Proof.
  intros H Hi. specialize (H i Hi). unfold node_view in H.
  inversion H. auto.
Qed.

Lemma live_eq_set_derivative_in n t1 t2 i x :
  live_eq n t1 t2 -> n <= length t1 -> n <= length t2 ->
  live_eq n (set_derivative_in t1 i x) (set_derivative_in t2 i x).
Proof.
  intros H H1 H2 j Hj. rewrite !node_view_set_derivative_in.
  destruct (live_eq_fields H Hj) as (Hv & _ & Ho & Hops).
  replace (j <? length t1) with true by (symmetry; apply Nat.ltb_lt; lia).
  replace (j <? length t2) with true by (symmetry; apply Nat.ltb_lt; lia).
  destruct (i =? j); simpl; [congruence|now apply H].
Qed.

Lemma live_eq_add_derivative_in n t1 t2 i x :
  live_eq n t1 t2 -> n <= length t1 -> n <= length t2 -> i < n ->
  live_eq n (add_derivative_in t1 i x) (add_derivative_in t2 i x).
Proof.
  intros H H1 H2 Hi. unfold add_derivative_in.
  destruct (live_eq_fields H Hi) as (_ & -> & _).
  now apply live_eq_set_derivative_in.
Qed.

Lemma live_eq_operands_below n t1 t2 i :
  live_eq n t1 t2 -> i < n -> operands_below t1 i -> operands_below t2 i.
Proof.
  intros H Hi Hb q. destruct (live_eq_fields H Hi) as (_ & _ & _ & <-).
  apply Hb.
Qed.

Lemma live_eq_left n t1 t2 i :
  live_eq n t1 t2 -> i < n -> operation (node_at t1 i) <> GRAD_OP_NONE ->
  left (node_at t2 i) = left (node_at t1 i).
Proof.
  intros H Hi Hop. destruct (live_eq_fields H Hi) as (_ & _ & Ho & Hops).
  unfold operands in Hops. rewrite <- Ho in Hops.
  destruct (operation (node_at t1 i)); try congruence; now inversion Hops.
Qed.

Lemma live_eq_right n t1 t2 i :
  live_eq n t1 t2 -> i < n ->
  operation (node_at t1 i) = GRAD_OP_ADD \/
  operation (node_at t1 i) = GRAD_OP_MUL ->
  right (node_at t2 i) = right (node_at t1 i).
Proof.
  intros H Hi Hop. destruct (live_eq_fields H Hi) as (_ & _ & Ho & Hops).
  unfold operands in Hops. rewrite <- Ho in Hops.
  destruct Hop as [E|E]; rewrite E in Hops; now inversion Hops.
Qed.

Lemma live_eq_value n t1 t2 i :
  live_eq n t1 t2 -> i < n -> value (node_at t2 i) = value (node_at t1 i).
Proof. intros H Hi. symmetry. apply (live_eq_fields H Hi). Qed.

(** A node whose operands are read the same contributes the same. *)
Lemma live_eq_contributions n t1 t2 i a :
  live_eq n t1 t2 -> i < n -> operands_below t1 i ->
  contributions t1 i a = contributions t2 i a.
Proof.
  intros H Hi Hb.
  destruct (live_eq_fields H Hi) as (_ & _ & Ho & _).
  unfold contributions. cbv zeta. rewrite <- Ho.
  destruct (operation (node_at t1 i)) eqn:E; auto.
  1,2: destruct (operands_below_left Hb) as (l & Hl & Hli); [congruence|];
       destruct (operands_below_right Hb) as (r & Hr & Hri); [auto|];
       rewrite (live_eq_left H Hi), (live_eq_right H Hi) by (auto; congruence);
       rewrite Hl, Hr; simpl index_of;
       rewrite ?(live_eq_value H (i := l)), ?(live_eq_value H (i := r)) by lia;
       reflexivity.
  all: destruct (operands_below_left Hb) as (l & Hl & Hli); [congruence|];
       rewrite (live_eq_left H Hi) by congruence;
       rewrite Hl; simpl index_of;
       rewrite ?(live_eq_value H (i := l)) by lia; reflexivity.
Qed.

Lemma contributions_below t i a c :
  operands_below t i -> In c (contributions t i a) -> fst c < i.
Proof.
  intros Hb. unfold contributions. cbv zeta.
  destruct (operation (node_at t i)) eqn:E.
  - intros [].
  - destruct (operands_below_left Hb) as (l & Hl & Hli); [congruence|].
    destruct (operands_below_right Hb) as (r & Hr & Hri); [auto|].
    rewrite Hl, Hr. simpl. intros [<-|[<-|[]]]; simpl; lia.
  - destruct (operands_below_left Hb) as (l & Hl & Hli); [congruence|].
    destruct (operands_below_right Hb) as (r & Hr & Hri); [auto|].
    rewrite Hl, Hr. simpl. intros [<-|[<-|[]]]; simpl; lia.
  - destruct (operands_below_left Hb) as (l & Hl & Hli); [congruence|].
    rewrite Hl. simpl. intros [<-|[]]; simpl; lia.
  - destruct (operands_below_left Hb) as (l & Hl & Hli); [congruence|].
    rewrite Hl. simpl. intros [<-|[]]; simpl; lia.
  - destruct (operands_below_left Hb) as (l & Hl & Hli); [congruence|].
    rewrite Hl. simpl. intros [<-|[]]; simpl; lia.
  - destruct (operands_below_left Hb) as (l & Hl & Hli); [congruence|].
    rewrite Hl. simpl. intros [<-|[]]; simpl; lia.
  - destruct (operands_below_left Hb) as (l & Hl & Hli); [congruence|].
    rewrite Hl. simpl. intros [<-|[]]; simpl; lia.
  - destruct (operands_below_left Hb) as (l & Hl & Hli); [congruence|].
    rewrite Hl. simpl. intros [<-|[]]; simpl; lia.
Qed.

Lemma live_eq_add_all n cs : forall t1 t2,
  live_eq n t1 t2 -> n <= length t1 -> n <= length t2 ->
  (forall c, In c cs -> fst c < n) ->
  live_eq n (add_all cs t1) (add_all cs t2).
Proof.
  induction cs as [|c cs IH]; intros t1 t2 H H1 H2 Hcs; simpl; auto.
  apply IH.
  - apply live_eq_add_derivative_in; auto. apply Hcs; simpl; auto.
  - now rewrite add_derivative_in_length.
  - now rewrite add_derivative_in_length.
  - intros c' Hc'. apply Hcs; simpl; auto.
Qed.

Lemma live_eq_propagate_in n t1 t2 i :
  live_eq n t1 t2 -> n <= length t1 -> n <= length t2 -> i < n ->
  operands_below t1 i ->
  live_eq n (propagate_in i t1) (propagate_in i t2).
Proof.
  intros H H1 H2 Hi Hb. unfold propagate_in.
  rewrite <- (live_eq_contributions _ H Hi Hb).
  destruct (live_eq_fields H Hi) as (_ & <- & _).
  apply live_eq_add_all; auto.
  intros c Hc. pose proof (@contributions_below t1 i _ c Hb Hc). lia.
Qed.

Lemma live_eq_propagate_from n k : forall t1 t2,
  live_eq n t1 t2 -> n <= length t1 -> n <= length t2 -> k <= n ->
  (forall i, i < k -> operands_below t1 i) ->
  live_eq n (propagate_from k t1) (propagate_from k t2).
Proof.
  induction k as [|k IH]; intros t1 t2 H H1 H2 Hk Hb; auto.
  rewrite !propagate_from_S. apply IH.
  - apply live_eq_propagate_in; auto.
  - rewrite <- (proj1 (same_shape_propagate_in k t1)); lia.
  - rewrite <- (proj1 (same_shape_propagate_in k t2)); lia.
  - lia.
  - intros i Hi. eapply same_shape_operands_below;
      [apply same_shape_propagate_in|]. apply Hb; lia.
Qed.

Lemma live_eq_zero_all n k : forall t1 t2,
  live_eq n t1 t2 -> n <= length t1 -> n <= length t2 ->
  live_eq n (zero_all k t1) (zero_all k t2).
Proof.
  unfold zero_all. induction k as [|k IH]; intros t1 t2 H H1 H2; auto.
  rewrite !for_loop_S. apply live_eq_set_derivative_in.
  - now apply IH.
  - fold (zero_all k t1). now rewrite zero_all_length.
  - fold (zero_all k t2). now rewrite zero_all_length.
Qed.

Lemma live_eq_zero_seed n out k t1 t2 :
  live_eq n t1 t2 -> n <= length t1 -> n <= length t2 ->
  live_eq n (zero_seed out k t1) (zero_seed out k t2).
Proof.
  intros H H1 H2. unfold zero_seed. apply live_eq_set_derivative_in.
  - now apply live_eq_zero_all.
  - fold (zero_all k t1). now rewrite zero_all_length.
  - fold (zero_all k t2). now rewrite zero_all_length.
Qed.

Lemma live_eq_backward_in n out t1 t2 :
  live_eq n t1 t2 -> n <= length t1 -> n <= length t2 ->
  (forall i, i < n -> operands_below t1 i) ->
  live_eq n (backward_in out n t1) (backward_in out n t2).
Proof.
  intros H H1 H2 Hb. unfold backward_in. apply live_eq_propagate_from.
  - now apply live_eq_zero_seed.
  - now rewrite zero_seed_length.
  - now rewrite zero_seed_length.
  - lia.
  - intros i Hi. eapply same_shape_operands_below;
      [apply same_shape_zero_seed|]. now apply Hb.
Qed.

Lemma node_view_unary t n v o l :
  node_view (unary_node t n v (unop_tag o) l) = (v, r_zero, unop_tag o, [Some l]).
Proof. destruct o; reflexivity. Qed.

Lemma live_eq_call_in c env n t1 t2 :
  live_eq n t1 t2 ->
  length t1 = GRAD_REVERSE_TAPE_SIZE -> length t2 = GRAD_REVERSE_TAPE_SIZE ->
  n + nodes_of_call c <= GRAD_REVERSE_TAPE_SIZE ->
  env_ok env n -> call_scoped (length env) c = true ->
  live_eq (n + nodes_of_call c) (call_in c env t1 n) (call_in c env t2 n).
Proof.
  intros H H1 H2 Hcap He Hsc i Hi.
  destruct (Nat.lt_ge_cases i n) as [Hlt|Hge].
  { rewrite !call_in_below by assumption. now apply H. }
  unfold node_at.
  destruct c as [v|o a|o a b]; simpl in Hsc, Hcap, Hi.
  - replace i with n by lia. simpl. now rewrite !nth_upd_same by lia.
  - apply Nat.ltb_lt in Hsc.
    destruct (env_ok_nth' He Hsc) as (l & El & Hl).
    replace i with n by lia. simpl. rewrite El. simpl index_of.
    rewrite !nth_upd_same by lia. rewrite !node_view_unary.
    now rewrite (live_eq_value H Hl).
  - apply andb_true_iff in Hsc as [Ha Hb].
    apply Nat.ltb_lt in Ha, Hb.
    destruct (env_ok_nth' He Ha) as (l & El & Hl).
    destruct (env_ok_nth' He Hb) as (r & Er & Hr).
    simpl. rewrite El, Er. simpl index_of.
    fold (node_at t1 l) (node_at t1 r) (node_at t2 l) (node_at t2 r).
    rewrite (live_eq_value H Hl), (live_eq_value H Hr).
    destruct o; simpl in Hi, Hcap.
    + replace i with n by lia. now rewrite !nth_upd_same by lia.
    + replace i with n by lia. now rewrite !nth_upd_same by lia.
    + unfold node_at. rewrite !(nth_upd_other _ (i := n) (j := l)) by lia.
      rewrite !(nth_upd_same _ (i := n)) by lia.
      fold (node_at t1 l) (node_at t2 l). rewrite (live_eq_value H Hl).
      destruct (Nat.eq_dec i n) as [->|Hne].
      * rewrite !(nth_upd_other _ (i := n + 1) (j := n)) by lia.
        rewrite !nth_upd_same by lia. reflexivity.
      * replace i with (n + 1) by lia.
        now rewrite !nth_upd_same by (rewrite upd_length; lia).
    + unfold node_at. rewrite !(nth_upd_other _ (i := n) (j := l)) by lia.
      rewrite !(nth_upd_same _ (i := n)) by lia.
      fold (node_at t1 l) (node_at t2 l). rewrite (live_eq_value H Hl).
      destruct (Nat.eq_dec i n) as [->|Hne].
      * rewrite !(nth_upd_other _ (i := n + 1) (j := n)) by lia.
        rewrite !nth_upd_same by lia. reflexivity.
      * replace i with (n + 1) by lia.
        now rewrite !nth_upd_same by (rewrite upd_length; lia).
Qed.

Lemma rev_exec_unscoped c env s :
  call_scoped (length env) c = false -> rev_exec c env s = Undefined.
Proof.
  destruct c as [v|o a|o a b]; simpl; try discriminate; intros H.
  - apply Nat.ltb_ge, nth_error_None in H.
    unfold bind, local. now rewrite H.
  - unfold bind, local. apply andb_false_iff in H as [H|H];
      apply Nat.ltb_ge, nth_error_None in H.
    + now rewrite H.
    + destruct (nth_error env a); auto. unfold ret. now rewrite H.
Qed.

Lemma rev_run_related p : forall env s1 s2,
  rev_inv s1 env -> rev_inv s2 env ->
  grad_reverse_current_id s1 = grad_reverse_current_id s2 ->
  live_eq (grad_reverse_current_id s1)
    (grad_reverse_tape s1) (grad_reverse_tape s2) ->
  related (rev_run p env s1) (rev_run p env s2).
Proof.
  induction p as [|[c|a] p IH]; intros env [t1 n] [t2 n2] Hi1 Hi2 Hn H;
    simpl in Hn; subst n2; simpl in H.
  - simpl. destruct Hi1 as [(? & ? & _) _], Hi2 as [(? & ? & _) _].
    repeat split; auto.
  - simpl rev_run. unfold bind.
    destruct (call_scoped (length env) c) eqn:Hsc.
    + pose proof Hi1 as [(Hl1 & Hn1 & Hb1) He1].
      pose proof Hi2 as [(Hl2 & _ & Hb2) He2]. simpl in *.
      rewrite !rev_exec_run by assumption.
      destruct (Nat.leb_spec (n + nodes_of_call c) GRAD_REVERSE_TAPE_SIZE)
        as [Hcap|Hcap]; [|exact I].
      pose proof (nodes_of_call_pos c) as Hpos.
      apply IH; simpl; auto.
      * split; [apply tape_ok_call_in; auto; apply Hi1|]. simpl.
        apply env_ok_snoc; [|lia]. eapply env_ok_mono; eauto. lia.
      * split; [apply tape_ok_call_in; auto; apply Hi2|]. simpl.
        apply env_ok_snoc; [|lia]. eapply env_ok_mono; eauto. lia.
      * now apply live_eq_call_in.
    + now rewrite !rev_exec_unscoped by assumption.
  - simpl rev_run. unfold bind at 1 3. unfold local.
    destruct (nth_error env a) as [q|] eqn:E; [|exact I].
    unfold ret. destruct (proj2 Hi1 q (nth_error_In _ _ E)) as (out & -> & Hout).
    simpl in Hout. unfold bind.
    pose proof Hi1 as [(Hl1 & Hn1 & Hb1) He1].
    pose proof Hi2 as [(Hl2 & _ & Hb2) He2]. simpl in *.
    rewrite !grad_reverse_backward_run by (auto; try lia; apply Hi1 || apply Hi2).
    simpl. apply IH; simpl; auto.
    + eapply backward_inv; [exact Hi1|exact Hout|].
      now rewrite grad_reverse_backward_run by (auto; try lia; apply Hi1).
    + eapply backward_inv; [exact Hi2|exact Hout|].
      now rewrite grad_reverse_backward_run by (auto; try lia; apply Hi2).
    + apply live_eq_backward_in; auto; lia.
Qed.

Lemma live_eq_view s1 s2 :
  grad_reverse_current_id s1 = grad_reverse_current_id s2 ->
  live_eq (grad_reverse_current_id s1)
    (grad_reverse_tape s1) (grad_reverse_tape s2) ->
  grad_reverse_current_id s1 <= length (grad_reverse_tape s1) ->
  grad_reverse_current_id s1 <= length (grad_reverse_tape s2) ->
  live_view s1 = live_view s2.
Proof.
  destruct s1 as [t1 n], s2 as [t2 n2]; simpl. intros <- H H1 H2.
  unfold live_view; simpl. f_equal.
  apply nth_ext with (d := node_view zero_node) (d' := node_view zero_node).
  - now rewrite !length_map, !length_firstn, !Nat.min_l.
  - intros i Hi. rewrite length_map, length_firstn, Nat.min_l in Hi by lia.
    rewrite !map_nth, !nth_firstn.
    apply Nat.ltb_lt in Hi as Hi'. rewrite Hi'. now apply H.
Qed.

Lemma related_observe {A : Type} (r1 r2 : outcome (A * state)) :
  related r1 r2 -> observe r1 = observe r2.
Proof.
  destruct r1 as [[a1 s1]| |], r2 as [[a2 s2]| |]; simpl; try tauto.
  intros (-> & Hn & H & H1 & H2 & Hle).
  f_equal. f_equal. apply live_eq_view; auto; lia.
Qed.

End LiveEq.

(** ** Scope reset *)

Section Determinism.
Context {G : GradReal} {C : GradConfig}.
Import Reverse.

Lemma rev_scope_unfold (p : list rev_call) (s : state) :
  rev_scope p s =
  rev_run p [] {| grad_reverse_tape := grad_reverse_tape s;
                  grad_reverse_current_id := 0 |}.
Proof. reflexivity. Qed.

Lemma fwd_scope_unfold (p : list fwd_call) (s : Forward.state) :
  fwd_scope p s = fwd_run p [] {| Forward.grad_forward_current_id := 0 |}.
Proof. reflexivity. Qed.

(** C8. A scope started anew forgets the state it starts from.  Forward
    mode: the calls return the same Variables (values and derivative
    vectors) and leave the same counter from any two states.  Reverse mode:
    from any two tapes the calls return the same addresses and leave live
    segments that read the same (values, adjoints, operations, operands),
    or stop the same way; in particular the calls run a second time, from
    the state their first run left, give what the first run gave. *)
Theorem scope_reset_determinism :
  (forall (p : list fwd_call) (s s' : Forward.state),
     fwd_scope p s = fwd_scope p s') /\
  (forall (p : list rev_call) (s s' : state),
     length (grad_reverse_tape s) = GRAD_REVERSE_TAPE_SIZE ->
     length (grad_reverse_tape s') = GRAD_REVERSE_TAPE_SIZE ->
     observe (rev_scope p s) = observe (rev_scope p s')) /\
  (forall (p : list rev_call) (s0 : state) env s1,
     length (grad_reverse_tape s0) = GRAD_REVERSE_TAPE_SIZE ->
     rev_scope p s0 = Ok (env, s1) ->
     observe (rev_scope p s1) = Ok (env, live_view s1)).
Proof.
  assert (Hrev : forall (p : list rev_call) (s s' : state),
     length (grad_reverse_tape s) = GRAD_REVERSE_TAPE_SIZE ->
     length (grad_reverse_tape s') = GRAD_REVERSE_TAPE_SIZE ->
     observe (rev_scope p s) = observe (rev_scope p s')).
  { intros p s s' Hl Hl'. apply related_observe.
    rewrite !rev_scope_unfold.
    apply rev_run_related; simpl.
    - now apply rev_inv_start.
    - now apply rev_inv_start.
    - reflexivity.
    - intros i Hi; lia. }
  split; [|split].
  - intros p s s'. now rewrite !fwd_scope_unfold.
  - exact Hrev.
  - intros p s0 env s1 Hl Hrun.
    destruct (rev_scope_inv _ _ Hl Hrun) as [(Hl1 & _) _].
    rewrite (Hrev p s1 s0 Hl1 Hl), Hrun. reflexivity.
Qed.

End Determinism.

(** ** Nodes appended after the output *)

Section DeadNodes.
Context {G : GradReal} {C : GradConfig}.
Import Reverse.
Implicit Types (t : list grad_reverse_t) (s : state) (i j l n : nat).

(** Appended calls leave the earlier nodes as they are. *)
Lemma rev_run_calls_below (extra : list call) : forall env s env2 s2,
  rev_inv s env ->
  rev_run (map RCall extra) env s = Ok (env2, s2) ->
  grad_reverse_current_id s <= grad_reverse_current_id s2 /\
  forall j, j < grad_reverse_current_id s ->
            node_at (grad_reverse_tape s2) j = node_at (grad_reverse_tape s) j.
Proof.
  induction extra as [|c extra IH]; intros env s env2 s2 Hinv Hrun; simpl in Hrun.
  - inversion Hrun; subst. auto.
  - apply bind_inv_ok in Hrun as (r & s1 & Hc & Hrun).
    destruct (rev_exec_inv _ Hinv Hc) as (Hinv1 & _ & Hn1 & Ht1 & _).
    destruct (IH _ _ _ _ Hinv1 Hrun) as (Hle & Hsame).
    split; [lia|]. intros j Hj.
    rewrite Hsame by lia. rewrite Ht1. now apply call_in_below.
Qed.

Lemma propagate_from_split n k t :
  propagate_from (n + k) t = propagate_from n (propagate_range n k t).
Proof.
  unfold propagate_from, propagate_range.
  now rewrite seq_app, rev_app_distr, fold_left_app.
Qed.

Lemma with_derivative_same (x : grad_reverse_t) :
  with_derivative x (derivative x) = x.
Proof. now destruct x. Qed.

Lemma set_derivative_in_same t i :
  set_derivative_in t i (derivative (node_at t i)) = t.
Proof.
  unfold set_derivative_in. rewrite with_derivative_same.
  apply upd_nth_id.
Qed.

Lemma same_shape_contributions t t' i a :
  same_shape t t' -> contributions t i a = contributions t' i a.
Proof.
  intros [_ H]. unfold contributions. cbv zeta.
  destruct (H i) as (_ & -> & -> & ->).
  destruct (H (index_of (left (node_at t' i)))) as (-> & _).
  destruct (H (index_of (right (node_at t' i)))) as (-> & _).
  reflexivity.
Qed.

(** The adjoints right after the zeroing loop and the seed. *)
Lemma derivative_zero_seed out n t j :
  out < length t -> j < n -> j < length t ->
  derivative (node_at (zero_seed out n t) j) =
  if out =? j then r_one else r_zero.
Proof.
  intros Hout Hj Hjl. unfold zero_seed. fold (zero_all n t).
  rewrite derivative_set_derivative_in, zero_all_length, derivative_zero_all.
  apply Nat.ltb_lt in Hj, Hjl. rewrite Hj, Hjl.
  now destruct (out =? j).
Qed.

Lemma add_all_neutral cs : forall t,
  (forall c, In c cs ->
     r_add (derivative (node_at t (fst c))) (snd c) =
     derivative (node_at t (fst c))) ->
  add_all cs t = t.
Proof.
  induction cs as [|c cs IH]; intros t H; simpl; auto.
  assert (E : add_derivative_in t (fst c) (snd c) = t).
  { unfold add_derivative_in. rewrite H by (simpl; auto).
    apply set_derivative_in_same. }
  rewrite E. apply IH. intros c' Hc'. apply H. simpl; auto.
Qed.

(** The appended nodes, visited first, change nothing when they are
    neutral. *)
Lemma propagate_range_neutral out n k : forall t,
  out < n -> n + k <= length t ->
  (forall i, i < n + k -> operands_below t i) ->
  (forall i, n <= i < n + k -> neutral_node t i) ->
  propagate_range n k (zero_seed out (n + k) t) = zero_seed out (n + k) t.
Proof.
  intros t Hout Hlen Hb Hneutral.
  set (z := zero_seed out (n + k) t).
  assert (Hz : same_shape t z) by apply same_shape_zero_seed.
  assert (Hgen : forall k', k' <= k -> propagate_range n k' z = z).
  { induction k' as [|k' IH]; intros Hk'; [reflexivity|].
    unfold propagate_range. rewrite seq_S, rev_app_distr. simpl.
    assert (E : propagate_in (n + k') z = z).
    { unfold propagate_in. apply add_all_neutral. intros c Hc.
      assert (Hd : derivative (node_at z (n + k')) = r_zero).
      { unfold z. rewrite derivative_zero_seed by lia.
        destruct (Nat.eqb_spec out (n + k')); [lia|reflexivity]. }
      rewrite Hd in Hc.
      rewrite <- (same_shape_contributions _ _ Hz) in Hc.
      assert (Hlt : fst c < n + k').
      { eapply contributions_below; [|exact Hc]. apply Hb; lia. }
      destruct (Hneutral (n + k') ltac:(lia) c Hc) as [H0 H1].
      unfold z. rewrite derivative_zero_seed by lia.
      now destruct (out =? fst c). }
    rewrite E. apply IH. lia. }
  now apply Hgen.
Qed.

Lemma node_view_zero_seed out n t j :
  out < length t -> j < n -> j < length t ->
  node_view (node_at (zero_seed out n t) j) =
  (value (node_at t j), if out =? j then r_one else r_zero,
   operation (node_at t j), operands (node_at t j)).
Proof.
  intros Hout Hj Hjl. unfold node_view.
  rewrite derivative_zero_seed by assumption.
  pose proof (same_shape_zero_seed out n t) as Hs.
  rewrite <- (same_shape_operands j Hs).
  destruct Hs as [_ Hs]. destruct (Hs j) as (-> & -> & _). reflexivity.
Qed.

(** C7, as the code has it: nodes appended after the tape was built and
    never referenced by it leave every adjoint that
    [grad_reverse_backward] computes on the earlier nodes as it was,
    provided each appended node is neutral: the terms it adds for a zero
    adjoint leave 0.0 and 1.0 unchanged (in exact arithmetic every node is;
    in IEEE arithmetic a node is when those terms are zeros). *)
Theorem dead_nodes_irrelevant (p : list rev_call) (extra : list call)
  (s0 : state) (env : list ptr) (s : state) (env2 : list ptr) (s2 : state)
  (out : nat) :
  length (grad_reverse_tape s0) = GRAD_REVERSE_TAPE_SIZE ->
  rev_scope p s0 = Ok (env, s) ->
  rev_run (map RCall extra) env s = Ok (env2, s2) ->
  out < grad_reverse_current_id s ->
  (forall i, grad_reverse_current_id s <= i < grad_reverse_current_id s2 ->
             neutral_node (grad_reverse_tape s2) i) ->
  exists s' s2',
    grad_reverse_backward (Some out) s = Ok (tt, s') /\
    grad_reverse_backward (Some out) s2 = Ok (tt, s2') /\
    forall j, j < grad_reverse_current_id s -> adjoint s2' j = adjoint s' j.
Proof.
  intros Hlen Hrun Hextra Hout Hneutral.
  pose proof (rev_scope_inv _ _ Hlen Hrun) as Hinv.
  pose proof (rev_run_inv _ Hinv Hextra) as Hinv2.
  destruct (rev_run_calls_below _ Hinv Hextra) as (Hle & Hsame).
  destruct s as [t n], s2 as [t2 n2]. simpl in *.
  destruct Hinv as [(Hl & Hn & Hb) _], Hinv2 as [(Hl2 & Hn2 & Hb2) _].
  simpl in *.
  rewrite !grad_reverse_backward_run by (repeat split; simpl; auto; lia).
  do 2 eexists. split; [reflexivity|]. split; [reflexivity|].
  intros j Hj. unfold adjoint; simpl.
  unfold backward_in.
  replace n2 with (n + (n2 - n)) by lia.
  rewrite propagate_from_split.
  rewrite propagate_range_neutral;
    try (replace (n + (n2 - n)) with n2 by lia); auto; try lia.
  assert (Heq : live_eq n (zero_seed out n2 t2) (zero_seed out n t)).
  { intros i Hi. rewrite !node_view_zero_seed by lia.
    unfold node_at in Hsame |- *. now rewrite (Hsame i Hi). }
  pose proof (@live_eq_propagate_from G n n _ _ Heq) as Hres.
  rewrite !zero_seed_length in Hres.
  assert (Hb2' : forall i, i < n -> operands_below (zero_seed out n2 t2) i).
  { intros i Hi. eapply same_shape_operands_below;
      [apply same_shape_zero_seed|]. apply Hb2. lia. }
  specialize (Hres ltac:(lia) ltac:(lia) ltac:(lia) Hb2').
  apply (live_eq_fields Hres Hj).
Qed.

End DeadNodes.

(** C7 as stated fails: in binary64 the appended [INV] node of a zero-valued
    operand adds [-0.0 / (0.0 * 0.0)], a NaN, to the operand's adjoint, which
    is [2.0] without that node. *)
Lemma dead_node_poisons_adjoint :
  ~ (exists m : libm,
       @final_adjoint (binary64 m) default_config (dead_inv_calls m) 0 =
       @final_adjoint (binary64 m) default_config (live_only_calls m) 0) /\
  (fun m => @final_adjoint (binary64 m) default_config (dead_inv_calls m) 0) =
  (fun _ => Some nan) /\
  (fun m => @final_adjoint (binary64 m) default_config (live_only_calls m) 0) =
  (fun _ => Some 2%float).
Proof.
  split; [|split].
  - intros [m H]. vm_compute in H. discriminate H.
  - vm_compute. reflexivity.
  - vm_compute. reflexivity.
Qed.

(** ** The backward pass computes the chain rule *)

Section BuildFacts.
Context {A : Type}.

Lemma build_length (step : nat -> list A -> A) n : length (build step n) = n.
Proof.
  induction n as [|n IH]; simpl; auto.
  rewrite length_app, IH. simpl. lia.
Qed.

Lemma build_nth (step : nat -> list A -> A) n i d :
  i < n -> nth i (build step n) d = step i (build step i).
Proof.
  induction n as [|n IH]; intros Hi; [lia|]. simpl.
  destruct (Nat.eq_dec i n) as [->|Hne].
  - rewrite app_nth2 by (rewrite build_length; lia).
    now rewrite build_length, Nat.sub_diag.
  - rewrite app_nth1 by (rewrite build_length; lia). apply IH. lia.
Qed.

End BuildFacts.

(** [ring] on an equation between adjoints, whose type is the class's. *)
Ltac rring :=
  first [ ring
        | match goal with
          | |- @eq _ ?a ?b => apply (Rplus_eq_reg_l 0%R a b); ring
          end ].

Section ExactBackward.
Context {C : GradConfig}.
#[local] Existing Instance exact_real.
Import Reverse.
Open Scope R_scope.
Implicit Types (t : list grad_reverse_t) (i j k l n : nat).

Lemma weighted_ext cs (f g : nat -> R) :
  (forall c, In c cs -> f (fst c) = g (fst c)) -> weighted cs f = weighted cs g.
Proof.
  induction cs as [|c cs IH]; intros H; simpl; auto.
  rewrite (H c) by (simpl; auto).
  rewrite IH; auto. intros c' Hc'. apply H. simpl; auto.
Qed.

Lemma weighted_zero cs (f : nat -> R) :
  (forall c, In c cs -> f (fst c) = 0) -> weighted cs f = 0.
Proof.
  induction cs as [|c cs IH]; intros H; simpl; auto.
  rewrite (H c) by (simpl; auto).
  rewrite IH by (intros c' Hc'; apply H; simpl; auto). ring.
Qed.

Lemma partials_below t i c :
  operands_below t i -> In c (partials t i) -> (fst c < i)%nat.
Proof.
  intros Hb. unfold partials. cbv zeta.
  destruct (operation (node_at t i)) eqn:E.
  - intros [].
  - destruct (operands_below_left Hb) as (l & Hl & Hli); [congruence|].
    destruct (operands_below_right Hb) as (r & Hr & Hri); [auto|].
    rewrite Hl, Hr. simpl. intros [<-|[<-|[]]]; simpl; lia.
  - destruct (operands_below_left Hb) as (l & Hl & Hli); [congruence|].
    destruct (operands_below_right Hb) as (r & Hr & Hri); [auto|].
    rewrite Hl, Hr. simpl. intros [<-|[<-|[]]]; simpl; lia.
  - destruct (operands_below_left Hb) as (l & Hl & Hli); [congruence|].
    rewrite Hl. simpl. intros [<-|[]]; simpl; lia.
  - destruct (operands_below_left Hb) as (l & Hl & Hli); [congruence|].
    rewrite Hl. simpl. intros [<-|[]]; simpl; lia.
  - destruct (operands_below_left Hb) as (l & Hl & Hli); [congruence|].
    rewrite Hl. simpl. intros [<-|[]]; simpl; lia.
  - destruct (operands_below_left Hb) as (l & Hl & Hli); [congruence|].
    rewrite Hl. simpl. intros [<-|[]]; simpl; lia.
  - destruct (operands_below_left Hb) as (l & Hl & Hli); [congruence|].
    rewrite Hl. simpl. intros [<-|[]]; simpl; lia.
  - destruct (operands_below_left Hb) as (l & Hl & Hli); [congruence|].
    rewrite Hl. simpl. intros [<-|[]]; simpl; lia.
Qed.

Lemma tangent_below t j i : (i < j)%nat -> tangent t j i = 0.
Proof.
  intros H. unfold tangent, tangent_step.
  now apply Nat.ltb_lt in H as ->.
Qed.

Lemma tangent_self t j : tangent t j j = 1.
Proof.
  unfold tangent, tangent_step. now rewrite Nat.ltb_irrefl, Nat.eqb_refl.
Qed.

Lemma tangent_above t j i :
  (j < i)%nat -> operands_below t i ->
  tangent t j i = weighted (partials t i) (tangent t j).
Proof.
  intros Hji Hb. unfold tangent at 1, tangent_step at 1.
  destruct (Nat.ltb_spec i j); [lia|].
  destruct (Nat.eqb_spec i j); [lia|].
  apply weighted_ext. intros c Hc.
  rewrite build_nth by (eapply partials_below; eauto). reflexivity.
Qed.

(** The terms of the [switch] are the partials times the adjoint. *)
Lemma contributions_partials t i (a : R) :
  contributions t i a = map (fun c => (fst c, snd c * a)) (partials t i).
Proof.
  unfold contributions, partials. cbv zeta.
  destruct (operation (node_at t i)); cbn; try reflexivity;
    repeat match goal with
           | |- _ :: _ = _ :: _ => apply f_equal2
           | |- (_, _) = (_, _) => apply f_equal2; [reflexivity|]
           | |- [] = [] => reflexivity
           end;
    unfold Rdiv; ring.
Qed.

Lemma weighted_scaled cs (a : R) (f : nat -> R) :
  weighted (map (fun c => (fst c, snd c * a)) cs) f = a * weighted cs f.
Proof.
  induction cs as [|c cs IH]; simpl.
  - ring.
  - rewrite IH. ring.
Qed.

Lemma derivative_add_derivative_in t l (x : R) j :
  derivative (node_at (add_derivative_in t l x) j) =
  if (l =? j)%nat && (j <? length t)%nat
  then derivative (node_at t j) + x else derivative (node_at t j).
Proof.
  unfold add_derivative_in. rewrite derivative_set_derivative_in.
  destruct (Nat.eqb_spec l j) as [->|]; reflexivity.
Qed.

Lemma adjoint_sum_ext t k (f g : nat -> R) :
  (forall m, (m < k)%nat -> f m = g m) -> adjoint_sum t k f = adjoint_sum t k g.
Proof.
  induction k as [|k IH]; intros H; simpl; auto.
  rewrite IH, H by (auto; intros; apply H; lia). reflexivity.
Qed.

Lemma adjoint_sum_add t l (x : R) k f :
  (l < length t)%nat ->
  adjoint_sum (add_derivative_in t l x) k f =
  adjoint_sum t k f + (if (l <? k)%nat then x * f l else 0).
Proof.
  intros Hl. induction k as [|k IH]; simpl.
  - ring.
  - rewrite IH, derivative_add_derivative_in.
    destruct (Nat.eqb_spec l k) as [->|Hne]; simpl.
    + apply Nat.ltb_lt in Hl as ->. rewrite Nat.ltb_irrefl.
      replace (k <? S k)%nat with true by (symmetry; apply Nat.ltb_lt; lia).
      ring.
    + destruct (Nat.ltb_spec l k), (Nat.ltb_spec l (S k)); try lia; ring.
Qed.

Lemma add_all_cons (c : nat * grad_real_t) cs t :
  add_all (c :: cs) t = add_all cs (add_derivative_in t (fst c) (snd c)).
Proof. reflexivity. Qed.

Lemma weighted_cons (c : nat * grad_real_t) cs (f : nat -> R) :
  weighted (c :: cs) f = snd c * f (fst c) + weighted cs f.
Proof. reflexivity. Qed.

Lemma adjoint_sum_add_all cs : forall t k f,
  (forall c, In c cs -> (fst c < k)%nat /\ (fst c < length t)%nat) ->
  adjoint_sum (add_all cs t) k f = adjoint_sum t k f + weighted cs f.
Proof.
  induction cs as [|c cs IH]; intros t k f H.
  - simpl. ring.
  - rewrite add_all_cons, weighted_cons.
    rewrite IH.
    + rewrite adjoint_sum_add by (apply H; simpl; auto).
      destruct (H c (or_introl eq_refl)) as [Hk _].
      apply Nat.ltb_lt in Hk as ->. ring.
    + intros c' Hc'. rewrite add_derivative_in_length. apply H; simpl; auto.
Qed.

Lemma derivative_add_all_other cs : forall t j,
  (forall c, In c cs -> fst c <> j) ->
  derivative (node_at (add_all cs t) j) = derivative (node_at t j).
Proof.
  induction cs as [|c cs IH]; intros t j H; [reflexivity|].
  rewrite add_all_cons.
  rewrite IH by (intros; apply H; simpl; auto).
  rewrite derivative_add_derivative_in.
  destruct (Nat.eqb_spec (fst c) j) as [E|]; [|reflexivity].
  exfalso. apply (H c); simpl; auto.
Qed.

Lemma propagate_in_potential t T j k :
  same_shape t T -> (k < length T)%nat -> operands_below t k ->
  potential t (propagate_in k T) j k = potential t T j (S k).
Proof.
  intros Hs Hk Hb. unfold potential, propagate_in.
  rewrite <- (same_shape_contributions k _ Hs), contributions_partials.
  set (a := derivative (node_at T k)).
  assert (Hcs : forall c,
    In c (map (fun c => (fst c, snd c * a)) (partials t k)) -> (fst c < k)%nat).
  { intros c Hc. apply in_map_iff in Hc as (c0 & <- & Hc0). simpl.
    eapply partials_below; eauto. }
  rewrite adjoint_sum_add_all
    by (intros c Hc; pose proof (Hcs c Hc) as Hlt;
        split; [exact Hlt|exact (Nat.lt_trans _ _ _ Hlt Hk)]).
  rewrite weighted_scaled. simpl adjoint_sum. fold a.
  destruct (Nat.lt_trichotomy j k) as [Hlt|[->|Hgt]].
  - rewrite tangent_above by assumption.
    destruct (Nat.leb_spec k j), (Nat.leb_spec (S k) j); try lia. ring.
  - rewrite tangent_self, Nat.leb_refl.
    destruct (Nat.leb_spec (S k) k); [lia|].
    rewrite derivative_add_all_other
      by (intros c Hc; apply Nat.lt_neq; exact (Hcs c Hc)).
    rewrite weighted_zero.
    + fold a. ring.
    + intros c Hc. apply tangent_below. eapply partials_below; eauto.
  - rewrite (tangent_below t Hgt).
    destruct (Nat.leb_spec k j), (Nat.leb_spec (S k) j); try lia.
    rewrite derivative_add_all_other
      by (intros c Hc; apply Nat.lt_neq;
          exact (Nat.lt_trans _ _ _ (Hcs c Hc) Hgt)).
    rewrite weighted_zero.
    + ring.
    + intros c Hc. apply tangent_below.
      pose proof (@partials_below t k c Hb Hc). lia.
Qed.

Lemma propagate_from_potential t j k : forall T,
  same_shape t T -> (k <= length T)%nat ->
  (forall i, (i < k)%nat -> operands_below t i) ->
  derivative (node_at (propagate_from k T) j) = potential t T j k.
Proof.
  induction k as [|k IH]; intros T Hs Hk Hb.
  - unfold potential. change (propagate_from 0 T) with T. simpl. rring.
  - rewrite propagate_from_S, IH.
    + apply propagate_in_potential; auto.
    + eapply same_shape_trans; [exact Hs|apply same_shape_propagate_in].
    + rewrite <- (proj1 (same_shape_propagate_in k T)). lia.
    + intros i Hi. apply Hb. lia.
Qed.

Lemma adjoint_sum_unit T out k (f : nat -> R) :
  (forall m, (m < k)%nat ->
     derivative (node_at T m) = if (out =? m)%nat then 1 else 0) ->
  adjoint_sum T k f = if (out <? k)%nat then f out else 0.
Proof.
  induction k as [|k IH]; intros H; [reflexivity|]. simpl.
  rewrite IH, H by (auto; intros; apply H; lia).
  destruct (Nat.eqb_spec out k) as [->|Hne].
  - rewrite Nat.ltb_irrefl.
    replace (k <? S k)%nat with true by (symmetry; apply Nat.ltb_lt; lia).
    ring.
  - destruct (Nat.ltb_spec out k), (Nat.ltb_spec out (S k)); try lia; ring.
Qed.

(** After the backward pass the adjoint of every live node is the chain-rule
    derivative of the output with respect to it. *)
Lemma backward_in_tangent t n out j :
  (n <= length t)%nat -> (out < n)%nat -> (j < n)%nat ->
  (forall i, (i < n)%nat -> operands_below t i) ->
  derivative (node_at (backward_in out n t) j) = tangent t j out.
Proof.
  intros Hn Hout Hj Hb. unfold backward_in.
  rewrite (@propagate_from_potential t j n).
  - unfold potential.
    rewrite (@adjoint_sum_unit _ out).
    + apply Nat.ltb_lt in Hout as ->.
      destruct (Nat.leb_spec n j); [lia|]. rring.
    + intros m Hm. rewrite derivative_zero_seed by lia. reflexivity.
  - apply same_shape_zero_seed.
  - rewrite zero_seed_length. lia.
  - assumption.
Qed.

End ExactBackward.

(** ** Recorded values *)

Section Consistency.
Context {G : GradReal} {C : GradConfig}.
Import Reverse.
Implicit Types (t : list grad_reverse_t) (s : state) (i j l n : nat).

Lemma value_consistent_ext t t' i :
  node_at t' i = node_at t i -> operands_below t i ->
  (forall l, l < i -> value (node_at t' l) = value (node_at t l)) ->
  value_consistent t i -> value_consistent t' i.
Proof.
  intros Hi Hb Hv. unfold value_consistent. cbv zeta. rewrite Hi.
  destruct (operation (node_at t i)) eqn:E; auto.
  1,2: destruct (operands_below_left Hb) as (l & Hl & Hli); [congruence|];
       destruct (operands_below_right Hb) as (r & Hr & Hri); [auto|];
       rewrite Hl, Hr; simpl index_of; now rewrite !Hv by lia.
  all: destruct (operands_below_left Hb) as (l & Hl & Hli); [congruence|];
       rewrite Hl; simpl index_of; now rewrite !Hv by lia.
Qed.

Lemma value_consistent_same_shape t t' i :
  same_shape t t' -> value_consistent t i -> value_consistent t' i.
Proof.
  intros [_ H]. unfold value_consistent. cbv zeta.
  destruct (H i) as (-> & -> & -> & ->).
  destruct (H (index_of (left (node_at t' i)))) as (-> & _).
  destruct (H (index_of (right (node_at t' i)))) as (-> & _).
  auto.
Qed.

Lemma call_in_consistent c env t n i :
  length t = GRAD_REVERSE_TAPE_SIZE ->
  n + nodes_of_call c <= GRAD_REVERSE_TAPE_SIZE ->
  env_ok env n -> call_scoped (length env) c = true ->
  n <= i < n + nodes_of_call c ->
  value_consistent (call_in c env t n) i.
Proof.
  intros Hlen Hn He Hsc Hi. unfold value_consistent, node_at. cbv zeta.
  destruct c as [v|o a|o a b]; simpl in Hsc, Hn, Hi.
  - replace i with n by lia. simpl. now rewrite nth_upd_same by lia.
  - apply Nat.ltb_lt in Hsc.
    destruct (env_ok_nth' He Hsc) as (l & El & Hl).
    replace i with n by lia. simpl. rewrite El. simpl index_of.
    rewrite nth_upd_same by lia.
    destruct o; simpl; now rewrite nth_upd_other by lia.
  - apply andb_true_iff in Hsc as [Ha Hb].
    apply Nat.ltb_lt in Ha, Hb.
    destruct (env_ok_nth' He Ha) as (l & El & Hl).
    destruct (env_ok_nth' He Hb) as (r & Er & Hr).
    simpl. rewrite El, Er. simpl index_of.
    destruct o; simpl in Hi, Hn.
    + replace i with n by lia. rewrite nth_upd_same by lia.
      simpl. now rewrite !nth_upd_other by lia.
    + replace i with n by lia. rewrite nth_upd_same by lia.
      simpl. now rewrite !nth_upd_other by lia.
    + destruct (Nat.eq_dec i n) as [->|Hne].
      * rewrite (nth_upd_other _ (i := n + 1) (j := n)) by lia.
        rewrite nth_upd_same by lia. simpl.
        now rewrite !nth_upd_other by lia.
      * replace i with (n + 1) by lia.
        rewrite nth_upd_same by (rewrite upd_length; lia). simpl.
        unfold node_at.
        rewrite !(nth_upd_other _ (i := n + 1)) by lia. reflexivity.
    + destruct (Nat.eq_dec i n) as [->|Hne].
      * rewrite (nth_upd_other _ (i := n + 1) (j := n)) by lia.
        rewrite nth_upd_same by lia. simpl.
        now rewrite !nth_upd_other by lia.
      * replace i with (n + 1) by lia.
        rewrite nth_upd_same by (rewrite upd_length; lia). simpl.
        unfold node_at.
        rewrite !(nth_upd_other _ (i := n + 1)) by lia. reflexivity.
Qed.

Lemma rev_exec_consistent c env s r s' :
  rev_inv s env -> consistent s -> rev_exec c env s = Ok (r, s') ->
  consistent s'.
Proof.
  intros Hinv Hc Hrun.
  pose proof (rev_exec_ok_scoped _ _ _ Hrun) as Hsc.
  destruct (rev_exec_inv _ Hinv Hrun) as (_ & _ & Hn & Ht & Hcap).
  destruct s as [t n], s' as [t' n']. simpl in *. subst n' t'.
  destruct Hinv as [(Hlen & Hn & Hb) He]. simpl in *.
  intros i Hi. simpl in Hi.
  destruct (Nat.lt_ge_cases i n) as [Hlt|Hge].
  - cbn [grad_reverse_tape]. apply (@value_consistent_ext t).
    + now apply call_in_below.
    + now apply Hb.
    + intros l Hl. rewrite call_in_below by lia. reflexivity.
    + now apply Hc.
  - cbn [grad_reverse_tape]. apply call_in_consistent; auto.
Qed.

Lemma rev_run_consistent p : forall env s env' s',
  rev_inv s env -> consistent s -> rev_run p env s = Ok (env', s') ->
  consistent s'.
Proof.
  induction p as [|[c|a] p IH]; intros env s env' s' Hinv Hc Hrun;
    simpl in Hrun.
  - inversion Hrun; subst; auto.
  - apply bind_inv_ok in Hrun as (r & s1 & Hx & Hrun).
    eapply IH; [| |exact Hrun].
    + eapply rev_exec_inv; eauto.
    + eapply rev_exec_consistent; eauto.
  - apply bind_inv_ok in Hrun as (q & s1 & Hq & Hrun).
    apply local_inv_ok in Hq as [Hq ->].
    apply bind_inv_ok in Hrun as ([] & s2 & Hb & Hrun).
    destruct (proj2 Hinv q (nth_error_In _ _ Hq)) as (out & -> & Hout).
    destruct (backward_inv Hinv Hout Hb) as (Hinv2 & Hn2 & Ht2).
    eapply IH; [exact Hinv2| |exact Hrun].
    intros i Hi. rewrite Ht2. rewrite Hn2 in Hi.
    eapply value_consistent_same_shape; [apply same_shape_backward_in|].
    now apply Hc.
Qed.

Lemma rev_scope_consistent p s0 env s :
  length (grad_reverse_tape s0) = GRAD_REVERSE_TAPE_SIZE ->
  rev_scope p s0 = Ok (env, s) -> consistent s.
Proof.
  intros Hlen Hrun. rewrite rev_scope_unfold in Hrun.
  eapply rev_run_consistent; [|  |exact Hrun].
  - now apply rev_inv_start.
  - intros i Hi. simpl in Hi. lia.
Qed.

End Consistency.

(** ** Derivatives of the elementary functions *)

Section RealDerivatives.
Open Scope R_scope.
Implicit Types (f g : R -> R) (x l : R).

Lemma dlim_eq f g x l l' :
  derivable_pt_lim f x l -> l = l' -> (forall z, f z = g z) ->
  derivable_pt_lim g x l'.
Proof.
  intros H <- Hfg. now apply (derivable_pt_lim_ext f g).
Qed.

Lemma dlim_const (c x : R) : derivable_pt_lim (fun _ => c) x 0.
Proof. apply (derivable_pt_lim_const c x). Qed.

Lemma dlim_id x : derivable_pt_lim (fun y => y) x 1.
Proof. apply (derivable_pt_lim_id x). Qed.

Lemma dlim_comp (phi : R -> R) f x l d :
  derivable_pt_lim f x l -> derivable_pt_lim phi (f x) d ->
  derivable_pt_lim (fun y => phi (f y)) x (d * l).
Proof. intros Hf Hphi. apply (derivable_pt_lim_comp f phi x l d Hf Hphi). Qed.

Lemma dlim_plus f g x l1 l2 :
  derivable_pt_lim f x l1 -> derivable_pt_lim g x l2 ->
  derivable_pt_lim (fun y => f y + g y) x (l1 + l2).
Proof. intros Hf Hg. apply (derivable_pt_lim_plus f g x l1 l2 Hf Hg). Qed.

Lemma dlim_mult f g x l1 l2 :
  derivable_pt_lim f x l1 -> derivable_pt_lim g x l2 ->
  derivable_pt_lim (fun y => f y * g y) x (l1 * g x + f x * l2).
Proof. intros Hf Hg. apply (derivable_pt_lim_mult f g x l1 l2 Hf Hg). Qed.

Lemma dlim_opp_fun x : derivable_pt_lim Ropp x (- 1).
Proof.
  apply (@dlim_eq (fun y => - (fun z => z) y) _ _ (- 1) _); auto.
  apply (derivable_pt_lim_opp (fun z => z) x 1), dlim_id.
Qed.

Lemma dlim_inv_fun x :
  x <> 0 -> derivable_pt_lim (fun y => 1 / y) x (- / (x * x)).
Proof.
  intros Hx.
  apply (@dlim_eq ((fun _ => 1) / (fun z => z))%F _ _
                  ((0 * x - 1 * 1) / Rsqr x) _).
  - apply (derivable_pt_lim_div (fun _ => 1) (fun z => z) x 0 1);
      [apply dlim_const|apply dlim_id|exact Hx].
  - unfold Rsqr. field. exact Hx.
  - intros z. reflexivity.
Qed.

Lemma dlim_sqrt_fun x :
  0 < x -> derivable_pt_lim sqrt x (/ 2 / sqrt x).
Proof.
  intros Hx. apply (@dlim_eq sqrt _ _ (/ (2 * sqrt x)) _); auto.
  - now apply derivable_pt_lim_sqrt.
  - field. apply Rgt_not_eq, sqrt_lt_R0, Hx.
Qed.

(** [pow_real] for a positive base. *)
Lemma pow_real_pos x e : 0 < x -> pow_real x e = Rpower x e.
Proof. intros Hx. unfold pow_real. now destruct (Rlt_dec 0 x). Qed.

Lemma Int_part_IZR (z : Z) : Int_part (IZR z) = z.
Proof. symmetry. apply Int_part_spec. lra. Qed.

(** [pow_real] for an integer exponent, whatever the base. *)
Lemma pow_real_int x (z : Z) : pow_real x (IZR z) = powerRZ x z.
Proof.
  unfold pow_real. destruct (Rlt_dec 0 x) as [Hx|Hx].
  - symmetry. now apply powerRZ_Rpower.
  - rewrite Int_part_IZR.
    destruct (Req_dec_T (IZR z) (IZR z)); [reflexivity|contradiction].
Qed.

(** [pow_real] for a natural exponent, whatever the base. *)
Lemma pow_real_nat x (n : nat) : pow_real x (INR n) = x ^ n.
Proof.
  rewrite INR_IZR_INZ, pow_real_int. symmetry. apply pow_powerRZ.
Qed.

Lemma dlim_pow_real_pos x e :
  0 < x -> derivable_pt_lim (fun y => pow_real y e) x (e * pow_real x (e - 1)).
Proof.
  intros Hx. rewrite (pow_real_pos _ Hx).
  apply (derivable_pt_lim_locally_ext (fun y => Rpower y e)
           (fun y => pow_real y e) x (x / 2) (x + 1)).
  - lra.
  - intros z Hz. symmetry. apply pow_real_pos. lra.
  - now apply derivable_pt_lim_power.
Qed.

(** The derivative of an integer power: everywhere for a positive
    exponent, away from 0 otherwise. *)
Lemma dlim_powerRZ x (z : Z) :
  x <> 0 \/ (0 < z)%Z ->
  derivable_pt_lim (fun y => powerRZ y z) x (IZR z * powerRZ x (z - 1)).
Proof.
  intros Hr. destruct z as [|p|p].
  - simpl. apply (@dlim_eq (fun _ => 1) _ _ 0 _).
    + apply dlim_const.
    + ring.
    + reflexivity.
  - destruct (Pos2Nat.is_succ p) as [n Hn].
    apply (@dlim_eq (fun y => y ^ S n) _ _ (INR (S n) * x ^ pred (S n)) _).
    + apply derivable_pt_lim_pow.
    + replace (Z.pos p) with (Z.of_nat (S n)) by lia.
      replace (Z.of_nat (S n) - 1)%Z with (Z.of_nat n) by lia.
      rewrite <- INR_IZR_INZ, <- pow_powerRZ. reflexivity.
    + intros y. simpl powerRZ. now rewrite Hn.
  - destruct Hr as [Hx|Hz]; [|lia].
    destruct (Pos2Nat.is_succ p) as [n Hn].
    assert (Hxn : x ^ n <> 0) by now apply pow_nonzero.
    apply (@dlim_eq (fun y => 1 / (y ^ S n)) _ _
             (- / (x ^ S n * x ^ S n) * (INR (S n) * x ^ pred (S n))) _).
    + apply (dlim_comp (phi := fun u => 1 / u) (f := fun y => y ^ S n)).
      * apply derivable_pt_lim_pow.
      * apply dlim_inv_fun. now apply pow_nonzero.
    + replace (Z.neg p - 1)%Z with (Z.neg (Pos.of_nat (S (S n)))) by lia.
      replace (Z.neg p) with (- Z.of_nat (S n))%Z by lia.
      rewrite opp_IZR, <- INR_IZR_INZ.
      change (powerRZ x (Z.neg (Pos.of_nat (S (S n)))))
        with (/ x ^ Pos.to_nat (Pos.of_nat (S (S n)))).
      rewrite Nat2Pos.id by lia.
      simpl pred. rewrite <- !tech_pow_Rmult.
      generalize dependent (x ^ n). intros a Ha.
      generalize (INR (S n)). intros m. field. auto.
    + intros y. simpl powerRZ. rewrite Hn. unfold Rdiv. ring.
Qed.

Lemma dlim_pow_real_int x (z : Z) :
  x <> 0 \/ (0 < z)%Z ->
  derivable_pt_lim (fun y => pow_real y (IZR z)) x
    (IZR z * pow_real x (IZR z - 1)).
Proof.
  intros Hr. rewrite <- minus_IZR, pow_real_int.
  apply (@dlim_eq (fun y => powerRZ y z) _ _ (IZR z * powerRZ x (z - 1)) _).
  - now apply dlim_powerRZ.
  - reflexivity.
  - intros y. symmetry. apply pow_real_int.
Qed.

(** No derivative at the pole of the inverse, whatever value the function
    is given at the pole. *)
Lemma no_derivative_at_pole (f : R -> R) l :
  (forall y, y <> 0 -> f y = 1 / y) -> ~ derivable_pt_lim f 0 l.
Proof.
  intros Hf H.
  set (c := Rabs l + Rabs (f 0) + 2).
  assert (Hc : 2 <= c)
    by (unfold c; pose proof (Rabs_pos l); pose proof (Rabs_pos (f 0)); lra).
  destruct (H 1 Rlt_0_1) as [delta Hd].
  pose proof (cond_pos delta) as Hpos.
  set (h := Rmin (delta / 2) (/ c)).
  assert (Hl : 0 < / c) by (apply Rinv_0_lt_compat; lra).
  assert (Hh : 0 < h) by (apply Rmin_pos; lra).
  assert (Hh1 : h <= delta / 2) by apply Rmin_l.
  assert (Hh2 : h <= / c) by apply Rmin_r.
  specialize (Hd h ltac:(lra)).
  rewrite (Rabs_pos_eq h) in Hd by lra.
  specialize (Hd ltac:(lra)).
  rewrite Rplus_0_l in Hd.
  rewrite (Hf h) in Hd by lra.
  assert (Hbig : c <= / h).
  { rewrite <- (Rinv_inv c). apply Rinv_le_contravar; assumption. }
  assert (Hh3 : h <= 1).
  { apply Rle_trans with (/ c); auto.
    rewrite <- Rinv_1. apply Rinv_le_contravar; lra. }
  assert (Hih : 0 < / h) by now apply Rinv_0_lt_compat.
  replace ((1 / h - f 0) / h - l) with ((/ h - f 0) * / h - l) in Hd
    by (field; lra).
  pose proof (Rle_abs l) as Hla. pose proof (Rle_abs (f 0)) as Hfa.
  assert (Hge : 1 <= (/ h - f 0) * / h - l).
  { assert (H1 : Rabs l + 2 <= / h - f 0) by (unfold c in Hbig; lra).
    assert (H2 : 1 <= / h) by lra.
    pose proof (Rabs_pos l). nra. }
  rewrite Rabs_pos_eq in Hd by lra. lra.
Qed.

End RealDerivatives.

(** ** The chain rule is the derivative *)

Section ExactDerivative.
Context {C : GradConfig}.
#[local] Existing Instance exact_real.
Import Reverse.
Open Scope R_scope.
Implicit Types (t : list grad_reverse_t) (i j k l n : nat).

Lemma value_wrt_below t j i x :
  (i < j)%nat -> value_wrt t j i x = value (node_at t i).
Proof.
  intros H. unfold value_wrt, revalue_step.
  now apply Nat.ltb_lt in H as ->.
Qed.

Lemma value_wrt_self t j x : value_wrt t j j x = x.
Proof.
  unfold value_wrt, revalue_step. now rewrite Nat.ltb_irrefl, Nat.eqb_refl.
Qed.

Lemma value_wrt_above t j i x :
  (j < i)%nat -> operands_below t i ->
  value_wrt t j i x =
  op_apply (node_at t i)
    (value_wrt t j (index_of (left (node_at t i))) x)
    (value_wrt t j (index_of (right (node_at t i))) x).
Proof.
  intros Hji Hb. unfold value_wrt at 1, revalue_step at 1. cbv zeta.
  destruct (Nat.ltb_spec i j); [lia|].
  destruct (Nat.eqb_spec i j); [lia|].
  unfold op_apply.
  destruct (operation (node_at t i)) eqn:E; auto.
  1,2: destruct (operands_below_left Hb) as (l & Hl & Hli); [congruence|];
       destruct (operands_below_right Hb) as (r & Hr & Hri); [auto|];
       rewrite Hl, Hr; simpl index_of;
       rewrite !build_nth by assumption; reflexivity.
  all: destruct (operands_below_left Hb) as (l & Hl & Hli); [congruence|];
       rewrite Hl; simpl index_of;
       rewrite !build_nth by assumption; reflexivity.
Qed.

(** At the recorded value of node [j] every node has its recorded value. *)
Lemma value_wrt_recorded t j n :
  (forall i, (i < n)%nat -> operands_below t i) ->
  (forall i, (i < n)%nat -> value_consistent t i) ->
  forall i, (i < n)%nat ->
    value_wrt t j i (value (node_at t j)) = value (node_at t i).
Proof.
  intros Hb Hc i. induction i as [i IH] using lt_wf_ind. intros Hi.
  destruct (Nat.lt_trichotomy i j) as [Hlt|[->|Hgt]].
  - now apply value_wrt_below.
  - apply value_wrt_self.
  - rewrite value_wrt_above by auto.
    specialize (Hc i Hi). specialize (Hb i Hi).
    unfold value_consistent in Hc. cbv zeta in Hc. unfold op_apply.
    destruct (operation (node_at t i)) eqn:E; auto.
    1,2: destruct (operands_below_left Hb) as (l & Hl & Hli); [congruence|];
         destruct (operands_below_right Hb) as (r & Hr & Hri); [auto|];
         rewrite Hl, Hr in *; simpl index_of in *;
         rewrite !IH by lia; symmetry; exact Hc.
    all: destruct (operands_below_left Hb) as (l & Hl & Hli); [congruence|];
         rewrite Hl in *; simpl index_of in *;
         rewrite !IH by lia; symmetry; exact Hc.
Qed.

(** The chain-rule tangent is the derivative of the value function, away
    from the singularities. *)
Lemma value_wrt_derivative t j n :
  (forall i, (i < n)%nat -> operands_below t i) ->
  (forall i, (i < n)%nat -> value_consistent t i) ->
  forall i, (i < n)%nat ->
    (forall m, (m <= i)%nat -> regular_node t m) ->
    derivable_pt_lim (value_wrt t j i) (value (node_at t j)) (tangent t j i).
Proof.
  intros Hb Hc i. induction i as [i IH] using lt_wf_ind. intros Hi Hreg.
  destruct (Nat.lt_trichotomy i j) as [Hlt|[->|Hgt]].
  - rewrite tangent_below by assumption.
    apply (@dlim_eq (fun _ => value (node_at t i)) _ _ 0 _); auto.
    + apply dlim_const.
    + intros z. symmetry. now apply value_wrt_below.
  - rewrite tangent_self.
    apply (@dlim_eq (fun y => y) _ _ 1 _); auto.
    + apply dlim_id.
    + intros z. symmetry. apply value_wrt_self.
  - pose proof (Hb i Hi) as Hbi.
    rewrite tangent_above by assumption.
    pose proof (Hreg i (Nat.le_refl i)) as Hri. unfold regular_node in Hri.
    cbv zeta in Hri.
    assert (Hrec : forall l, (l < i)%nat ->
              value_wrt t j l (value (node_at t j)) = value (node_at t l)).
    { intros l Hl. apply (@value_wrt_recorded t j n Hb Hc). lia. }
    assert (IH' : forall l, (l < i)%nat ->
              derivable_pt_lim (value_wrt t j l) (value (node_at t j))
                (tangent t j l)).
    { intros l Hl. apply IH; auto; try lia. intros m Hm. apply Hreg. lia. }
    unfold partials. cbv zeta.
    destruct (operation (node_at t i)) eqn:E.
    + (* a leaf after [j]: constant *)
      apply (@dlim_eq (fun _ => value (node_at t i)) _ _ 0 _); auto.
      * apply dlim_const.
      * intros z. rewrite value_wrt_above by assumption.
        unfold op_apply. now rewrite E.
    + destruct (operands_below_left Hbi) as (l & Hl & Hli); [congruence|].
      destruct (operands_below_right Hbi) as (r & Hr & Hri'); [auto|].
      rewrite Hl, Hr. simpl index_of. unfold weighted. simpl fold_right.
      apply (@dlim_eq (fun y => value_wrt t j l y + value_wrt t j r y) _ _
               (tangent t j l + tangent t j r) _).
      * apply dlim_plus; auto.
      * ring.
      * intros z. rewrite (@value_wrt_above t j i) by assumption.
        unfold op_apply. now rewrite E, Hl, Hr.
    + destruct (operands_below_left Hbi) as (l & Hl & Hli); [congruence|].
      destruct (operands_below_right Hbi) as (r & Hr & Hri'); [auto|].
      rewrite Hl, Hr. simpl index_of. unfold weighted. simpl fold_right.
      apply (@dlim_eq (fun y => value_wrt t j l y * value_wrt t j r y) _ _
               (tangent t j l * value_wrt t j r (value (node_at t j)) +
                value_wrt t j l (value (node_at t j)) * tangent t j r) _).
      * apply dlim_mult; auto.
      * rewrite !Hrec by assumption. ring.
      * intros z. rewrite (@value_wrt_above t j i) by assumption.
        unfold op_apply. now rewrite E, Hl, Hr.
    + destruct (operands_below_left Hbi) as (l & Hl & Hli); [congruence|].
      rewrite Hl. simpl index_of. unfold weighted. simpl fold_right.
      apply (@dlim_eq (fun y => - value_wrt t j l y) _ _
               (- 1 * tangent t j l) _).
      * apply (@dlim_comp Ropp _ _ _ _); auto. apply dlim_opp_fun.
      * ring.
      * intros z. rewrite (@value_wrt_above t j i) by assumption.
        unfold op_apply. now rewrite E, Hl.
    + destruct (operands_below_left Hbi) as (l & Hl & Hli); [congruence|].
      rewrite Hl in *. simpl index_of in *. unfold weighted. simpl fold_right.
      apply (@dlim_eq (fun y => 1 / value_wrt t j l y) _ _
               (- / (value (node_at t l) * value (node_at t l)) *
                tangent t j l) _).
      * rewrite <- (Hrec l Hli).
        apply (@dlim_comp (fun y => 1 / y) _ _ _ _); auto.
        apply dlim_inv_fun. now rewrite Hrec.
      * ring.
      * intros z. rewrite (@value_wrt_above t j i) by assumption.
        unfold op_apply. now rewrite E, Hl.
    + destruct (operands_below_left Hbi) as (l & Hl & Hli); [congruence|].
      rewrite Hl in *. simpl index_of in *. unfold weighted. simpl fold_right.
      apply (@dlim_eq (fun y => sin (value_wrt t j l y)) _ _
               (cos (value (node_at t l)) * tangent t j l) _).
      * rewrite <- (Hrec l Hli).
        apply (@dlim_comp sin _ _ _ _); auto. apply derivable_pt_lim_sin.
      * ring.
      * intros z. rewrite (@value_wrt_above t j i) by assumption.
        unfold op_apply. now rewrite E, Hl.
    + destruct (operands_below_left Hbi) as (l & Hl & Hli); [congruence|].
      rewrite Hl in *. simpl index_of in *. unfold weighted. simpl fold_right.
      apply (@dlim_eq (fun y => cos (value_wrt t j l y)) _ _
               (- sin (value (node_at t l)) * tangent t j l) _).
      * rewrite <- (Hrec l Hli).
        apply (@dlim_comp cos _ _ _ _); auto. apply derivable_pt_lim_cos.
      * ring.
      * intros z. rewrite (@value_wrt_above t j i) by assumption.
        unfold op_apply. now rewrite E, Hl.
    + destruct (operands_below_left Hbi) as (l & Hl & Hli); [congruence|].
      rewrite Hl in *. simpl index_of in *. unfold weighted. simpl fold_right.
      apply (@dlim_eq (fun y => exp (value_wrt t j l y)) _ _
               (exp (value (node_at t l)) * tangent t j l) _).
      * rewrite <- (Hrec l Hli).
        apply (@dlim_comp exp _ _ _ _); auto. apply derivable_pt_lim_exp.
      * ring.
      * intros z. rewrite (@value_wrt_above t j i) by assumption.
        unfold op_apply. now rewrite E, Hl.
    + destruct (operands_below_left Hbi) as (l & Hl & Hli); [congruence|].
      rewrite Hl in *. simpl index_of in *. unfold weighted. simpl fold_right.
      apply (@dlim_eq (fun y => ln (value_wrt t j l y)) _ _
               (/ value (node_at t l) * tangent t j l) _).
      * rewrite <- (Hrec l Hli).
        apply (@dlim_comp ln _ _ _ _); auto. apply derivable_pt_lim_ln.
        now rewrite Hrec.
      * ring.
      * intros z. rewrite (@value_wrt_above t j i) by assumption.
        unfold op_apply. now rewrite E, Hl.
Qed.

End ExactDerivative.

(** ** The backward pass computes derivatives *)

Section ReverseCorrect.
Context {C : GradConfig}.
#[local] Existing Instance exact_real.
Import Reverse.
Implicit Types (t : list grad_reverse_t) (i j k l n : nat).

(** C1, as the code has it: in exact arithmetic, on a tape built within one
    scope all of whose live nodes are away from the singularities of their
    operations ([INV] of a non-zero value, [LOG] of a positive value), for
    every live node taken as the output, [grad_reverse_backward] returns
    and leaves in every live node the derivative of the output's value with
    respect to that node's value, which is the chain-rule sum over the
    recorded graph.  The pass visits every live node, also those made after
    the output, so the condition is on all of them. *)
Theorem reverse_backward_derivative (p : list rev_call) (s0 : state)
  (env : list ptr) (s : state) (out : nat) :
  length (grad_reverse_tape s0) = GRAD_REVERSE_TAPE_SIZE ->
  rev_scope p s0 = Ok (env, s) ->
  out < grad_reverse_current_id s ->
  (forall i, i < grad_reverse_current_id s ->
     regular_node (grad_reverse_tape s) i) ->
  exists s',
    grad_reverse_backward (Some out) s = Ok (tt, s') /\
    forall j, j < grad_reverse_current_id s ->
      adjoint s' j = tangent (grad_reverse_tape s) j out /\
      derivable_pt_lim (value_wrt (grad_reverse_tape s) j out)
        (value (node_at (grad_reverse_tape s) j)) (adjoint s' j).
Proof.
  intros Hlen Hrun Hout Hreg.
  pose proof (rev_scope_inv _ _ Hlen Hrun) as [(Hl & Hn & Hb) _].
  pose proof (rev_scope_consistent _ _ Hlen Hrun) as Hc.
  rewrite grad_reverse_backward_run by (repeat split; auto; lia).
  eexists. split; [reflexivity|].
  intros j Hj. unfold adjoint. cbn [grad_reverse_tape].
  rewrite backward_in_tangent by (auto; lia).
  split; [reflexivity|].
  apply (@value_wrt_derivative (grad_reverse_tape s) j
           (grad_reverse_current_id s)); auto.
  intros i Hi. apply Hreg. lia.
Qed.

End ReverseCorrect.

Section ReverseCounterexample.
#[local] Existing Instance default_config.

(** C1 as stated fails in the arithmetic of the code.  At a singularity:
    for [y = 1 / x] at [x = 0.0] the value of [y] is [+infinity] and the
    backward pass from [y] leaves [-infinity] in [x], where no function
    that is [1 / x] away from 0 has a derivative.  Away from the
    singularities: for [x * b + x * (-b) + x * h] at [x = 1], [b = 1e16],
    [h = 0.5] the pass leaves [(h + -b) + b = 0.0] in [x], where the
    derivative, which the same calls give over the reals, is [1 / 2]. *)
Lemma reverse_adjoint_not_derivative :
  (fun m => @reverse_value (binary64 m) default_config (inv_calls m) 1)
    = (fun _ => Some infinity) /\
  (fun m => @reverse_entry (binary64 m) default_config (inv_calls m) 1 0)
    = (fun _ => Some neg_infinity) /\
  (forall (f : R -> R) (l : R),
     (forall y, y <> 0 -> f y = 1 / y)%R -> ~ derivable_pt_lim f 0%R l) /\
  (fun m => @reverse_entry (binary64 m) default_config (cancelling_calls m) 8 0)
    = (fun _ => Some 0%float) /\
  @reverse_entry exact_real default_config cancelling_exact 8 0
    = Some (/ 2)%R.
Proof.
  split; [vm_compute; reflexivity|].
  split; [vm_compute; reflexivity|].
  split; [intros f l Hf; now apply no_derivative_at_pole|].
  split; [vm_compute; reflexivity|].
  assert (H : exists D,
    @reverse_entry exact_real default_config cancelling_exact 8 0 = Some D /\
    D = (/ 2)%R).
  { eexists. split.
    - lazy -[Rplus Rmult Ropp Rminus Rdiv Rinv IZR INR]. reflexivity.
    - lra. }
  destruct H as (D & HD & ->). exact HD.
Qed.

End ReverseCounterexample.

(** ** Forward mode: closed forms *)

Section ForwardClosed.
Context {G : GradReal} {C : GradConfig}.
Import Forward.

Lemma fill_ext n (g g' : nat -> grad_real_t) :
  (forall i, i < n -> i < GRAD_FORWARD_TAPE_SIZE -> g i = g' i) ->
  fill n g = fill n g'.
Proof.
  intros H. apply nth_ext with (d := r_zero) (d' := r_zero).
  - now rewrite !fill_length.
  - intros i _. rewrite !nth_fill.
    destruct (Nat.ltb_spec i n), (Nat.ltb_spec i GRAD_FORWARD_TAPE_SIZE);
      simpl; auto.
Qed.

Lemma derivative_at_result n v g m :
  derivative_at (result_of n v g) m =
  if (m <? n) && (m <? GRAD_FORWARD_TAPE_SIZE) then g m else r_zero.
Proof. unfold derivative_at, result_of; simpl. apply nth_fill. Qed.

Lemma derivative_at_result_below n v g m :
  m < n -> m < GRAD_FORWARD_TAPE_SIZE ->
  derivative_at (result_of n v g) m = g m.
Proof.
  intros H1 H2. rewrite derivative_at_result.
  apply Nat.ltb_lt in H1, H2. now rewrite H1, H2.
Qed.

Lemma zero_beyond_result n v g : zero_beyond n (result_of n v g).
Proof.
  intros m Hm. rewrite derivative_at_result.
  destruct (Nat.ltb_spec m n); [lia|reflexivity].
Qed.

Lemma var_ok_result n v g : var_ok (result_of n v g).
Proof. unfold var_ok, result_of; simpl. apply fill_length. Qed.

Lemma result_of_eq n v v' (g g' : nat -> grad_real_t) :
  v = v' ->
  (forall i, i < n -> i < GRAD_FORWARD_TAPE_SIZE -> g i = g' i) ->
  {| id := 0; value := v; derivative := fill n g |} = result_of n v' g'.
Proof. intros -> H. unfold result_of. f_equal. now apply fill_ext. Qed.

Lemma fwd_unop_exact o x s :
  fwd_unop o x s =
  Ok (result_of (grad_forward_current_id s) (unop_fvalue o (value x))
        (fun i => unop_fentry o (value x) (derivative_at x i)), s).
Proof.
  destruct o; simpl.
  - apply grad_forward_neg_run.
  - apply grad_forward_inv_run.
  - apply grad_forward_sin_run.
  - apply grad_forward_cos_run.
  - apply grad_forward_exp_run.
  - apply grad_forward_log_run.
Qed.

Lemma fwd_binop_exact o x y s :
  fwd_binop o x y s =
  Ok (result_of (grad_forward_current_id s)
        (binop_fvalue o (value x) (value y))
        (fun i => binop_fentry o (value x) (value y)
                    (derivative_at x i) (derivative_at y i)), s).
Proof.
  destruct o; simpl.
  - apply grad_forward_add_run.
  - apply grad_forward_mul_run.
  - unfold grad_forward_sub.
    change (grad_forward_neg y) with (fwd_unop ONeg y).
    rewrite (bind_ok _ _ _ (fwd_unop_exact ONeg y s)).
    rewrite grad_forward_add_run. do 2 f_equal.
    apply result_of_eq; [reflexivity|]. intros i Hi HN.
    now rewrite (derivative_at_result_below _ _ Hi HN).
  - unfold grad_forward_div.
    change (grad_forward_inv y) with (fwd_unop OInv y).
    rewrite (bind_ok _ _ _ (fwd_unop_exact OInv y s)).
    rewrite grad_forward_mul_run. do 2 f_equal.
    apply result_of_eq; [reflexivity|]. intros i Hi HN.
    now rewrite (derivative_at_result_below _ _ Hi HN).
Qed.

Lemma fwd_only_exact o x s :
  var_ok x -> zero_beyond (grad_forward_current_id s) x ->
  exists r,
    fwd_only_op o x s = Ok (r, s) /\
    value r = only_fvalue o (value x) /\
    var_ok r /\
    zero_beyond (grad_forward_current_id s) r /\
    forall m, m < grad_forward_current_id s -> m < GRAD_FORWARD_TAPE_SIZE ->
      derivative_at r m = only_fentry o (value x) (derivative_at x m).
Proof.
  intros Hx Hz. destruct o as [c|c| | |e]; simpl.
  - rewrite grad_forward_add_c_run by assumption.
    eexists. split; [reflexivity|]. simpl. repeat split; auto.
  - rewrite grad_forward_mul_c_run.
    eexists. split; [reflexivity|]. simpl. repeat split.
    + apply fill_length.
    + apply zero_beyond_result.
    + intros m H1 H2.
      now apply derivative_at_result_below.
  - unfold grad_forward_tan.
    change (grad_forward_sin x) with (fwd_unop OSin x).
    rewrite (bind_ok _ _ _ (fwd_unop_exact OSin x s)).
    change (grad_forward_cos x) with (fwd_unop OCos x).
    rewrite (bind_ok _ _ _ (fwd_unop_exact OCos x s)).
    change grad_forward_div with (fwd_binop ODiv).
    rewrite fwd_binop_exact.
    eexists. split; [reflexivity|]. repeat split.
    + apply var_ok_result.
    + apply zero_beyond_result.
    + intros m H1 H2. rewrite derivative_at_result_below by assumption.
      now rewrite !derivative_at_result_below by assumption.
  - rewrite grad_forward_sqrt_run.
    eexists. split; [reflexivity|]. simpl. repeat split.
    + apply fill_length.
    + apply zero_beyond_result.
    + intros m H1 H2.
      now apply derivative_at_result_below.
  - rewrite grad_forward_pow_run.
    eexists. split; [reflexivity|]. simpl. repeat split.
    + apply fill_length.
    + apply zero_beyond_result.
    + intros m H1 H2.
      now apply derivative_at_result_below.
Qed.

End ForwardClosed.


(** ** Cross-mode agreement *)

Section TangentExt.
Context {C : GradConfig}.
#[local] Existing Instance exact_real.
Import Reverse.
Open Scope R_scope.
Implicit Types (t : list grad_reverse_t) (i j k l n : nat).

Lemma partials_ext t t' i :
  node_at t' i = node_at t i -> operands_below t i ->
  (forall l, (l < i)%nat -> value (node_at t' l) = value (node_at t l)) ->
  partials t' i = partials t i.
Proof.
  intros Hi Hb Hv. unfold partials. cbv zeta. rewrite Hi.
  destruct (operation (node_at t i)) eqn:E; try reflexivity.
  - destruct (operands_below_left Hb) as (l & Hl & Hli); [congruence|].
    destruct (operands_below_right Hb) as (r & Hr & Hri); [auto|].
    rewrite Hl, Hr; simpl index_of. now rewrite !Hv by lia.
  - destruct (operands_below_left Hb) as (l & Hl & Hli); [congruence|].
    rewrite Hl; simpl index_of. now rewrite !Hv by lia.
  - destruct (operands_below_left Hb) as (l & Hl & Hli); [congruence|].
    rewrite Hl; simpl index_of. now rewrite !Hv by lia.
  - destruct (operands_below_left Hb) as (l & Hl & Hli); [congruence|].
    rewrite Hl; simpl index_of. now rewrite !Hv by lia.
  - destruct (operands_below_left Hb) as (l & Hl & Hli); [congruence|].
    rewrite Hl; simpl index_of. now rewrite !Hv by lia.
  - destruct (operands_below_left Hb) as (l & Hl & Hli); [congruence|].
    rewrite Hl; simpl index_of. now rewrite !Hv by lia.
Qed.

(** The tangent of a node depends on the nodes up to it. *)
Lemma tangent_ext t t' j i :
  (forall m, (m <= i)%nat -> node_at t' m = node_at t m) ->
  (forall m, (m <= i)%nat -> operands_below t m) ->
  tangent t' j i = tangent t j i.
Proof.
  induction i as [i IH] using lt_wf_ind. intros Hn Hb.
  destruct (Nat.lt_trichotomy i j) as [Hlt|[->|Hgt]].
  - now rewrite !tangent_below.
  - now rewrite !tangent_self.
  - assert (Hb' : operands_below t' i).
    { eapply operands_below_ext; [apply Hn|apply Hb]; lia. }
    rewrite !tangent_above by auto.
    rewrite (@partials_ext t t' i); auto.
    + apply weighted_ext. intros c Hc.
      pose proof (@partials_below t i c (Hb i (Nat.le_refl i)) Hc) as Hlt.
      apply IH; auto; intros m Hm; [apply Hn|apply Hb]; lia.
    + intros l Hl. now rewrite Hn by lia.
Qed.

Lemma partials_unary t i o l :
  operation (node_at t i) = unop_tag o -> left (node_at t i) = Some l ->
  partials t i = [(l, unop_partial o (value (node_at t l)))].
Proof.
  intros Ho Hl. unfold partials. cbv zeta. rewrite Ho, Hl.
  destruct o; reflexivity.
Qed.

Lemma partials_add t i l r :
  operation (node_at t i) = GRAD_OP_ADD ->
  left (node_at t i) = Some l -> right (node_at t i) = Some r ->
  partials t i = [(l, 1); (r, 1)].
Proof.
  intros Ho Hl Hr. unfold partials. cbv zeta. now rewrite Ho, Hl, Hr.
Qed.

Lemma partials_mul t i l r :
  operation (node_at t i) = GRAD_OP_MUL ->
  left (node_at t i) = Some l -> right (node_at t i) = Some r ->
  partials t i = [(l, value (node_at t r)); (r, value (node_at t l))].
Proof.
  intros Ho Hl Hr. unfold partials. cbv zeta. now rewrite Ho, Hl, Hr.
Qed.

Lemma partials_leaf t i :
  operation (node_at t i) = GRAD_OP_NONE -> partials t i = [].
Proof. intros Ho. unfold partials. cbv zeta. now rewrite Ho. Qed.

Lemma unop_fvalue_exact o (v : R) : unop_fvalue o v = unop_value o v.
Proof. destruct o; simpl; try reflexivity. ring. Qed.

Lemma unop_fentry_exact o (v dv : R) :
  unop_fentry o v dv = unop_partial o v * dv.
Proof. destruct o; simpl; unfold Rdiv; ring. Qed.

Lemma tangent_call_in c env t n j i :
  tape_ok {| grad_reverse_tape := t; grad_reverse_current_id := n |} ->
  (i < n)%nat -> tangent (call_in c env t n) j i = tangent t j i.
Proof.
  intros (_ & _ & Hb) Hi. simpl in Hb. apply tangent_ext.
  - intros m Hm. apply call_in_below. lia.
  - intros m Hm. apply Hb. lia.
Qed.

End TangentExt.

Section Agreement.
Context {C : GradConfig}.
#[local] Existing Instance exact_real.
Open Scope R_scope.

Lemma env_node_below envr n k :
  env_ok envr n -> (k < length envr)%nat -> (node_of envr k < n)%nat.
Proof.
  intros He Hk. unfold node_of.
  destruct (env_ok_nth' He Hk) as (l & -> & Hl). exact Hl.
Qed.

Lemma var_at_old envf x k :
  (k < length envf)%nat -> var_at (envf ++ [x]) k = var_at envf k.
Proof. intros H. unfold var_at. now rewrite app_nth1. Qed.

Lemma var_at_new envf x k :
  k = length envf -> var_at (envf ++ [x]) k = x.
Proof. intros ->. unfold var_at. apply nth_middle. Qed.

Lemma node_of_old envr q k :
  (k < length envr)%nat -> node_of (envr ++ [q]) k = node_of envr k.
Proof. intros H. unfold node_of. now rewrite app_nth1. Qed.

Lemma node_of_new envr (q : Reverse.ptr) i k :
  q = Some i -> k = length envr -> node_of (envr ++ [q]) k = i.
Proof. intros -> ->. unfold node_of. now rewrite nth_middle. Qed.

Lemma zero_beyond_mono n m x :
  zero_beyond n x -> (n <= m)%nat -> zero_beyond m x.
Proof. intros H Hnm k Hk. apply H. lia. Qed.

(** One more call on both sides keeps the engines in agreement, given what
    the call does to the new local. *)
Lemma agree_extend done envf sf envr sr c x sf' q sr' i_new :
  agree done envf sf envr sr ->
  rev_inv sr' (envr ++ [q]) -> q = Some i_new ->
  (Reverse.grad_reverse_current_id sr <= i_new)%nat ->
  (forall m, (m < Reverse.grad_reverse_current_id sr)%nat ->
     node_at (Reverse.grad_reverse_tape sr') m =
     node_at (Reverse.grad_reverse_tape sr) m) ->
  (Forward.grad_forward_current_id sf <=
   Forward.grad_forward_current_id sf')%nat ->
  (Forward.grad_forward_current_id sf' <= GRAD_FORWARD_TAPE_SIZE)%nat ->
  zero_beyond (Forward.grad_forward_current_id sf') x ->
  Forward.value x =
    Reverse.value (node_at (Reverse.grad_reverse_tape sr') i_new) ->
  (forall a v, nth_error done a = Some (Init v) ->
     Forward.derivative_at x (Forward.id (var_at envf a)) =
     tangent (Reverse.grad_reverse_tape sr') (node_of envr a) i_new) ->
  (forall v, c = Init v ->
     Forward.id x = Forward.grad_forward_current_id sf /\
     (Forward.grad_forward_current_id sf <
      Forward.grad_forward_current_id sf')%nat /\
     Forward.derivative_at x (Forward.grad_forward_current_id sf) = 1) ->
  agree (done ++ [c]) (envf ++ [x]) sf' (envr ++ [q]) sr'.
Proof.
  intros (Hlf & Hlr & Hinv & Hcur & Hloc & Hseed)
         Hinv' Hq Hnew Hsame Hc1 Hc2 Hzx Hvx Hold Hinit.
  pose proof Hinv as [Hok He]. pose proof Hok as (_ & _ & Hb).
  assert (Hnode : forall k, (k < length done)%nat ->
            (node_of envr k < Reverse.grad_reverse_current_id sr)%nat).
  { intros k Hk. apply env_node_below; auto. lia. }
  assert (Htan : forall j i, (i < Reverse.grad_reverse_current_id sr)%nat ->
            tangent (Reverse.grad_reverse_tape sr') j i =
            tangent (Reverse.grad_reverse_tape sr) j i).
  { intros j i Hi. apply tangent_ext.
    - intros m Hm. apply Hsame. lia.
    - intros m Hm. apply Hb. lia. }
  assert (Hseed_lt : forall a v, nth_error (done ++ [c]) a = Some (Init v) ->
            a <> length done ->
            (a < length done)%nat /\ nth_error done a = Some (Init v)).
  { intros a v H Hne.
    assert (a < length (done ++ [c]))%nat by (apply nth_error_Some; congruence).
    rewrite length_app in *. simpl in *.
    split; [lia|]. rewrite nth_error_app1 in H by lia. exact H. }
  assert (Hseed_new : forall v, nth_error (done ++ [c]) (length done) =
            Some (Init v) -> c = Init v).
  { intros v H. rewrite nth_error_app2, Nat.sub_diag in H by lia.
    now inversion H. }
  unfold agree. rewrite !length_app. simpl length.
  split; [lia|]. split; [lia|]. split; [exact Hinv'|]. split; [exact Hc2|].
  split.
  - intros k Hk. destruct (Nat.eq_dec k (length done)) as [->|Hne].
    + rewrite var_at_new, (node_of_new _ Hq) by lia. split; assumption.
    + rewrite var_at_old, node_of_old by lia.
      destruct (Hloc k ltac:(lia)) as [Hz Hv]. split.
      * apply (@zero_beyond_mono (Forward.grad_forward_current_id sf));
          assumption.
      * rewrite Hsame by (apply Hnode; lia). exact Hv.
  - intros a v H. destruct (Nat.eq_dec a (length done)) as [->|Hne].
    + pose proof (Hseed_new v H) as Hc.
      destruct (Hinit v Hc) as (Hid & Hlt & Hone).
      rewrite var_at_new, (node_of_new _ Hq) by lia.
      split; [lia|]. intros k Hk.
      destruct (Nat.eq_dec k (length done)) as [->|Hnk].
      * rewrite var_at_new, (node_of_new _ Hq) by lia.
        rewrite tangent_self, Hid. exact Hone.
      * rewrite var_at_old, node_of_old by lia.
        rewrite tangent_below by (specialize (Hnode k); lia).
        rewrite Hid. apply Hloc; lia.
    + destruct (Hseed_lt a v H Hne) as [Ha H'].
      rewrite (@var_at_old envf x a), (@node_of_old envr q a) by lia.
      destruct (Hseed a v H') as [Hid Hk'].
      split; [lia|]. intros k Hk.
      destruct (Nat.eq_dec k (length done)) as [->|Hnk].
      * rewrite var_at_new, (node_of_new _ Hq) by lia.
        apply (Hold a v H').
      * rewrite var_at_old, node_of_old by lia.
        rewrite Htan by (apply Hnode; lia).
        apply Hk'. lia.
Qed.

Lemma weighted_one (l : nat) (w : R) (f : nat -> R) :
  weighted [(l, w)] f = w * f l.
Proof. unfold weighted; simpl. ring. Qed.

Lemma weighted_two (l r : nat) (w1 w2 : R) (f : nat -> R) :
  weighted [(l, w1); (r, w2)] f = w1 * f l + w2 * f r.
Proof. unfold weighted; simpl. ring. Qed.

Lemma local_var_at envf a (x : Forward.grad_forward_t)
  (s s' : Forward.state) :
  local envf a s = Ok (x, s') ->
  (a < length envf)%nat /\ var_at envf a = x /\ s' = s.
Proof.
  intros H. apply local_inv_ok in H as [H ->].
  split; [apply nth_error_Some; congruence|].
  split; [|reflexivity]. unfold var_at. now apply nth_error_nth.
Qed.

(** The step of [grad_forward_init] and [grad_reverse_init]. *)
Lemma agree_init done envf sf envr sr v x sf' q sr' :
  agree done envf sf envr sr ->
  Forward.grad_forward_init v sf = Ok (x, sf') ->
  rev_exec (Init v) envr sr = Ok (q, sr') ->
  agree (done ++ [Init v]) (envf ++ [x]) sf' (envr ++ [q]) sr'.
Proof.
  intros Hag Hf Hr.
  pose proof Hag as (Hlf & Hlr & Hinv & Hcur & Hloc & Hseed).
  destruct (rev_exec_inv _ Hinv Hr) as (Hinv' & Hq & Hn' & Ht' & Hcap).
  simpl nodes_of_call in *.
  rewrite grad_forward_init_run in Hf.
  destruct (Nat.ltb_spec (Forward.grad_forward_current_id sf)
              GRAD_FORWARD_TAPE_SIZE) as [Hlt|]; [|discriminate].
  inversion Hf; subst x sf'; clear Hf.
  pose proof Hinv as [(Hlen & _ & Hb) He].
  pose proof Hinv' as [(_ & _ & Hb') _].
  set (n := Reverse.grad_reverse_current_id sr) in *.
  assert (Hnode : node_at (Reverse.grad_reverse_tape sr') n =
                  leaf_node (Reverse.grad_reverse_tape sr) n v).
  { rewrite Ht'. unfold node_at, call_in. apply nth_upd_same. lia. }
  assert (Hd : forall m,
    Forward.derivative_at
      {| Forward.id := Forward.grad_forward_current_id sf;
         Forward.value := v;
         Forward.derivative :=
           upd (repeat 0 GRAD_FORWARD_TAPE_SIZE)
               (Forward.grad_forward_current_id sf) 1 |} m =
    if (Forward.grad_forward_current_id sf =? m)%nat then 1 else 0).
  { intros m. unfold Forward.derivative_at. simpl.
    rewrite nth_upd, repeat_length, nth_repeat.
    destruct (Nat.eqb_spec (Forward.grad_forward_current_id sf) m) as [<-|];
      simpl; auto.
    now apply Nat.ltb_lt in Hlt as ->. }
  eapply agree_extend with (i_new := (n + 1 - 1)%nat);
    eauto; simpl; try lia.
  - intros m Hm. rewrite Ht'. now apply call_in_below.
  - intros m Hm. rewrite Hd.
    destruct (Nat.eqb_spec (Forward.grad_forward_current_id sf) m);
      [lia|reflexivity].
  - replace (n + 1 - 1)%nat with n by lia. now rewrite Hnode.
  - intros a w Ha. destruct (Hseed a w Ha) as [Hid _].
    replace (n + 1 - 1)%nat with n by lia.
    rewrite Hd. destruct (Nat.eqb_spec (Forward.grad_forward_current_id sf)
                            (Forward.id (var_at envf a))); [lia|].
    assert (Hja : (node_of envr a < n)%nat).
    { apply env_node_below; auto.
      assert (a < length done)%nat by (apply nth_error_Some; congruence). lia. }
    rewrite tangent_above by (auto; apply Hb'; lia).
    rewrite partials_leaf by (now rewrite Hnode). reflexivity.
  - intros w _. repeat split; try lia. rewrite Hd.
    now rewrite Nat.eqb_refl.
Qed.

(** The step of a unary operation. *)
Lemma agree_un done envf sf envr sr o a x sf' q sr' :
  agree done envf sf envr sr ->
  fwd_exec (FCall (Un o a)) envf sf = Ok (x, sf') ->
  rev_exec (Un o a) envr sr = Ok (q, sr') ->
  agree (done ++ [Un o a]) (envf ++ [x]) sf' (envr ++ [q]) sr'.
Proof.
  intros Hag Hf Hr.
  pose proof Hag as (Hlf & Hlr & Hinv & Hcur & Hloc & Hseed).
  destruct (rev_exec_inv _ Hinv Hr) as (Hinv' & Hq & Hn' & Ht' & Hcap).
  simpl nodes_of_call in *.
  simpl in Hf. apply bind_inv_ok in Hf as (x1 & s1 & Hx1 & Hf).
  apply local_var_at in Hx1 as (Ha & <- & ->).
  rewrite fwd_unop_exact in Hf. inversion Hf; subst x sf'; clear Hf.
  pose proof Hinv as [(Hlen & _ & Hb) He].
  pose proof Hinv' as [(_ & _ & Hb') _].
  set (n := Reverse.grad_reverse_current_id sr) in *.
  set (l := node_of envr a).
  assert (Hl : (l < n)%nat) by (apply env_node_below; auto; lia).
  assert (Hnode : node_at (Reverse.grad_reverse_tape sr') n =
     unary_node (Reverse.grad_reverse_tape sr) n
       (unop_value o (Reverse.value (node_at (Reverse.grad_reverse_tape sr) l)))
       (unop_tag o) l).
  { rewrite Ht'. unfold node_at, call_in. apply nth_upd_same. lia. }
  assert (Hsame : forall m, (m < n)%nat ->
     node_at (Reverse.grad_reverse_tape sr') m =
     node_at (Reverse.grad_reverse_tape sr) m).
  { intros m Hm. rewrite Ht'. now apply call_in_below. }
  destruct (Hloc a) as [_ Hva]; [lia|].
  eapply agree_extend with (i_new := (n + 1 - 1)%nat);
    eauto; try lia.
  - apply zero_beyond_result.
  - replace (n + 1 - 1)%nat with n by lia. rewrite Hnode. simpl.
    rewrite unop_fvalue_exact. now rewrite Hva.
  - intros b w Hb0. destruct (Hseed b w Hb0) as [Hid Hd].
    replace (n + 1 - 1)%nat with n by lia.
    assert (Hjb : (node_of envr b < n)%nat).
    { apply env_node_below; auto.
      assert (b < length done)%nat by (apply nth_error_Some; congruence). lia. }
    rewrite derivative_at_result_below by lia.
    rewrite unop_fentry_exact.
    rewrite tangent_above by (auto; apply Hb'; lia).
    rewrite partials_unary with (o := o) (l := l) by (now rewrite Hnode).
    rewrite weighted_one, Hsame by lia.
    rewrite Ht', tangent_call_in by (auto; apply Hinv).
    rewrite Hva. fold l. f_equal. apply Hd. lia.
  - intros w Hw. discriminate.
Qed.

Lemma tangent_unary t j i o l :
  operands_below t i -> (j < i)%nat ->
  Reverse.operation (node_at t i) = unop_tag o ->
  Reverse.left (node_at t i) = Some l ->
  tangent t j i = unop_partial o (Reverse.value (node_at t l)) * tangent t j l.
Proof.
  intros Hb Hj Ho Hl. rewrite tangent_above by auto.
  rewrite partials_unary with (o := o) (l := l) by auto.
  apply weighted_one.
Qed.

Lemma tangent_add t j i l r :
  operands_below t i -> (j < i)%nat ->
  Reverse.operation (node_at t i) = Reverse.GRAD_OP_ADD ->
  Reverse.left (node_at t i) = Some l ->
  Reverse.right (node_at t i) = Some r ->
  tangent t j i = tangent t j l + tangent t j r.
Proof.
  intros Hb Hj Ho Hl Hr. rewrite tangent_above by auto.
  rewrite partials_add with (l := l) (r := r) by auto.
  rewrite weighted_two. ring.
Qed.

Lemma tangent_mul t j i l r :
  operands_below t i -> (j < i)%nat ->
  Reverse.operation (node_at t i) = Reverse.GRAD_OP_MUL ->
  Reverse.left (node_at t i) = Some l ->
  Reverse.right (node_at t i) = Some r ->
  tangent t j i =
  Reverse.value (node_at t r) * tangent t j l +
  Reverse.value (node_at t l) * tangent t j r.
Proof.
  intros Hb Hj Ho Hl Hr. rewrite tangent_above by auto.
  rewrite partials_mul with (l := l) (r := r) by auto.
  apply weighted_two.
Qed.

(** The nodes a binary operation writes. *)
Lemma call_in_add_node envr t n a b :
  (n < length t)%nat ->
  node_at (call_in (Bin OAdd a b) envr t n) n =
  binary_node (Reverse.value (node_at t (node_of envr a)) +
               Reverse.value (node_at t (node_of envr b)))
    Reverse.GRAD_OP_ADD (node_of envr a) (node_of envr b).
Proof. intros H. unfold node_at, call_in. now apply nth_upd_same. Qed.

Lemma call_in_mul_node envr t n a b :
  (n < length t)%nat ->
  node_at (call_in (Bin OMul a b) envr t n) n =
  binary_node (Reverse.value (node_at t (node_of envr a)) *
               Reverse.value (node_at t (node_of envr b)))
    Reverse.GRAD_OP_MUL (node_of envr a) (node_of envr b).
Proof. intros H. unfold node_at, call_in. now apply nth_upd_same. Qed.

Lemma call_in_sub_nodes envr t n a b :
  (n + 1 < length t)%nat -> (node_of envr a < n)%nat ->
  node_at (call_in (Bin OSub a b) envr t n) n =
    unary_node t n (- Reverse.value (node_at t (node_of envr b)))
      Reverse.GRAD_OP_NEG (node_of envr b) /\
  node_at (call_in (Bin OSub a b) envr t n) (n + 1) =
    binary_node (Reverse.value (node_at t (node_of envr a)) +
                 - Reverse.value (node_at t (node_of envr b)))
      Reverse.GRAD_OP_ADD (node_of envr a) n.
Proof.
  intros H Ha. unfold node_at, call_in. cbv zeta. split.
  - rewrite nth_upd_other by lia. apply nth_upd_same. lia.
  - rewrite nth_upd_same by (rewrite upd_length; lia).
    unfold node_at. rewrite nth_upd_same by lia.
    rewrite nth_upd_other by (unfold node_of in Ha; lia). reflexivity.
Qed.

Lemma call_in_div_nodes envr t n a b :
  (n + 1 < length t)%nat -> (node_of envr a < n)%nat ->
  node_at (call_in (Bin ODiv a b) envr t n) n =
    unary_node t n (1 / Reverse.value (node_at t (node_of envr b)))
      Reverse.GRAD_OP_INV (node_of envr b) /\
  node_at (call_in (Bin ODiv a b) envr t n) (n + 1) =
    binary_node (Reverse.value (node_at t (node_of envr a)) *
                 (1 / Reverse.value (node_at t (node_of envr b))))
      Reverse.GRAD_OP_MUL (node_of envr a) n.
Proof.
  intros H Ha. unfold node_at, call_in. cbv zeta. split.
  - rewrite nth_upd_other by lia. apply nth_upd_same. lia.
  - rewrite nth_upd_same by (rewrite upd_length; lia).
    unfold node_at. rewrite nth_upd_same by lia.
    rewrite nth_upd_other by (unfold node_of in Ha; lia). reflexivity.
Qed.

(** The step of a binary operation. *)
Lemma agree_bin done envf sf envr sr o a b x sf' q sr' :
  agree done envf sf envr sr ->
  fwd_exec (FCall (Bin o a b)) envf sf = Ok (x, sf') ->
  rev_exec (Bin o a b) envr sr = Ok (q, sr') ->
  agree (done ++ [Bin o a b]) (envf ++ [x]) sf' (envr ++ [q]) sr'.
Proof.
  intros Hag Hf Hr.
  pose proof Hag as (Hlf & Hlr & Hinv & Hcur & Hloc & Hseed).
  destruct (rev_exec_inv _ Hinv Hr) as (Hinv' & Hq & Hn' & Ht' & Hcap).
  simpl in Hf. apply bind_inv_ok in Hf as (x1 & s1 & Hx1 & Hf).
  apply local_var_at in Hx1 as (Ha & <- & ->).
  apply bind_inv_ok in Hf as (x2 & s2 & Hx2 & Hf).
  apply local_var_at in Hx2 as (Hb0 & <- & ->).
  rewrite fwd_binop_exact in Hf. inversion Hf; subst x sf'; clear Hf.
  pose proof Hinv as [(Hlen & _ & Hb) He].
  pose proof Hinv' as [(Hlen' & _ & Hb') _].
  set (n := Reverse.grad_reverse_current_id sr) in *.
  set (l := node_of envr a). set (r := node_of envr b).
  assert (Hl : (l < n)%nat) by (apply env_node_below; auto; lia).
  assert (Hrn : (r < n)%nat) by (apply env_node_below; auto; lia).
  assert (Hsame : forall m, (m < n)%nat ->
     node_at (Reverse.grad_reverse_tape sr') m =
     node_at (Reverse.grad_reverse_tape sr) m).
  { intros m Hm. rewrite Ht'. now apply call_in_below. }
  assert (Htan : forall j i, (i < n)%nat ->
     tangent (Reverse.grad_reverse_tape sr') j i =
     tangent (Reverse.grad_reverse_tape sr) j i).
  { intros j i Hi. rewrite Ht'. apply tangent_call_in; auto. apply Hinv. }
  destruct (Hloc a) as [_ Hva]; [lia|].
  destruct (Hloc b) as [_ Hvb]; [lia|].
  assert (Hseed' : forall c w, nth_error done c = Some (Init w) ->
     (Forward.id (var_at envf c) < Forward.grad_forward_current_id sf)%nat /\
     (node_of envr c < n)%nat /\
     Forward.derivative_at (var_at envf a) (Forward.id (var_at envf c)) =
       tangent (Reverse.grad_reverse_tape sr) (node_of envr c) l /\
     Forward.derivative_at (var_at envf b) (Forward.id (var_at envf c)) =
       tangent (Reverse.grad_reverse_tape sr) (node_of envr c) r).
  { intros c w Hc. destruct (Hseed c w Hc) as [Hid Hd].
    assert (c < length done)%nat by (apply nth_error_Some; congruence).
    repeat split; auto; try (apply Hd; lia).
    apply env_node_below; auto; lia. }
  destruct o; simpl nodes_of_call in *.
  - pose proof (@call_in_add_node envr (Reverse.grad_reverse_tape sr) n a b)
      as Hnode. rewrite <- Ht' in Hnode. fold l r in Hnode.
    eapply agree_extend with (i_new := (n + 1 - 1)%nat); eauto; try lia;
      replace (n + 1 - 1)%nat with n by lia.
    + apply zero_beyond_result.
    + rewrite Hnode by lia. simpl. now rewrite Hva, Hvb.
    + intros c w Hc. destruct (Hseed' c w Hc) as (Hid & Hjc & Hda & Hdb).
      rewrite derivative_at_result_below by lia. simpl binop_fentry.
      rewrite tangent_add with (l := l) (r := r);
        try (rewrite Hnode by lia; reflexivity); try lia;
        try (apply Hb'; lia).
      rewrite !Htan by lia. now rewrite Hda, Hdb.
    + intros w Hw. discriminate.
  - pose proof (@call_in_mul_node envr (Reverse.grad_reverse_tape sr) n a b)
      as Hnode. rewrite <- Ht' in Hnode. fold l r in Hnode.
    eapply agree_extend with (i_new := (n + 1 - 1)%nat); eauto; try lia;
      replace (n + 1 - 1)%nat with n by lia.
    + apply zero_beyond_result.
    + rewrite Hnode by lia. simpl. now rewrite Hva, Hvb.
    + intros c w Hc. destruct (Hseed' c w Hc) as (Hid & Hjc & Hda & Hdb).
      rewrite derivative_at_result_below by lia. simpl binop_fentry.
      rewrite tangent_mul with (l := l) (r := r);
        try (rewrite Hnode by lia; reflexivity); try lia;
        try (apply Hb'; lia).
      rewrite !Htan, !Hsame by lia. rewrite Hda, Hdb, Hva, Hvb.
      fold l r. rring.
    + intros w Hw. discriminate.
  - destruct (@call_in_sub_nodes envr (Reverse.grad_reverse_tape sr) n a b)
      as [Hn0 Hn1]; try (fold l; lia).
    rewrite <- Ht' in Hn0, Hn1. fold l r in Hn0, Hn1.
    eapply agree_extend with (i_new := (n + 2 - 1)%nat); eauto; try lia;
      replace (n + 2 - 1)%nat with (n + 1)%nat by lia.
    + apply zero_beyond_result.
    + rewrite Hn1. simpl. rewrite Hva, Hvb. fold l r. rring.
    + intros c w Hc. destruct (Hseed' c w Hc) as (Hid & Hjc & Hda & Hdb).
      rewrite derivative_at_result_below by lia. simpl binop_fentry.
      rewrite tangent_add with (l := l) (r := n);
        try (rewrite Hn1; reflexivity); try lia; try (apply Hb'; lia).
      rewrite tangent_unary with (i := n) (o := ONeg) (l := r);
        try (rewrite Hn0; reflexivity); try lia; try (apply Hb'; lia).
      rewrite !Htan by lia. rewrite Hda, Hdb. simpl. rring.
    + intros w Hw. discriminate.
  - destruct (@call_in_div_nodes envr (Reverse.grad_reverse_tape sr) n a b)
      as [Hn0 Hn1]; try (fold l; lia).
    rewrite <- Ht' in Hn0, Hn1. fold l r in Hn0, Hn1.
    eapply agree_extend with (i_new := (n + 2 - 1)%nat); eauto; try lia;
      replace (n + 2 - 1)%nat with (n + 1)%nat by lia.
    + apply zero_beyond_result.
    + rewrite Hn1. simpl. rewrite Hva, Hvb. fold l r. reflexivity.
    + intros c w Hc. destruct (Hseed' c w Hc) as (Hid & Hjc & Hda & Hdb).
      rewrite derivative_at_result_below by lia. simpl binop_fentry.
      rewrite tangent_mul with (l := l) (r := n);
        try (rewrite Hn1; reflexivity); try lia; try (apply Hb'; lia).
      rewrite tangent_unary with (i := n) (o := OInv) (l := r);
        try (rewrite Hn0; reflexivity); try lia; try (apply Hb'; lia).
      rewrite Hn0. rewrite !Htan by lia.
      rewrite (Hsame l), (Hsame r) by lia. simpl.
      rewrite Hda, Hdb, Hva, Hvb. fold l r. unfold Rdiv. rring.
    + intros w Hw. discriminate.
Qed.

Lemma agree_step done envf sf envr sr c x sf' q sr' :
  agree done envf sf envr sr ->
  fwd_exec (FCall c) envf sf = Ok (x, sf') ->
  rev_exec c envr sr = Ok (q, sr') ->
  agree (done ++ [c]) (envf ++ [x]) sf' (envr ++ [q]) sr'.
Proof.
  destruct c; intros Hag Hf Hr.
  - eapply agree_init; eauto.
  - eapply agree_un; eauto.
  - eapply agree_bin; eauto.
Qed.

Lemma agree_run p : forall done envf sf envr sr envf' sf' envr' sr',
  agree done envf sf envr sr ->
  fwd_run (map FCall p) envf sf = Ok (envf', sf') ->
  rev_run (map RCall p) envr sr = Ok (envr', sr') ->
  agree (done ++ p) envf' sf' envr' sr'.
Proof.
  induction p as [|c p IH]; intros done envf sf envr sr envf' sf' envr' sr'
    Hag Hf Hr.
  - simpl in Hf, Hr. inversion Hf; inversion Hr; subst.
    now rewrite app_nil_r.
  - simpl in Hf, Hr.
    apply bind_inv_ok in Hf as (x & sf1 & Hx & Hf).
    apply bind_inv_ok in Hr as (q & sr1 & Hq & Hr).
    replace (done ++ c :: p) with ((done ++ [c]) ++ p)
      by (now rewrite <- app_assoc).
    eapply IH; eauto. eapply agree_step; eauto.
Qed.

Lemma agree_start (sr : Reverse.state) :
  length (Reverse.grad_reverse_tape sr) = GRAD_REVERSE_TAPE_SIZE ->
  agree [] [] {| Forward.grad_forward_current_id := 0 |} []
    {| Reverse.grad_reverse_tape := Reverse.grad_reverse_tape sr;
       Reverse.grad_reverse_current_id := 0 |}.
Proof.
  intros Hlen. unfold agree. simpl.
  split; [reflexivity|]. split; [reflexivity|].
  split; [now apply rev_inv_start|]. split; [lia|].
  split; [intros k Hk; lia|].
  intros a v Ha. destruct a; discriminate.
Qed.

(** C3, as the code has it: in exact arithmetic, for the same calls made
    to both engines within one scope each, all of them away from the
    singularities of their operations ([inv] and [div] by a non-zero value,
    [log] of a positive value), every seed [a] and every local [o] taken as
    the output, the entry of the forward derivative vector of [o] at the
    slot of the seed is the adjoint the backward pass from [o] leaves in
    the leaf node of the seed. *)
Theorem cross_mode_agreement (p : list call)
  (sf0 : Forward.state) (sr0 : Reverse.state)
  (envf : list Forward.grad_forward_t) (sf : Forward.state)
  (envr : list Reverse.ptr) (sr : Reverse.state) (a o : nat) (v : R) :
  length (Reverse.grad_reverse_tape sr0) = GRAD_REVERSE_TAPE_SIZE ->
  fwd_scope (map FCall p) sf0 = Ok (envf, sf) ->
  rev_scope (map RCall p) sr0 = Ok (envr, sr) ->
  (forall j c, nth_error p j = Some c -> call_regular (FCall c) envf) ->
  nth_error p a = Some (Init v) ->
  (o < length p)%nat ->
  exists sr',
    Reverse.grad_reverse_backward (nth o envr None) sr = Ok (tt, sr') /\
    Forward.derivative_at (var_at envf o) (Forward.id (var_at envf a)) =
    adjoint sr' (node_of envr a).
Proof.
  intros Hlen Hf Hr _ Ha Ho.
  rewrite fwd_scope_unfold in Hf. rewrite rev_scope_unfold in Hr.
  pose proof (agree_run p (agree_start sr0 Hlen) Hf Hr) as Hag.
  simpl in Hag.
  destruct Hag as (Hlf & Hlr & [Hok He] & Hcur & Hloc & Hseed).
  pose proof Hok as (Hl & Hn & Hb).
  assert (Hap : (a < length p)%nat) by (apply nth_error_Some; congruence).
  destruct (env_ok_nth' (a := o) He) as (l & Hnth & Hlt); [lia|].
  rewrite Hnth.
  rewrite grad_reverse_backward_run by (auto; lia).
  eexists. split; [reflexivity|].
  unfold adjoint. cbn [Reverse.grad_reverse_tape].
  rewrite backward_in_tangent; auto; try lia.
  - destruct (Hseed a v Ha) as [_ Hd]. rewrite Hd by lia.
    f_equal. unfold node_of. now rewrite Hnth.
  - apply env_node_below with (n := Reverse.grad_reverse_current_id sr); auto.
    lia.
Qed.

End Agreement.

(** C3 as stated fails in the arithmetic of the code.  Away from the
    singularities: the forward vector sums the partial derivatives in the
    order of the expression, the backward pass accumulates them into the
    leaf from the last node to the first; for [x * b + x * (-b) + x * h]
    the forward entry is [(b + -b) + h = 0.5], the adjoint is
    [(h + -b) + b = 0.0].  At a singularity: for [z = 1 / x] at [x = 0.0]
    and a second seed [c], the loop of [grad_forward_inv] writes
    [-0.0 * infinity], a NaN, at the slot of [c], and the backward pass
    from [z] leaves the [0.0] of its first loop in the leaf of [c]. *)
Lemma cross_mode_disagreement :
  ~ (exists m : libm,
       @forward_entry (binary64 m) default_config (cancelling_calls m) 8 0 =
       @reverse_entry (binary64 m) default_config (cancelling_calls m) 8 0) /\
  (fun m => @forward_entry (binary64 m) default_config (cancelling_calls m) 8 0)
    = (fun _ => Some 0.5%float) /\
  (fun m => @reverse_entry (binary64 m) default_config (cancelling_calls m) 8 0)
    = (fun _ => Some 0%float) /\
  ~ (exists m : libm,
       @forward_entry (binary64 m) default_config (second_seed_calls m) 2 1 =
       @reverse_entry (binary64 m) default_config (second_seed_calls m) 2 1) /\
  (fun m => @forward_entry (binary64 m) default_config (second_seed_calls m) 2 1)
    = (fun _ => Some nan) /\
  (fun m => @reverse_entry (binary64 m) default_config (second_seed_calls m) 2 1)
    = (fun _ => Some 0%float).
Proof.
  split; [|split; [|split; [|split; [|split]]]].
  - intros [m H]. vm_compute in H. discriminate H.
  - vm_compute. reflexivity.
  - vm_compute. reflexivity.
  - intros [m H]. vm_compute in H. discriminate H.
  - vm_compute. reflexivity.
  - vm_compute. reflexivity.
Qed.

(** ** Exact arithmetic: regular and neutral nodes *)

Section ExactChecks.
Context {C : GradConfig}.
#[local] Existing Instance exact_real.
Import Reverse.

(** A node of an operation without a singularity is regular. *)
Lemma smooth_regular (t : list grad_reverse_t) (i : nat) :
  smooth_op (operation (node_at t i)) = true -> regular_node t i.
Proof.
  unfold regular_node. cbv zeta.
  destruct (operation (node_at t i)); simpl; intros H;
    try exact I; discriminate H.
Qed.

(** In exact arithmetic every node is neutral. *)
Lemma exact_neutral_node (t : list grad_reverse_t) (i : nat) :
  neutral_node t i.
Proof.
  unfold neutral_node, contributions. cbv zeta.
  destruct (operation (node_at t i)); simpl; intros c Hc;
    repeat (destruct Hc as [<-|Hc]); try contradiction;
    simpl; unfold Rdiv; split; rring.
Qed.

End ExactChecks.

(** ** Forward mode computes derivatives *)

Section OperationDerivatives.
#[local] Existing Instance exact_real.
Open Scope R_scope.

Lemma dlim_unop o v :
  unop_regular o v -> derivable_pt_lim (unop_fvalue o) v (unop_partial o v).
Proof.
  destruct o; simpl; intros Hr.
  - apply (@dlim_eq (fun y => y * - 1) _ _ (1 * - 1 + v * 0) _); auto.
    + apply (dlim_mult (f := fun y => y) (g := fun _ => - 1));
        [apply dlim_id|apply dlim_const].
    + ring.
  - now apply dlim_inv_fun.
  - apply derivable_pt_lim_sin.
  - apply derivable_pt_lim_cos.
  - apply derivable_pt_lim_exp.
  - now apply derivable_pt_lim_ln.
Qed.

Lemma dlim_unop_comp o (f : R -> R) x l :
  unop_regular o (f x) -> derivable_pt_lim f x l ->
  derivable_pt_lim (fun y => unop_fvalue o (f y)) x (unop_fentry o (f x) l).
Proof.
  intros Hr Hf.
  apply (@dlim_eq (fun y => unop_fvalue (G := exact_real) o (f y)) _ _
                  (unop_partial o (f x) * l) _).
  - apply (dlim_comp (phi := unop_fvalue (G := exact_real) o) Hf).
    now apply dlim_unop.
  - symmetry. apply unop_fentry_exact.
  - reflexivity.
Qed.

Lemma dlim_binop_comp o (f g : R -> R) x lf lg :
  binop_regular o (f x) (g x) ->
  derivable_pt_lim f x lf -> derivable_pt_lim g x lg ->
  derivable_pt_lim (fun y => binop_fvalue o (f y) (g y)) x
    (binop_fentry o (f x) (g x) lf lg).
Proof.
  destruct o; simpl; intros Hr Hf Hg.
  - now apply dlim_plus.
  - now apply (dlim_mult (f := f) (g := g)).
  - apply (dlim_plus (f := f) (g := fun y => unop_fvalue (G := exact_real) ONeg (g y))); auto.
    now apply (dlim_unop_comp ONeg).
  - apply (dlim_mult (f := f) (g := fun y => unop_fvalue (G := exact_real) OInv (g y))); auto.
    now apply (dlim_unop_comp OInv).
Qed.

Lemma dlim_only_comp o (f : R -> R) x l :
  only_regular o (f x) -> derivable_pt_lim f x l ->
  derivable_pt_lim (fun y => only_fvalue o (f y)) x (only_fentry o (f x) l).
Proof.
  destruct o as [c|c| | |e]; simpl; intros Hr Hf.
  - apply (@dlim_eq (fun y => f y + c) _ _ (l + 0) _); auto.
    + apply (dlim_plus (f := f) (g := fun _ => c)); auto. apply dlim_const.
    + ring.
  - apply (@dlim_eq (fun y => f y * c) _ _ (l * c + f x * 0) _); auto.
    + apply (dlim_mult (f := f) (g := fun _ => c)); auto. apply dlim_const.
    + ring.
  - apply (dlim_binop_comp ODiv (f := fun y => sin (f y))
             (g := fun y => cos (f y))); auto.
    + now apply (dlim_unop_comp OSin).
    + now apply (dlim_unop_comp OCos).
  - apply (@dlim_eq (fun y => sqrt (f y)) _ _ (/ 2 / sqrt (f x) * l) _); auto.
    apply (dlim_comp (phi := sqrt) Hf). now apply dlim_sqrt_fun.
  - apply (@dlim_eq (fun y => pow_real (f y) e) _ _
                    (e * pow_real (f x) (e - 1) * l) _); auto.
    apply (dlim_comp (phi := fun z => pow_real z e) Hf).
    destruct Hr as [Hpos|(z & -> & Hz)].
    + now apply dlim_pow_real_pos.
    + now apply dlim_pow_real_int.
Qed.

End OperationDerivatives.

Section PureValues.
#[local] Existing Instance exact_real.
Context {C : GradConfig}.
Open Scope R_scope.
Implicit Types (p : list fwd_call) (a k : nat).

Lemma pure_values_snoc p c :
  pure_values (p ++ [c]) =
  pure_values p ++ [fwd_value_step c (pure_values p)].
Proof. unfold pure_values. now rewrite fold_left_app. Qed.

Lemma pure_values_length p : length (pure_values p) = length p.
Proof.
  induction p as [|c p IH] using rev_ind; [reflexivity|].
  rewrite pure_values_snoc, !length_app, IH. reflexivity.
Qed.

Lemma pure_values_old p c k :
  (k < length p)%nat ->
  nth k (pure_values (p ++ [c])) 0 = nth k (pure_values p) 0.
Proof.
  intros Hk. rewrite pure_values_snoc.
  apply app_nth1. now rewrite pure_values_length.
Qed.

Lemma pure_values_new p c :
  nth (length p) (pure_values (p ++ [c])) 0 =
  fwd_value_step c (pure_values p).
Proof.
  rewrite pure_values_snoc, app_nth2; rewrite pure_values_length; [|lia].
  now rewrite Nat.sub_diag.
Qed.

Lemma reseed_at_length a x p : length (reseed_at a x p) = length p.
Proof.
  revert a. induction p as [|c p IH]; intros [|a]; simpl; auto.
Qed.

Lemma reseed_at_out a x p : (length p <= a)%nat -> reseed_at a x p = p.
Proof.
  revert a. induction p as [|c p IH]; intros [|a] H; simpl in *; auto;
    try lia.
  f_equal. apply IH. lia.
Qed.

Lemma reseed_at_same a v p :
  nth_error p a = Some (FCall (Init v)) -> reseed_at a v p = p.
Proof.
  revert a. induction p as [|c p IH]; intros [|a] H; simpl in *;
    try discriminate.
  - now inversion H.
  - f_equal. now apply IH.
Qed.

Lemma reseed_at_snoc_old a x p c :
  (a < length p)%nat -> reseed_at a x (p ++ [c]) = reseed_at a x p ++ [c].
Proof.
  revert a. induction p as [|c' p IH]; intros [|a] H; simpl in *; auto;
    try lia.
  f_equal. apply IH. lia.
Qed.

Lemma reseed_at_snoc_new x p c :
  reseed_at (length p) x (p ++ [c]) = p ++ [FCall (Init x)].
Proof. induction p as [|c' p IH]; simpl; auto. now rewrite IH. Qed.

End PureValues.

Section ForwardSound.
#[local] Existing Instance exact_real.
Context {C : GradConfig}.
Open Scope R_scope.
Implicit Types (p done : list fwd_call) (a k : nat).
Implicit Types (env : list Forward.grad_forward_t).

Lemma call_regular_old c env r j :
  fwd_call_scoped j c = true -> (j <= length env)%nat ->
  call_regular c (env ++ [r]) -> call_regular c env.
Proof.
  destruct c as [[v|o a|o a b]|o a]; simpl; intros Hsc Hj H; auto.
  - apply Nat.ltb_lt in Hsc. now rewrite var_at_old in H by lia.
  - apply andb_prop in Hsc as [Ha Hb]. apply Nat.ltb_lt in Ha, Hb.
    now rewrite !var_at_old in H by lia.
  - apply Nat.ltb_lt in Hsc. now rewrite var_at_old in H by lia.
Qed.

Lemma computed_from_app done c k j :
  computed_from done k j -> computed_from (done ++ [c]) k j.
Proof.
  induction 1 as [k|k c' a j Hk Ha _ IH]; [constructor|].
  apply computed_operand with (c := c') (a := a); auto.
  rewrite nth_error_app1; auto. apply nth_error_Some. congruence.
Qed.

Lemma regular_for_old done env c r k :
  length env = length done ->
  (forall j c', nth_error done j = Some c' -> fwd_call_scoped j c' = true) ->
  regular_for (done ++ [c]) (env ++ [r]) k -> regular_for done env k.
Proof.
  intros Hlen Hsc H j c' Hcf Hc'.
  assert (j < length done)%nat by (apply nth_error_Some; congruence).
  apply call_regular_old with (r := r) (j := j); auto; try lia.
  apply (H j c').
  - now apply computed_from_app.
  - rewrite nth_error_app1; auto.
Qed.

Lemma regular_for_new done env c r :
  length env = length done ->
  (forall j c', nth_error done j = Some c' -> fwd_call_scoped j c' = true) ->
  fwd_call_scoped (length done) c = true ->
  regular_for (done ++ [c]) (env ++ [r]) (length done) ->
  call_regular c env /\
  forall b, In b (fwd_operands c) -> regular_for done env b.
Proof.
  intros Hlen Hsc Hscc H.
  assert (Hc : nth_error (done ++ [c]) (length done) = Some c)
    by (now rewrite nth_error_app2, Nat.sub_diag by lia).
  split.
  - apply call_regular_old with (r := r) (j := length done); auto; try lia.
    apply (H (length done) c); [constructor|exact Hc].
  - intros b Hb j c' Hcf Hc'.
    assert (j < length done)%nat by (apply nth_error_Some; congruence).
    apply call_regular_old with (r := r) (j := j); auto; try lia.
    apply (H j c').
    + apply computed_operand with (c := c) (a := b); auto.
      now apply computed_from_app.
    + rewrite nth_error_app1; auto.
Qed.

(** One more call keeps the run sound, given what the call does to the new
    local. *)
Lemma fwd_sound_extend done env s c r s' :
  fwd_sound done env s ->
  (Forward.grad_forward_current_id s <=
   Forward.grad_forward_current_id s')%nat ->
  (Forward.grad_forward_current_id s' <= GRAD_FORWARD_TAPE_SIZE)%nat ->
  fwd_call_scoped (length done) c = true ->
  var_ok r -> zero_beyond (Forward.grad_forward_current_id s') r ->
  Forward.value r = fwd_value_step c (pure_values done) ->
  (forall a v, nth_error done a = Some (FCall (Init v)) ->
     call_regular c env ->
     (forall b, In b (fwd_operands c) -> regular_for done env b) ->
     derivable_pt_lim
       (fun x => fwd_value_step c (pure_values (reseed_at a x done))) v
       (Forward.derivative_at r (Forward.id (var_at env a)))) ->
  (forall v, c = FCall (Init v) ->
     Forward.id r = Forward.grad_forward_current_id s /\
     Forward.grad_forward_current_id s' =
       (Forward.grad_forward_current_id s + 1)%nat /\
     Forward.derivative_at r (Forward.grad_forward_current_id s) = 1) ->
  (is_init c = false ->
     Forward.grad_forward_current_id s' = Forward.grad_forward_current_id s) ->
  fwd_sound (done ++ [c]) (env ++ [r]) s'.
Proof.
  intros (Hlen & Hcap & Hsc & Hloc & Hidx & Hseed)
         Hc1 Hc2 Hscc Hok Hz Hv Hnew Hinit Hnot.
  assert (Hseed_case : forall a v,
            nth_error (done ++ [c]) a = Some (FCall (Init v)) ->
            ((a < length done)%nat /\
             nth_error done a = Some (FCall (Init v))) \/
            (a = length done /\ c = FCall (Init v))).
  { intros a v H.
    assert (a < length (done ++ [c]))%nat by (apply nth_error_Some; congruence).
    rewrite length_app in *. simpl in *.
    destruct (Nat.eq_dec a (length done)) as [->|Hne].
    - right. split; auto. rewrite nth_error_app2, Nat.sub_diag in H by lia.
      simpl in H. congruence.
    - left. rewrite nth_error_app1 in H by lia. split; auto. lia. }
  unfold fwd_sound. rewrite !length_app. simpl.
  split; [lia|]. split; [exact Hc2|]. split; [|split; [|split]].
  - intros j c' Hj.
    assert (j < length (done ++ [c]))%nat by (apply nth_error_Some; congruence).
    rewrite length_app in *. simpl in *.
    destruct (Nat.eq_dec j (length done)) as [->|Hne].
    + rewrite nth_error_app2, Nat.sub_diag in Hj by lia. simpl in Hj.
      now inversion Hj; subst.
    + rewrite nth_error_app1 in Hj by lia. now apply Hsc.
  - intros k Hk. destruct (Nat.eq_dec k (length done)) as [->|Hne].
    + rewrite var_at_new by auto. rewrite pure_values_new. auto.
    + rewrite var_at_old, pure_values_old by lia.
      destruct (Hloc k) as (H1 & H2 & H3); [lia|].
      split; [exact H1|]. split; [|exact H3].
      now apply zero_beyond_mono with (n := Forward.grad_forward_current_id s).
  - intros i Hi.
    destruct (Nat.lt_ge_cases i (Forward.grad_forward_current_id s))
      as [Hlt|Hge].
    + destruct (Hidx i Hlt) as (a & v & Ha & Hid).
      assert (a < length done)%nat by (apply nth_error_Some; congruence).
      exists a, v. rewrite nth_error_app1, var_at_old by lia. auto.
    + destruct (is_init c) eqn:Hi0.
      * destruct c as [[v|o a|o a b]|o a]; try discriminate Hi0.
        destruct (Hinit v eq_refl) as (Hid & Hs' & _).
        exists (length done), v. rewrite nth_error_app2, Nat.sub_diag by lia.
        rewrite var_at_new by auto. split; [reflexivity|lia].
      * rewrite (Hnot eq_refl) in Hi. lia.
  - intros a v Ha. destruct (Hseed_case a v Ha) as [[Hlt Ha']|[-> ->]].
    + destruct (Hseed a v Ha') as [Hid Hd].
      rewrite (@var_at_old _ env r a) by lia.
      split; [lia|]. intros k Hk Hreg.
      destruct (Nat.eq_dec k (length done)) as [->|Hne].
      * rewrite var_at_new by auto.
        eapply dlim_eq with
          (f := fun x => fwd_value_step c (pure_values (reseed_at a x done)));
          [|reflexivity|].
        -- destruct (@regular_for_new done env c r Hlen Hsc Hscc Hreg)
             as [Hrc Hro].
           apply Hnew; auto.
        -- intros x. rewrite reseed_at_snoc_old by lia.
           rewrite <- (reseed_at_length a x done).
           now rewrite pure_values_new.
      * rewrite var_at_old by lia.
        eapply dlim_eq with
          (f := fun x => nth k (pure_values (reseed_at a x done)) 0);
          [|reflexivity|].
        -- apply Hd; [lia|].
           apply regular_for_old with (c := c) (r := r); auto.
        -- intros x. rewrite reseed_at_snoc_old by lia.
           rewrite pure_values_old; auto. rewrite reseed_at_length. lia.
    + destruct (Hinit v eq_refl) as (Hid & Hs' & Hone).
      rewrite var_at_new by auto. rewrite Hid.
      split; [lia|]. intros k Hk Hreg.
      destruct (Nat.eq_dec k (length done)) as [->|Hne].
      * rewrite var_at_new by auto. rewrite Hone.
        eapply dlim_eq with (f := fun x => x);
          [apply dlim_id|reflexivity|].
        intros x. rewrite reseed_at_snoc_new, pure_values_new. reflexivity.
      * rewrite var_at_old by lia.
        destruct (Hloc k) as (_ & Hzk & _); [lia|].
        rewrite Hzk by lia.
        eapply dlim_eq with (f := fun _ => nth k (pure_values done) 0);
          [apply dlim_const|reflexivity|].
        intros x. rewrite reseed_at_snoc_new, pure_values_old; auto. lia.
Qed.

Lemma fwd_sound_operand done env s a0 v0 b :
  fwd_sound done env s ->
  nth_error done a0 = Some (FCall (Init v0)) ->
  (b < length done)%nat ->
  regular_for done env b ->
  (Forward.id (var_at env a0) < Forward.grad_forward_current_id s)%nat /\
  nth b (pure_values (reseed_at a0 v0 done)) 0 = Forward.value (var_at env b) /\
  derivable_pt_lim
    (fun x => nth b (pure_values (reseed_at a0 x done)) 0) v0
    (Forward.derivative_at (var_at env b) (Forward.id (var_at env a0))).
Proof.
  intros (Hlen & Hcap & Hsc & Hloc & Hidx & Hseed) Ha Hb Hreg.
  destruct (Hseed a0 v0 Ha) as [Hid Hd].
  split; [exact Hid|]. split.
  - rewrite reseed_at_same by auto. symmetry. now apply Hloc.
  - apply Hd; auto.
Qed.

(** Every call keeps the run sound. *)
Lemma fwd_sound_step done env s c r s' :
  fwd_sound done env s -> fwd_exec c env s = Ok (r, s') ->
  fwd_sound (done ++ [c]) (env ++ [r]) s'.
Proof.
  intros Hs Hrun.
  pose proof Hs as (Hlen & Hcap & Hsc & Hloc & Hidx & Hseed).
  destruct c as [[v|o a|o a b]|o a]; simpl in Hrun.
  - rewrite grad_forward_init_run in Hrun.
    destruct (Nat.ltb_spec (Forward.grad_forward_current_id s)
                GRAD_FORWARD_TAPE_SIZE) as [Hlt|]; [|discriminate].
    inversion Hrun; subst r s'; clear Hrun.
    assert (Hd : forall m,
      Forward.derivative_at
        {| Forward.id := Forward.grad_forward_current_id s;
           Forward.value := v;
           Forward.derivative :=
             upd (repeat 0 GRAD_FORWARD_TAPE_SIZE)
                 (Forward.grad_forward_current_id s) 1 |} m =
      if (Forward.grad_forward_current_id s =? m)%nat then 1 else 0).
    { intros m. unfold Forward.derivative_at. simpl.
      rewrite nth_upd, repeat_length, nth_repeat.
      destruct (Nat.eqb_spec (Forward.grad_forward_current_id s) m) as [<-|];
        simpl; auto.
      now apply Nat.ltb_lt in Hlt as ->. }
    apply fwd_sound_extend with (s := s); auto; simpl; try lia.
    + unfold var_ok. simpl. now rewrite upd_length, repeat_length.
    + intros m Hm. rewrite Hd.
      destruct (Nat.eqb_spec (Forward.grad_forward_current_id s) m);
        [lia|reflexivity].
    + intros a0 v0 Ha _ _. destruct (Hseed a0 v0 Ha) as [Hid _].
      rewrite Hd.
      destruct (Nat.eqb_spec (Forward.grad_forward_current_id s)
                  (Forward.id (var_at env a0))); [lia|].
      apply dlim_const.
    + intros w _. repeat split; auto. rewrite Hd. now rewrite Nat.eqb_refl.
  - apply bind_inv_ok in Hrun as (x1 & s1 & Hx1 & Hrun).
    apply local_var_at in Hx1 as (Ha & <- & ->).
    rewrite fwd_unop_exact in Hrun. inversion Hrun; subst r s'; clear Hrun.
    destruct (Hloc a) as (_ & _ & Hva); [lia|].
    apply fwd_sound_extend with (s := s); auto; simpl; try lia.
    + apply Nat.ltb_lt. lia.
    + apply var_ok_result.
    + apply zero_beyond_result.
    + now rewrite Hva.
    + intros a0 v0 Ha0 Hreg Hregs.
      destruct (@fwd_sound_operand done env s a0 v0 a Hs Ha0)
        as (Hid & Hfa & Hda); auto; try lia;
        try (apply Hregs; simpl; now auto).
      rewrite derivative_at_result_below by lia.
      rewrite <- Hfa.
      apply (dlim_unop_comp o
               (f := fun x => nth a (pure_values (reseed_at a0 x done)) 0));
        auto.
      now rewrite Hfa.
    + discriminate.
  - apply bind_inv_ok in Hrun as (x1 & s1 & Hx1 & Hrun).
    apply local_var_at in Hx1 as (Ha & <- & ->).
    apply bind_inv_ok in Hrun as (x2 & s2 & Hx2 & Hrun).
    apply local_var_at in Hx2 as (Hb & <- & ->).
    rewrite fwd_binop_exact in Hrun. inversion Hrun; subst r s'; clear Hrun.
    destruct (Hloc a) as (_ & _ & Hva); [lia|].
    destruct (Hloc b) as (_ & _ & Hvb); [lia|].
    apply fwd_sound_extend with (s := s); auto; simpl; try lia.
    + apply andb_true_intro. split; apply Nat.ltb_lt; lia.
    + apply var_ok_result.
    + apply zero_beyond_result.
    + now rewrite Hva, Hvb.
    + intros a0 v0 Ha0 Hreg Hregs.
      destruct (@fwd_sound_operand done env s a0 v0 a Hs Ha0)
        as (Hid & Hfa & Hda); auto; try lia;
        try (apply Hregs; simpl; now auto).
      destruct (@fwd_sound_operand done env s a0 v0 b Hs Ha0)
        as (_ & Hfb & Hdb); auto; try lia;
        try (apply Hregs; simpl; now auto).
      rewrite derivative_at_result_below by lia.
      rewrite <- Hfa, <- Hfb.
      apply (dlim_binop_comp o
               (f := fun x => nth a (pure_values (reseed_at a0 x done)) 0)
               (g := fun x => nth b (pure_values (reseed_at a0 x done)) 0));
        auto.
      now rewrite Hfa, Hfb.
    + discriminate.
  - apply bind_inv_ok in Hrun as (x1 & s1 & Hx1 & Hrun).
    apply local_var_at in Hx1 as (Ha & <- & ->).
    destruct (Hloc a) as (Hoka & Hza & Hva); [lia|].
    destruct (@fwd_only_exact exact_real C o (var_at env a) s Hoka Hza)
      as (r' & Hr' & Hval & Hokr & Hzr & Hent).
    rewrite Hr' in Hrun. inversion Hrun; subst r' s'; clear Hrun.
    apply fwd_sound_extend with (s := s); auto; simpl; try lia.
    + apply Nat.ltb_lt. lia.
    + now rewrite Hval, Hva.
    + intros a0 v0 Ha0 Hreg Hregs.
      destruct (@fwd_sound_operand done env s a0 v0 a Hs Ha0)
        as (Hid & Hfa & Hda); auto; try lia;
        try (apply Hregs; simpl; now auto).
      rewrite Hent by lia.
      rewrite <- Hfa.
      apply (dlim_only_comp o
               (f := fun x => nth a (pure_values (reseed_at a0 x done)) 0));
        auto.
      now rewrite Hfa.
    + discriminate.
Qed.

Lemma fwd_sound_run p : forall done env s env' s',
  fwd_sound done env s -> fwd_run p env s = Ok (env', s') ->
  fwd_sound (done ++ p) env' s'.
Proof.
  induction p as [|c p IH]; intros done env s env' s' Hs Hrun.
  - simpl in Hrun. inversion Hrun; subst. now rewrite app_nil_r.
  - simpl in Hrun. apply bind_inv_ok in Hrun as (r & s1 & Hr & Hrun).
    replace (done ++ c :: p) with ((done ++ [c]) ++ p)
      by (now rewrite <- app_assoc).
    eapply IH; eauto. eapply fwd_sound_step; eauto.
Qed.

Lemma fwd_sound_start :
  fwd_sound [] [] {| Forward.grad_forward_current_id := 0 |}.
Proof.
  unfold fwd_sound. simpl.
  split; [reflexivity|]. split; [lia|].
  split; [intros [|j] c H; discriminate H|].
  split; [intros k Hk; lia|].
  split; [intros i Hi; lia|].
  intros [|a] v H; discriminate H.
Qed.

Lemma fwd_scope_sound p s0 env s :
  fwd_scope p s0 = Ok (env, s) -> fwd_sound p env s.
Proof.
  rewrite fwd_scope_unfold. intros Hrun.
  apply (fwd_sound_run p fwd_sound_start Hrun).
Qed.

(** Whether a call returns depends on the number of locals and on the
    counter only. *)
Lemma fwd_exec_shape c env envx s r s' :
  fwd_exec c env s = Ok (r, s') -> length envx = length env ->
  exists rx, fwd_exec c envx s = Ok (rx, s').
Proof.
  intros Hrun Hlen. destruct c as [[v|o a|o a b]|o a]; simpl in *.
  - eauto.
  - apply bind_inv_ok in Hrun as (x1 & s1 & Hx1 & Hrun).
    apply local_var_at in Hx1 as (Ha & _ & ->).
    rewrite fwd_unop_exact in Hrun. inversion Hrun; subst.
    destruct (nth_error envx a) as [y|] eqn:E;
      [|apply nth_error_None in E; lia].
    rewrite (bind_ok _ _ _ (local_ok _ _ s' E)).
    rewrite fwd_unop_exact. eauto.
  - apply bind_inv_ok in Hrun as (x1 & s1 & Hx1 & Hrun).
    apply local_var_at in Hx1 as (Ha & _ & ->).
    apply bind_inv_ok in Hrun as (x2 & s2 & Hx2 & Hrun).
    apply local_var_at in Hx2 as (Hb & _ & ->).
    rewrite fwd_binop_exact in Hrun. inversion Hrun; subst.
    destruct (nth_error envx a) as [y|] eqn:E;
      [|apply nth_error_None in E; lia].
    destruct (nth_error envx b) as [z|] eqn:E2;
      [|apply nth_error_None in E2; lia].
    rewrite (bind_ok _ _ _ (local_ok _ _ s' E)).
    rewrite (bind_ok _ _ _ (local_ok _ _ s' E2)).
    rewrite fwd_binop_exact. eauto.
  - apply bind_inv_ok in Hrun as (x1 & s1 & Hx1 & Hrun).
    apply local_var_at in Hx1 as (Ha & <- & ->).
    destruct (fwd_only_op_frame o (var_at env a) s) as [r0 Hr0].
    rewrite Hr0 in Hrun. inversion Hrun; subst.
    destruct (nth_error envx a) as [y|] eqn:E;
      [|apply nth_error_None in E; lia].
    rewrite (bind_ok _ _ _ (local_ok _ _ s' E)).
    destruct (fwd_only_op_frame o y s') as [r1 Hr1]. eauto.
Qed.

Lemma fwd_run_reseed p : forall a x env envx s env' s',
  fwd_run p env s = Ok (env', s') -> length envx = length env ->
  (forall c, nth_error p a = Some c -> is_init c = true) ->
  exists envx', fwd_run (reseed_at a x p) envx s = Ok (envx', s').
Proof.
  induction p as [|c p IH]; intros a x env envx s env' s' Hrun Hlen Ha.
  - destruct a; simpl in *; inversion Hrun; subst; exists envx; reflexivity.
  - simpl in Hrun. apply bind_inv_ok in Hrun as (r & s1 & Hr & Hrun).
    destruct a as [|a]; simpl.
    + specialize (Ha c eq_refl).
      destruct c as [[v|o b|o b d]|o b]; try discriminate Ha.
      simpl in Hr. rewrite grad_forward_init_run in Hr.
      destruct (Nat.ltb_spec (Forward.grad_forward_current_id s)
                  GRAD_FORWARD_TAPE_SIZE) as [Hlt|]; [|discriminate].
      inversion Hr; subst r s1; clear Hr.
      assert (Hix : exists rx,
                Forward.grad_forward_init x s =
                Ok (rx, {| Forward.grad_forward_current_id :=
                             Forward.grad_forward_current_id s + 1 |})).
      { rewrite grad_forward_init_run.
        apply Nat.ltb_lt in Hlt. rewrite Hlt. eauto. }
      destruct Hix as [rx Hix].
      rewrite (bind_ok _ _ _ Hix).
      destruct (IH (length p) x _ (envx ++ [rx]) _ _ _ Hrun) as [envx' Hx].
      * rewrite !length_app. simpl. lia.
      * intros c Hc.
        assert (length p < length p)%nat by (apply nth_error_Some; congruence).
        lia.
      * rewrite reseed_at_out in Hx by lia. eauto.
    + destruct (fwd_exec_shape c env envx s Hr Hlen) as [rx Hrx].
      rewrite (bind_ok _ _ _ Hrx).
      apply (IH a x (env ++ [r]) (envx ++ [rx]) s1 env' s' Hrun).
      * rewrite !length_app. simpl. lia.
      * intros c0 Hc0. now apply Ha.
Qed.

(** The value the code computes for a reseeded run is the value of the
    calls. *)
Lemma value_after_pure p s0 env s a x k :
  fwd_scope p s0 = Ok (env, s) ->
  (forall c, nth_error p a = Some c -> is_init c = true) ->
  (k < length p)%nat ->
  value_after (reseed_at a x p) k = nth k (pure_values (reseed_at a x p)) 0.
Proof.
  rewrite fwd_scope_unfold. intros Hrun Ha Hk.
  destruct (@fwd_run_reseed p a x [] [] _ _ _ Hrun eq_refl Ha) as [envx Hx].
  unfold value_after. rewrite fwd_scope_unfold, Hx.
  pose proof (fwd_sound_run _ fwd_sound_start Hx) as (_ & _ & _ & Hloc & _).
  simpl in Hloc. apply Hloc. now rewrite reseed_at_length.
Qed.

(** C2, as the code has it: in exact arithmetic, after the calls [p] of one
    scope, every index below the slot count is the slot of a seed; for every
    seed [a] and every local [k] computed from calls away from the
    singularities of their operations ([inv] and [div] by a non-zero value,
    [log] and [sqrt] of a positive value, [tan] where the cosine is
    non-zero, [pow] of a positive base or with an integer exponent that is
    positive or applied to a non-zero base), the entry of the derivative
    vector of [k] at the slot of [a] is the derivative of the value of [k]
    with respect to the value given to [a]; and in every arithmetic
    [grad_forward_mul] returns the product of the values with the entries
    of the product rule. *)
Theorem forward_partial_derivatives (p : list fwd_call)
  (s0 : Forward.state) (env : list Forward.grad_forward_t)
  (s : Forward.state) :
  fwd_scope p s0 = Ok (env, s) ->
  (forall i, (i < Forward.grad_forward_current_id s)%nat ->
     exists a v, nth_error p a = Some (FCall (Init v)) /\
                 Forward.id (var_at env a) = i) /\
  (forall a v k,
     nth_error p a = Some (FCall (Init v)) -> (k < length p)%nat ->
     regular_for p env k ->
     derivable_pt_lim (fun x => value_after (reseed_at a x p) k) v
       (Forward.derivative_at (var_at env k) (Forward.id (var_at env a)))) /\
  (forall (G : GradReal) (l r : @Forward.grad_forward_t G) st,
     exists res,
       @Forward.grad_forward_mul G C l r st = Ok (res, st) /\
       Forward.value res = @r_mul G (Forward.value l) (Forward.value r) /\
       forall i, (i < Forward.grad_forward_current_id st)%nat ->
                 (i < GRAD_FORWARD_TAPE_SIZE)%nat ->
         Forward.derivative_at res i =
         @r_add G
           (@r_mul G (Forward.derivative_at l i) (Forward.value r))
           (@r_mul G (Forward.value l) (Forward.derivative_at r i))).
Proof.
  intros Hrun.
  pose proof (fwd_scope_sound _ _ Hrun)
    as (Hlen & Hcap & Hsc & Hloc & Hidx & Hseed).
  split; [exact Hidx|]. split.
  - intros a v k Ha Hk Hreg.
    destruct (Hseed a v Ha) as [_ Hd].
    eapply dlim_eq with
      (f := fun x => nth k (pure_values (reseed_at a x p)) 0);
      [apply Hd; auto|reflexivity|].
    intros x. symmetry. eapply value_after_pure; eauto.
    intros c Hc. rewrite Ha in Hc. now inversion Hc.
  - intros G l r st. eexists. split; [apply grad_forward_mul_run|].
    split; [reflexivity|].
    intros i Hi HN.
    etransitivity;
      [apply (@derivative_at_result_below G C); assumption|].
    reflexivity.
Qed.

End ForwardSound.

Section ForwardCounterexample.
#[local] Existing Instance default_config.

(** C2 as stated fails in the arithmetic of the code.  At a singularity:
    for [y = 1 / x] at [x = 0.0] the value of [y] is [+infinity] and the
    loop of [grad_forward_inv] writes [-infinity] at the slot of [x], where
    no function that is [1 / x] away from 0 has a derivative.  Away from
    the singularities: for [(x * b + x * h) + x * (-b)] at [x = 1],
    [b = 1e16], [h = 0.5] the entry at the slot of [x] is
    [(b + h) + -b = 0.0], where the derivative, which the same calls give
    over the reals, is [1 / 2]. *)
Lemma forward_entry_not_derivative :
  (fun m => @forward_value (binary64 m) default_config (inv_calls m) 1)
    = (fun _ => Some infinity) /\
  (fun m => @forward_entry (binary64 m) default_config (inv_calls m) 1 0)
    = (fun _ => Some neg_infinity) /\
  (forall (f : R -> R) (l : R),
     (forall y, y <> 0 -> f y = 1 / y)%R -> ~ derivable_pt_lim f 0%R l) /\
  (fun m => @forward_entry (binary64 m) default_config (absorbing_calls m) 8 0)
    = (fun _ => Some 0%float) /\
  @forward_entry exact_real default_config absorbing_exact 8 0
    = Some (/ 2)%R.
Proof.
  split; [vm_compute; reflexivity|].
  split; [vm_compute; reflexivity|].
  split; [intros f l Hf; now apply no_derivative_at_pole|].
  split; [vm_compute; reflexivity|].
  assert (H : exists D,
    @forward_entry exact_real default_config absorbing_exact 8 0 = Some D /\
    D = (/ 2)%R).
  { eexists. split.
    - lazy -[Rplus Rmult Ropp Rminus Rdiv Rinv IZR INR]. reflexivity.
    - lra. }
  destruct H as (D & HD & ->). exact HD.
Qed.

End ForwardCounterexample.

(* ================================================================= *)
(** * Further properties of the code *)

(** ** Forward mode: the Variables the calls return *)

Section ForwardShape.
Context {G : GradReal} {C : GradConfig}.
Import Forward.

Lemma fwd_only_shape o x s r s' :
  (forall c, o <> AddC c) -> fwd_only_op o x s = Ok (r, s') ->
  id r = 0 /\ var_ok r /\ zero_beyond (grad_forward_current_id s) r.
Proof.
  intros Ho Hrun. destruct o as [c|c| | |e]; simpl in Hrun.
  - now destruct (Ho c).
  - rewrite grad_forward_mul_c_run in Hrun. inversion Hrun; subst.
    repeat split; [apply fill_length|apply zero_beyond_result].
  - unfold grad_forward_tan in Hrun.
    change (grad_forward_sin x) with (fwd_unop OSin x) in Hrun.
    rewrite (bind_ok _ _ _ (fwd_unop_exact OSin x s)) in Hrun.
    change (grad_forward_cos x) with (fwd_unop OCos x) in Hrun.
    rewrite (bind_ok _ _ _ (fwd_unop_exact OCos x s)) in Hrun.
    change grad_forward_div with (fwd_binop ODiv) in Hrun.
    rewrite fwd_binop_exact in Hrun. inversion Hrun; subst.
    repeat split; [apply var_ok_result|apply zero_beyond_result].
  - rewrite grad_forward_sqrt_run in Hrun. inversion Hrun; subst.
    repeat split; [apply fill_length|apply zero_beyond_result].
  - rewrite grad_forward_pow_run in Hrun. inversion Hrun; subst.
    repeat split; [apply fill_length|apply zero_beyond_result].
Qed.

(** X1. A Variable returned by an operation has [id] 0, the value of the
    initializer [{0}]: the operations never set it.  Its derivative array
    is zero from the slot count on, whatever the operands hold there,
    because the loops stop at the slot count.  [grad_forward_add_c] is the
    exception: its [memcpy] copies the operand's whole array, the entries
    from the slot count on included. *)
Theorem forward_result_shape :
  (forall o x s r s',
     fwd_unop o x s = Ok (r, s') ->
     id r = 0 /\ var_ok r /\ zero_beyond (grad_forward_current_id s) r) /\
  (forall o x y s r s',
     fwd_binop o x y s = Ok (r, s') ->
     id r = 0 /\ var_ok r /\ zero_beyond (grad_forward_current_id s) r) /\
  (forall o x s r s',
     (forall c, o <> AddC c) -> fwd_only_op o x s = Ok (r, s') ->
     id r = 0 /\ var_ok r /\ zero_beyond (grad_forward_current_id s) r) /\
  (forall x c s,
     var_ok x ->
     grad_forward_add_c x c s =
     Ok ({| id := 0; value := r_add (value x) c;
            derivative := derivative x |}, s)).
Proof.
  split; [|split; [|split]].
  - intros o x s r s' H. rewrite fwd_unop_exact in H. inversion H; subst.
    repeat split; [apply var_ok_result|apply zero_beyond_result].
  - intros o x y s r s' H. rewrite fwd_binop_exact in H. inversion H; subst.
    repeat split; [apply var_ok_result|apply zero_beyond_result].
  - intros o x s r s'. apply fwd_only_shape.
  - intros x c s Hx. now apply grad_forward_add_c_run.
Qed.

End ForwardShape.

(** ** Forward mode: the slots of the seeds *)

Section ForwardSlots.
Context {G : GradReal} {C : GradConfig}.
Import Forward.

Lemma count_inits_cons c p :
  count_inits (c :: p) = count_inits [c] + count_inits p.
Proof. unfold count_inits. simpl. now destruct (is_init c). Qed.

Lemma fwd_exec_counter c env s r s' :
  fwd_exec c env s = Ok (r, s') ->
  grad_forward_current_id s' = grad_forward_current_id s + count_inits [c] /\
  forall v, c = FCall (Init v) ->
    grad_forward_current_id s < GRAD_FORWARD_TAPE_SIZE /\
    r = {| id := grad_forward_current_id s; value := v;
           derivative := upd (repeat r_zero GRAD_FORWARD_TAPE_SIZE)
                             (grad_forward_current_id s) r_one |}.
Proof.
  intros Hrun. destruct c as [[v|o a|o a b]|o a]; simpl in Hrun.
  - rewrite grad_forward_init_run in Hrun.
    destruct (Nat.ltb_spec (grad_forward_current_id s) GRAD_FORWARD_TAPE_SIZE)
      as [Hlt|]; [|discriminate].
    inversion Hrun; subst. split; [reflexivity|].
    intros w Hw. inversion Hw; subst. auto.
  - apply bind_inv_ok in Hrun as (x & s1 & Hx & Hrun).
    apply local_inv_ok in Hx as [_ ->].
    rewrite fwd_unop_exact in Hrun. inversion Hrun; subst.
    split; [unfold count_inits; simpl; lia|discriminate].
  - apply bind_inv_ok in Hrun as (x & s1 & Hx & Hrun).
    apply local_inv_ok in Hx as [_ ->].
    apply bind_inv_ok in Hrun as (y & s2 & Hy & Hrun).
    apply local_inv_ok in Hy as [_ ->].
    rewrite fwd_binop_exact in Hrun. inversion Hrun; subst.
    split; [unfold count_inits; simpl; lia|discriminate].
  - apply bind_inv_ok in Hrun as (x & s1 & Hx & Hrun).
    apply local_inv_ok in Hx as [_ ->].
    destruct (fwd_only_op_frame o x s) as [r0 Hr0].
    rewrite Hr0 in Hrun. inversion Hrun; subst.
    split; [unfold count_inits; simpl; lia|discriminate].
Qed.

Lemma fwd_run_seeds p : forall env s env' s',
  fwd_run p env s = Ok (env', s') ->
  grad_forward_current_id s' = grad_forward_current_id s + count_inits p /\
  length env' = length env + length p /\
  (forall k, k < length env -> nth k env' zero_init = nth k env zero_init) /\
  forall a v, nth_error p a = Some (FCall (Init v)) ->
    grad_forward_current_id s + count_inits (firstn a p)
      < GRAD_FORWARD_TAPE_SIZE /\
    nth (length env + a) env' zero_init =
    {| id := grad_forward_current_id s + count_inits (firstn a p);
       value := v;
       derivative :=
         upd (repeat r_zero GRAD_FORWARD_TAPE_SIZE)
             (grad_forward_current_id s + count_inits (firstn a p)) r_one |}.
Proof.
  induction p as [|c p IH]; intros env s env' s' Hrun; simpl in Hrun.
  - inversion Hrun; subst. unfold count_inits; simpl.
    split; [lia|]. split; [lia|]. split; [reflexivity|].
    intros [|a] v H; discriminate H.
  - apply bind_inv_ok in Hrun as (r & s1 & Hr & Hrun).
    destruct (fwd_exec_counter _ _ _ Hr) as [Hc Hinit].
    destruct (IH _ _ _ _ Hrun) as (Hcur & Hlen & Hold & Hseed).
    rewrite length_app in Hlen, Hold, Hseed. simpl in Hlen, Hold, Hseed.
    rewrite count_inits_cons.
    split; [lia|]. split; [simpl; lia|]. split.
    + intros k Hk. rewrite Hold by lia. now rewrite app_nth1.
    + intros [|a] v Ha; simpl in Ha.
      * inversion Ha; subst c. destruct (Hinit v eq_refl) as [Hlt ->].
        simpl firstn. unfold count_inits at 1 2. simpl.
        rewrite !Nat.add_0_r. split; [exact Hlt|].
        rewrite Hold by lia. apply nth_middle.
      * destruct (Hseed a v Ha) as [Hlt Hnth].
        simpl firstn. rewrite count_inits_cons.
        replace (grad_forward_current_id s +
                 (count_inits [c] + count_inits (firstn a p)))
          with (grad_forward_current_id s1 + count_inits (firstn a p)) by lia.
        split; [exact Hlt|].
        replace (length env + S a) with (length env + 1 + a) by lia.
        exact Hnth.
Qed.

Lemma count_inits_firstn_lt p : forall a b v,
  nth_error p a = Some (FCall (Init v)) -> a < b ->
  count_inits (firstn a p) < count_inits (firstn b p).
Proof.
  induction p as [|c p IH]; intros a b v Ha Hab.
  - destruct a; discriminate Ha.
  - destruct b as [|b]; [lia|]. destruct a as [|a]; simpl in Ha.
    + inversion Ha; subst c. simpl firstn. rewrite count_inits_cons.
      unfold count_inits at 1 2. simpl. lia.
    + simpl firstn.
      rewrite (count_inits_cons c (firstn a p)).
      rewrite (count_inits_cons c (firstn b p)).
      apply Nat.add_lt_mono_l. apply (IH a b v Ha). lia.
Qed.

(** X2. Within a scope the seeds take the slots in the order of their
    creation, whatever operations come in between: the Variable of the
    [grad_forward_init] at position [a] has as [id] the number of
    [grad_forward_init] calls before it, the value given, and the unit
    vector of that slot.  So later seeds have larger ids, and the counter
    ends at the number of seeds. *)
Theorem forward_seed_slots (p : list fwd_call) (s0 : state)
  (env : list grad_forward_t) (s : state) :
  fwd_scope p s0 = Ok (env, s) ->
  grad_forward_current_id s = count_inits p /\
  length env = length p /\
  (forall a v, nth_error p a = Some (FCall (Init v)) ->
     count_inits (firstn a p) < GRAD_FORWARD_TAPE_SIZE /\
     nth a env zero_init =
     {| id := count_inits (firstn a p); value := v;
        derivative := upd (repeat r_zero GRAD_FORWARD_TAPE_SIZE)
                          (count_inits (firstn a p)) r_one |}) /\
  (forall a b v w,
     nth_error p a = Some (FCall (Init v)) ->
     nth_error p b = Some (FCall (Init w)) -> a < b ->
     id (nth a env zero_init) < id (nth b env zero_init)).
Proof.
  rewrite fwd_scope_unfold. intros Hrun.
  destruct (fwd_run_seeds _ _ _ Hrun) as (Hcur & Hlen & _ & Hseed).
  simpl in Hcur, Hlen, Hseed.
  split; [exact Hcur|]. split; [exact Hlen|]. split; [exact Hseed|].
  intros a b v w Ha Hb Hab.
  destruct (Hseed a v Ha) as [_ ->]. destruct (Hseed b w Hb) as [_ ->].
  simpl. eapply count_inits_firstn_lt; eauto.
Qed.

End ForwardSlots.

(** ** Reverse mode: what the backward pass leaves alone *)

Section BackwardFrame.
Context {G : GradReal} {C : GradConfig}.
Import Reverse.
Implicit Types (t : list grad_reverse_t) (s : state) (i j k n out : nat).

Lemma node_fields_eq (a b : grad_reverse_t) :
  value a = value b -> derivative a = derivative b ->
  operation a = operation b -> left a = left b -> right a = right b ->
  a = b.
Proof. destruct a, b; simpl; intros; subst; reflexivity. Qed.

Lemma node_at_add_all_other cs : forall t j,
  (forall c, In c cs -> fst c <> j) ->
  node_at (add_all cs t) j = node_at t j.
Proof.
  induction cs as [|c cs IH]; intros t j H; [reflexivity|].
  change (add_all (c :: cs) t)
    with (add_all cs (add_derivative_in t (fst c) (snd c))).
  rewrite IH by (intros; apply H; simpl; auto).
  apply node_at_add_other. apply H. simpl; auto.
Qed.

Lemma propagate_in_above t i j :
  operands_below t i -> i <= j -> node_at (propagate_in i t) j = node_at t j.
Proof.
  intros Hb Hij. unfold propagate_in. apply node_at_add_all_other.
  intros c Hc.
  assert (fst c < i) by (eapply contributions_below; eauto). lia.
Qed.

Lemma propagate_from_above k : forall t j,
  k <= j -> (forall i, i < k -> operands_below t i) ->
  node_at (propagate_from k t) j = node_at t j.
Proof.
  induction k as [|k IH]; intros t j Hj Hb; [reflexivity|].
  rewrite propagate_from_S, IH.
  - apply propagate_in_above; [apply Hb|]; lia.
  - lia.
  - intros i Hi. eapply same_shape_operands_below;
      [apply same_shape_propagate_in|]. apply Hb. lia.
Qed.

Lemma zero_seed_above out n t j :
  out < n -> n <= j -> node_at (zero_seed out n t) j = node_at t j.
Proof.
  intros Hout Hj. unfold zero_seed.
  rewrite node_at_set_derivative_in.
  destruct (Nat.eqb_spec out j); [lia|]. simpl.
  apply node_fields_eq; try (symmetry; apply (same_shape_zero_all n t)).
  fold (zero_all n t). rewrite derivative_zero_all.
  destruct (Nat.ltb_spec j n); [lia|reflexivity].
Qed.

Lemma backward_in_above out n t j :
  out < n -> n <= j -> (forall i, i < n -> operands_below t i) ->
  node_at (backward_in out n t) j = node_at t j.
Proof.
  intros Hout Hj Hb. unfold backward_in.
  rewrite propagate_from_above; auto.
  - now apply zero_seed_above.
  - intros i Hi. eapply same_shape_operands_below;
      [apply same_shape_zero_seed|]. now apply Hb.
Qed.

(** The seeded tape does not depend on the adjoints the live nodes held. *)
Lemma zero_seed_forgets out n t T :
  same_shape t T -> out < n -> n <= length t ->
  (forall j, n <= j -> node_at T j = node_at t j) ->
  zero_seed out n T = zero_seed out n t.
Proof.
  intros Hs Hout Hn Habove. pose proof Hs as [Hlen Hf].
  apply nth_ext with (d := zero_node) (d' := zero_node).
  - now rewrite !zero_seed_length.
  - intros j Hj. rewrite zero_seed_length in Hj.
    change (node_at (zero_seed out n T) j = node_at (zero_seed out n t) j).
    destruct (same_shape_zero_seed out n T) as [_ HT].
    destruct (same_shape_zero_seed out n t) as [_ Ht].
    destruct (HT j) as (T1 & T2 & T3 & T4).
    destruct (Ht j) as (t1 & t2 & t3 & t4).
    destruct (Hf j) as (f1 & f2 & f3 & f4).
    apply node_fields_eq; try congruence.
    destruct (Nat.lt_ge_cases j n) as [Hlt|Hge].
    + rewrite !derivative_zero_seed by lia. reflexivity.
    + rewrite !zero_seed_above by lia. now rewrite Habove.
Qed.

(** X3. [grad_reverse_backward] writes adjoints of live nodes and nothing
    else: the counter, the values, the operations and the operand
    references of all cells are as before, and the cells from the counter
    on are untouched. *)
Theorem backward_frame (p : list rev_call) (s0 : state) (env : list ptr)
  (s : state) (out : nat) :
  length (grad_reverse_tape s0) = GRAD_REVERSE_TAPE_SIZE ->
  rev_scope p s0 = Ok (env, s) ->
  out < grad_reverse_current_id s ->
  exists s',
    grad_reverse_backward (Some out) s = Ok (tt, s') /\
    grad_reverse_current_id s' = grad_reverse_current_id s /\
    length (grad_reverse_tape s') = length (grad_reverse_tape s) /\
    (forall j,
       value (node_at (grad_reverse_tape s') j) =
         value (node_at (grad_reverse_tape s) j) /\
       operation (node_at (grad_reverse_tape s') j) =
         operation (node_at (grad_reverse_tape s) j) /\
       left (node_at (grad_reverse_tape s') j) =
         left (node_at (grad_reverse_tape s) j) /\
       right (node_at (grad_reverse_tape s') j) =
         right (node_at (grad_reverse_tape s) j)) /\
    (forall j, grad_reverse_current_id s <= j ->
       node_at (grad_reverse_tape s') j = node_at (grad_reverse_tape s) j).
Proof.
  intros Hlen Hrun Hout.
  pose proof (rev_scope_inv _ _ Hlen Hrun) as [Hok _].
  pose proof Hok as (Hl & Hn & Hb).
  rewrite grad_reverse_backward_run by (auto; lia).
  eexists. split; [reflexivity|]. cbn [grad_reverse_tape grad_reverse_current_id].
  destruct (same_shape_backward_in out (grad_reverse_current_id s)
              (grad_reverse_tape s)) as [Hlen' Hf].
  split; [reflexivity|]. split; [now rewrite <- Hlen'|]. split.
  - intros j. destruct (Hf j) as (f1 & f2 & f3 & f4). auto.
  - intros j Hj. now apply backward_in_above.
Qed.

(** X4. The backward pass starts from zeroed adjoints, so the adjoints of
    an earlier pass do not add up: [grad_reverse_backward(b)] after
    [grad_reverse_backward(a)] leaves the state [grad_reverse_backward(b)]
    alone leaves.  In particular a pass can be repeated. *)
Theorem backward_last_wins (p : list rev_call) (s0 : state) (env : list ptr)
  (s : state) (a b : nat) :
  length (grad_reverse_tape s0) = GRAD_REVERSE_TAPE_SIZE ->
  rev_scope p s0 = Ok (env, s) ->
  a < grad_reverse_current_id s -> b < grad_reverse_current_id s ->
  exists sa sb,
    grad_reverse_backward (Some a) s = Ok (tt, sa) /\
    grad_reverse_backward (Some b) s = Ok (tt, sb) /\
    grad_reverse_backward (Some b) sa = Ok (tt, sb).
Proof.
  intros Hlen Hrun Ha Hb.
  pose proof (rev_scope_inv _ _ Hlen Hrun) as Hinv.
  pose proof Hinv as [Hok _]. pose proof Hok as (Hl & Hn & Hbelow).
  destruct s as [t n]. cbn [grad_reverse_tape grad_reverse_current_id] in *.
  rewrite !grad_reverse_backward_run by (auto; simpl; lia).
  cbn [grad_reverse_tape grad_reverse_current_id].
  do 2 eexists. split; [reflexivity|]. split; [reflexivity|].
  assert (Hs : same_shape t (backward_in a n t))
    by apply same_shape_backward_in.
  rewrite grad_reverse_backward_run.
  - cbn [grad_reverse_tape grad_reverse_current_id]. do 3 f_equal.
    unfold backward_in at 1 3. f_equal.
    apply zero_seed_forgets; auto; try lia.
    intros j Hj. now apply backward_in_above.
  - pose proof Hs as [Hlen' _]. repeat split; simpl; try lia.
    intros i Hi. eapply same_shape_operands_below; [exact Hs|].
    now apply Hbelow.
  - lia.
Qed.

End BackwardFrame.

(** ** Reverse mode: the tape grows at its end *)

Section TapeGrowth.
Context {G : GradReal} {C : GradConfig}.
Import Reverse.
Implicit Types (t : list grad_reverse_t) (s : state) (i j k n : nat).

Lemma call_in_new_derivative c env t n j :
  n + nodes_of_call c <= length t -> n <= j < n + nodes_of_call c ->
  derivative (node_at (call_in c env t n) j) = r_zero.
Proof.
  intros Hn Hj. unfold node_at.
  destruct c as [v|o a|[| | |] a b]; simpl in Hn, Hj; simpl call_in;
    cbv zeta.
  - replace j with n by lia. now rewrite nth_upd_same by lia.
  - replace j with n by lia. now rewrite nth_upd_same by lia.
  - replace j with n by lia. now rewrite nth_upd_same by lia.
  - replace j with n by lia. now rewrite nth_upd_same by lia.
  - destruct (Nat.eq_dec j n) as [->|Hne].
    + rewrite nth_upd_other by lia. now rewrite nth_upd_same by lia.
    + replace j with (n + 1) by lia.
      now rewrite nth_upd_same by (rewrite upd_length; lia).
  - destruct (Nat.eq_dec j n) as [->|Hne].
    + rewrite nth_upd_other by lia. now rewrite nth_upd_same by lia.
    + replace j with (n + 1) by lia.
      now rewrite nth_upd_same by (rewrite upd_length; lia).
Qed.

(** X5. A construction call appends: it moves the counter by the number of
    nodes it makes (two for [sub] and [div], one otherwise), returns the
    address of the last of them, gives the new nodes a zero adjoint, and
    leaves every other cell of the tape, the adjoints of the earlier nodes
    included, as it was. *)
Theorem reverse_calls_append (p : list rev_call) (s0 : state)
  (env : list ptr) (s : state) (c : call) (r : ptr) (s' : state) :
  length (grad_reverse_tape s0) = GRAD_REVERSE_TAPE_SIZE ->
  rev_scope p s0 = Ok (env, s) ->
  rev_exec c env s = Ok (r, s') ->
  grad_reverse_current_id s' = grad_reverse_current_id s + nodes_of_call c /\
  grad_reverse_current_id s' <= GRAD_REVERSE_TAPE_SIZE /\
  r = Some (grad_reverse_current_id s' - 1) /\
  (forall j, grad_reverse_current_id s <= j < grad_reverse_current_id s' ->
     derivative (node_at (grad_reverse_tape s') j) = r_zero) /\
  (forall j, j < grad_reverse_current_id s \/ grad_reverse_current_id s' <= j ->
     node_at (grad_reverse_tape s') j = node_at (grad_reverse_tape s) j).
Proof.
  intros Hlen Hrun Hc.
  pose proof (rev_scope_inv _ _ Hlen Hrun) as Hinv.
  destruct (rev_exec_inv _ Hinv Hc) as (_ & Hr & Hn & Ht & Hcap).
  pose proof Hinv as [(Hl & _ & _) _].
  split; [exact Hn|]. split; [exact Hcap|]. split; [now rewrite Hn|].
  split.
  - intros j Hj. rewrite Ht. apply call_in_new_derivative; lia.
  - intros j [Hj|Hj]; rewrite Ht.
    + now apply call_in_below.
    + apply call_in_above. lia.
Qed.

(** X6. The values on the tape stay consistent with the graph: after any
    calls of a scope, backward passes among them, the value of each live
    node is its operation applied to the values of its operands. *)
Theorem tape_values_consistent (p : list rev_call) (s0 : state)
  (env : list ptr) (s : state) :
  length (grad_reverse_tape s0) = GRAD_REVERSE_TAPE_SIZE ->
  rev_scope p s0 = Ok (env, s) ->
  forall i, i < grad_reverse_current_id s ->
            value_consistent (grad_reverse_tape s) i.
Proof. intros Hlen Hrun. exact (rev_scope_consistent _ _ Hlen Hrun). Qed.

(** X7. The capacity assertion counts nodes: a sequence of calls on
    declared locals, started in a fresh scope, runs to its end when its
    nodes (two for each [sub] and [div], one for each other construction,
    none for a backward pass) fit the tape, and stops on the assertion
    otherwise. *)
Theorem reverse_capacity_accounting (p : list rev_call) (s0 : state) :
  length (grad_reverse_tape s0) = GRAD_REVERSE_TAPE_SIZE ->
  rev_scoped 0 p = true ->
  (count_nodes p <= GRAD_REVERSE_TAPE_SIZE ->
   exists env s,
     rev_scope p s0 = Ok (env, s) /\
     grad_reverse_current_id s = count_nodes p) /\
  (GRAD_REVERSE_TAPE_SIZE < count_nodes p -> rev_scope p s0 = AssertFail).
Proof.
  intros Hlen Hsc. rewrite rev_scope_unfold.
  destruct (@rev_run_capacity G C p [] _ (rev_inv_start _ Hlen) Hsc)
    as [Hok Hfail].
  simpl in Hok, Hfail. split; assumption.
Qed.

End TapeGrowth.

(** ** Reverse mode in exact arithmetic: adjoints by output *)

Section AdjointRules.
Context {C : GradConfig}.
#[local] Existing Instance exact_real.
Import Reverse.
Open Scope R_scope.
Implicit Types (t : list grad_reverse_t) (s : state) (i j k n out : nat).

Lemma adjoint_after_tangent s out j :
  tape_ok s -> (out < grad_reverse_current_id s)%nat ->
  (j < grad_reverse_current_id s)%nat ->
  adjoint_after s out j = tangent (grad_reverse_tape s) j out.
Proof.
  intros Hok Hout Hj. pose proof Hok as (Hl & Hn & Hb).
  unfold adjoint_after.
  rewrite grad_reverse_backward_run by (auto; lia).
  unfold adjoint. cbn [grad_reverse_tape].
  apply backward_in_tangent; auto. lia.
Qed.

(** X8. In exact arithmetic, on a tape all of whose live nodes are away
    from the singularities of their operations ([INV] of a non-zero value,
    [LOG] of a positive value), the backward pass leaves adjoint 1 in the
    output node and adjoint 0 in every live node created after it: the
    output does not depend on them. *)
Theorem backward_output_adjoint (p : list rev_call) (s0 : state)
  (env : list ptr) (s : state) (out : nat) :
  length (grad_reverse_tape s0) = GRAD_REVERSE_TAPE_SIZE ->
  rev_scope p s0 = Ok (env, s) ->
  (forall i, (i < grad_reverse_current_id s)%nat ->
     regular_node (grad_reverse_tape s) i) ->
  (out < grad_reverse_current_id s)%nat ->
  exists s',
    grad_reverse_backward (Some out) s = Ok (tt, s') /\
    adjoint s' out = 1 /\
    forall j, (out < j < grad_reverse_current_id s)%nat -> adjoint s' j = 0.
Proof.
  intros Hlen Hrun _ Hout.
  pose proof (rev_scope_inv _ _ Hlen Hrun) as [Hok _].
  pose proof Hok as (Hl & Hn & Hb).
  rewrite grad_reverse_backward_run by (auto; lia).
  eexists. split; [reflexivity|]. unfold adjoint. cbn [grad_reverse_tape].
  split.
  - rewrite backward_in_tangent by (auto; lia). apply tangent_self.
  - intros j Hj. rewrite backward_in_tangent by (auto; lia).
    apply tangent_below. lia.
Qed.

Lemma adjoint_after_operands s o j :
  tape_ok s -> (o < grad_reverse_current_id s)%nat -> (j < o)%nat ->
  adjoint_after s o j =
  weighted (partials (grad_reverse_tape s) o) (fun l => adjoint_after s l j).
Proof.
  intros Hok Ho Hj. pose proof Hok as (Hl & Hn & Hb).
  rewrite adjoint_after_tangent by (auto; lia).
  rewrite tangent_above by (auto; apply Hb; lia).
  apply weighted_ext. intros c Hc.
  assert (Hlt : (fst c < o)%nat)
    by (eapply partials_below; [apply (Hb o Ho)|exact Hc]).
  symmetry. apply adjoint_after_tangent; auto; lia.
Qed.

(** X9. In exact arithmetic, on a tape all of whose live nodes are away
    from the singularities of their operations, the adjoints follow the
    graph from output to output: the adjoint a pass from node [o] leaves in
    an earlier node [j] is 0 when [o] is a leaf, the sum of the adjoints the passes from its
    operands leave in [j] when [o] is their sum, the product rule
    [value r * adjoint_l + value l * adjoint_r] when [o] is their product,
    and the partial derivative of the operation times the adjoint of the
    pass from the operand when [o] is unary. *)
Theorem backward_operand_rule (p : list rev_call) (s0 : state)
  (env : list ptr) (s : state) (o j : nat) :
  length (grad_reverse_tape s0) = GRAD_REVERSE_TAPE_SIZE ->
  rev_scope p s0 = Ok (env, s) ->
  (forall i, (i < grad_reverse_current_id s)%nat ->
     regular_node (grad_reverse_tape s) i) ->
  (o < grad_reverse_current_id s)%nat -> (j < o)%nat ->
  (operation (node_at (grad_reverse_tape s) o) = GRAD_OP_NONE ->
   adjoint_after s o j = 0) /\
  (forall l r,
     operation (node_at (grad_reverse_tape s) o) = GRAD_OP_ADD ->
     left (node_at (grad_reverse_tape s) o) = Some l ->
     right (node_at (grad_reverse_tape s) o) = Some r ->
     adjoint_after s o j = adjoint_after s l j + adjoint_after s r j) /\
  (forall l r,
     operation (node_at (grad_reverse_tape s) o) = GRAD_OP_MUL ->
     left (node_at (grad_reverse_tape s) o) = Some l ->
     right (node_at (grad_reverse_tape s) o) = Some r ->
     adjoint_after s o j =
     value (node_at (grad_reverse_tape s) r) * adjoint_after s l j +
     value (node_at (grad_reverse_tape s) l) * adjoint_after s r j) /\
  (forall u l,
     operation (node_at (grad_reverse_tape s) o) = unop_tag u ->
     left (node_at (grad_reverse_tape s) o) = Some l ->
     adjoint_after s o j =
     unop_partial u (value (node_at (grad_reverse_tape s) l)) *
     adjoint_after s l j).
Proof.
  intros Hlen Hrun _ Ho Hj.
  pose proof (rev_scope_inv _ _ Hlen Hrun) as [Hok _].
  rewrite (adjoint_after_operands Hok Ho Hj).
  split; [|split; [|split]].
  - intros Hop. now rewrite partials_leaf.
  - intros l r Hop Hl Hr. rewrite (partials_add _ _ Hop Hl Hr).
    rewrite weighted_two. rring.
  - intros l r Hop Hl Hr. rewrite (partials_mul _ _ Hop Hl Hr).
    rewrite weighted_two. reflexivity.
  - intros u l Hop Hl. rewrite (partials_unary _ _ _ Hop Hl).
    rewrite weighted_one. reflexivity.
Qed.

Lemma backward_in_stale t n out :
  (n <= out < length t)%nat ->
  (forall i, (i < n)%nat -> operands_below t i) ->
  derivative (node_at (backward_in out n t) out) = 1 /\
  forall j, (j < n)%nat -> derivative (node_at (backward_in out n t) j) = 0.
Proof.
  intros Hout Hb. unfold backward_in.
  assert (Hsum : forall j,
    adjoint_sum (zero_seed out n t) n (tangent t j) = 0).
  { intros j. rewrite adjoint_sum_unit with (out := out).
    - destruct (Nat.ltb_spec out n); [lia|reflexivity].
    - intros m Hm. rewrite derivative_zero_seed by lia. reflexivity. }
  split.
  - rewrite propagate_from_potential with (t := t);
      [|apply same_shape_zero_seed|rewrite zero_seed_length; lia|assumption].
    unfold potential. rewrite Hsum.
    destruct (Nat.leb_spec n out); [|lia].
    unfold zero_seed. rewrite derivative_set_derivative_in.
    rewrite Nat.eqb_refl. fold (zero_all n t). rewrite zero_all_length.
    destruct (Nat.ltb_spec out (length t)); [simpl; rring|lia].
  - intros j Hj.
    rewrite propagate_from_potential with (t := t);
      [|apply same_shape_zero_seed|rewrite zero_seed_length; lia|assumption].
    unfold potential. rewrite Hsum.
    destruct (Nat.leb_spec n j); [lia|]. rring.
Qed.

(** X10. A pass from a cell that is not live (a node kept from before
    [grad_reverse_start_scope], at or above the counter) returns: in exact
    arithmetic, on a tape all of whose live nodes are away from the
    singularities of their operations, it leaves adjoint 0 in every live
    node and writes 1 into the stale cell. *)
Theorem backward_stale_output (p : list rev_call) (s0 : state)
  (env : list ptr) (s : state) (out : nat) :
  length (grad_reverse_tape s0) = GRAD_REVERSE_TAPE_SIZE ->
  rev_scope p s0 = Ok (env, s) ->
  (forall i, (i < grad_reverse_current_id s)%nat ->
     regular_node (grad_reverse_tape s) i) ->
  (grad_reverse_current_id s <= out < GRAD_REVERSE_TAPE_SIZE)%nat ->
  exists s',
    grad_reverse_backward (Some out) s = Ok (tt, s') /\
    adjoint s' out = 1 /\
    forall j, (j < grad_reverse_current_id s)%nat -> adjoint s' j = 0.
Proof.
  intros Hlen Hrun _ Hout.
  pose proof (rev_scope_inv _ _ Hlen Hrun) as [Hok _].
  pose proof Hok as (Hl & Hn & Hb).
  rewrite grad_reverse_backward_run by (auto; lia).
  eexists. split; [reflexivity|]. unfold adjoint. cbn [grad_reverse_tape].
  apply backward_in_stale; auto. lia.
Qed.

End AdjointRules.

(** ** Forward mode in exact arithmetic: the composite operations *)

Section ForwardRules.
Context {C : GradConfig}.
#[local] Existing Instance exact_real.
Import Forward.
Open Scope R_scope.

(** X11. In exact arithmetic the operations that go through others give
    the textbook results: [sub] (through [neg], itself through [mul_c])
    the difference of the values and of the entries; [div] (through [inv])
    the quotient and the quotient rule where the divisor is not zero;
    [tan] (through [sin], [cos] and [div]) the tangent and the entry
    divided by the squared cosine where the cosine is not zero. *)
Theorem forward_composite_rules :
  (forall l r s,
     exists res,
       grad_forward_sub l r s = Ok (res, s) /\
       value res = value l - value r /\
       forall i, (i < grad_forward_current_id s)%nat ->
                 (i < GRAD_FORWARD_TAPE_SIZE)%nat ->
         derivative_at res i = derivative_at l i - derivative_at r i) /\
  (forall l r s,
     value r <> 0 ->
     exists res,
       grad_forward_div l r s = Ok (res, s) /\
       value res = value l / value r /\
       forall i, (i < grad_forward_current_id s)%nat ->
                 (i < GRAD_FORWARD_TAPE_SIZE)%nat ->
         derivative_at res i =
         (derivative_at l i * value r - value l * derivative_at r i) /
         (value r * value r)) /\
  (forall x s,
     cos (value x) <> 0 ->
     exists res,
       grad_forward_tan x s = Ok (res, s) /\
       value res = tan (value x) /\
       forall i, (i < grad_forward_current_id s)%nat ->
                 (i < GRAD_FORWARD_TAPE_SIZE)%nat ->
         derivative_at res i =
         derivative_at x i / (cos (value x) * cos (value x))).
Proof.
  split; [|split].
  - intros l r s. eexists. split; [apply (fwd_binop_exact OSub)|].
    split; [simpl; rring|].
    intros i Hi HN. rewrite derivative_at_result_below by assumption.
    simpl. rring.
  - intros l r s Hr. eexists. split; [apply (fwd_binop_exact ODiv)|].
    split; [simpl; unfold Rdiv; rring|].
    intros i Hi HN. rewrite derivative_at_result_below by assumption.
    simpl. apply (Rplus_eq_reg_l 0). field. exact Hr.
  - intros x s Hc.
    unfold grad_forward_tan.
    change (grad_forward_sin x) with (fwd_unop OSin x).
    rewrite (bind_ok _ _ _ (fwd_unop_exact OSin x s)).
    change (grad_forward_cos x) with (fwd_unop OCos x).
    rewrite (bind_ok _ _ _ (fwd_unop_exact OCos x s)).
    change grad_forward_div with (fwd_binop ODiv).
    eexists. split; [apply fwd_binop_exact|].
    split; [simpl; unfold tan, Rdiv; rring|].
    intros i Hi HN. rewrite derivative_at_result_below by assumption.
    rewrite !derivative_at_result_below by assumption. simpl.
    pose proof (sin2_cos2 (value x)) as Hsc. unfold Rsqr in Hsc.
    apply (Rplus_eq_reg_l 0).
    replace (0 + derivative_at x i / (cos (value x) * cos (value x)))
      with (derivative_at x i *
            (sin (value x) * sin (value x) + cos (value x) * cos (value x)) /
            (cos (value x) * cos (value x)))
      by (rewrite Hsc; field; exact Hc).
    field. exact Hc.
Qed.

End ForwardRules.

(** ** Both engines: the values *)

Section ValuesAgree.
Context {C : GradConfig}.
#[local] Existing Instance exact_real.
Open Scope R_scope.

(** X12. In exact arithmetic the two engines compute the same values: after
    the same calls, every forward local holds the value recorded in the
    node of the corresponding reverse local. *)
Theorem cross_mode_values (p : list call)
  (sf0 : Forward.state) (sr0 : Reverse.state)
  (envf : list Forward.grad_forward_t) (sf : Forward.state)
  (envr : list Reverse.ptr) (sr : Reverse.state) (k : nat) :
  length (Reverse.grad_reverse_tape sr0) = GRAD_REVERSE_TAPE_SIZE ->
  fwd_scope (map FCall p) sf0 = Ok (envf, sf) ->
  rev_scope (map RCall p) sr0 = Ok (envr, sr) ->
  (k < length p)%nat ->
  exists l,
    nth k envr None = Some l /\
    (l < Reverse.grad_reverse_current_id sr)%nat /\
    Forward.value (var_at envf k) =
    Reverse.value (node_at (Reverse.grad_reverse_tape sr) l).
Proof.
  intros Hlen Hf Hr Hk.
  rewrite fwd_scope_unfold in Hf. rewrite rev_scope_unfold in Hr.
  pose proof (agree_run p (agree_start sr0 Hlen) Hf Hr) as Hag.
  simpl in Hag.
  destruct Hag as (Hlf & Hlr & [Hok He] & Hcur & Hloc & Hseed).
  destruct (env_ok_nth' (a := k) He) as (l & Hnth & Hlt); [lia|].
  exists l. split; [exact Hnth|]. split; [exact Hlt|].
  destruct (Hloc k Hk) as [_ Hv]. rewrite Hv.
  unfold node_of. now rewrite Hnth.
Qed.

End ValuesAgree.

(** ** The examples: one turn of the Newton loops *)

Section Examples.
#[local] Existing Instance exact_real.
#[local] Existing Instance default_config.
Open Scope R_scope.

Lemma pow_real_two x : pow_real x 2 = x * x.
Proof.
  replace 2 with (INR 2) by (simpl; lra). rewrite pow_real_nat. simpl. ring.
Qed.

Lemma pow_real_one x : pow_real x (2 - 1) = x.
Proof.
  replace (2 - 1) with (INR 1) by (simpl; lra). rewrite pow_real_nat.
  simpl. ring.
Qed.

(** X13. One turn of the loop of [examples/newton_forward.c], in exact
    arithmetic and from any earlier state: the six calls return, take one
    slot, and leave in [f] the value [-x^2 + 6x + 3] and at the slot of
    [x_grad] the derivative [-2x + 6], so that away from [x = 3] the step
    [x - f.value / f_prime] is Newton's [(x^2 + 3) / (2x - 6)]. *)
Theorem newton_forward_iteration (x : R) (s0 : Forward.state) :
  exists env s,
    fwd_scope (newton_forward x) s0 = Ok (env, s) /\
    Forward.grad_forward_current_id s = 1%nat /\
    Forward.value (var_at env 5) = - (x * x) + 6 * x + 3 /\
    Forward.derivative_at (var_at env 5) (Forward.id (var_at env 0)) =
      - 2 * x + 6 /\
    (x <> 3 ->
     x - Forward.value (var_at env 5) /
         Forward.derivative_at (var_at env 5) (Forward.id (var_at env 0)) =
     (x * x + 3) / (2 * x - 6)).
Proof.
  assert (H : match fwd_scope (newton_forward x) s0 with
              | Ok (env, s) =>
                  Some (Forward.grad_forward_current_id s,
                        Forward.value (var_at env 5),
                        Forward.derivative_at (var_at env 5)
                          (Forward.id (var_at env 0)))
              | _ => None
              end =
              Some (1%nat, pow_real x 2 * - (1) + x * 6 + 3,
                    - (1) * (2 * pow_real x (2 - 1) * 1) + 6 * 1)).
  { lazy -[pow_real Rplus Rmult Ropp Rminus Rdiv Rinv IZR INR].
    reflexivity. }
  destruct (fwd_scope (newton_forward x) s0) as [[env s]| |];
    try discriminate H.
  injection H as Hc Hv Hd.
  exists env, s. split; [reflexivity|]. split; [exact Hc|].
  assert (Hv' : pow_real x 2 * - (1) + x * 6 + 3 = - (x * x) + 6 * x + 3)
    by (rewrite pow_real_two; ring).
  assert (Hd' : - (1) * (2 * pow_real x (2 - 1) * 1) + 6 * 1 = - 2 * x + 6)
    by (rewrite pow_real_one; ring).
  rewrite Hv, Hd.
  split; [exact Hv'|]. split; [exact Hd'|].
  intros Hx. rewrite Hv', Hd'. field. lra.
Qed.

(** X14. One turn of the loop of [examples/newton_reverse.c], in exact
    arithmetic and from any earlier state of the tape: the calls return
    and take eight nodes, [x_grad] is node 0 and [f] node 7, [f] holds
    [-x^2 + 6x + 3] and after the backward pass the adjoint of [x_grad] is
    [-2x + 6]: the same step as the forward example. *)
Theorem newton_reverse_iteration (x : R) (s0 : Reverse.state) :
  length (Reverse.grad_reverse_tape s0) = GRAD_REVERSE_TAPE_SIZE ->
  exists env s,
    rev_scope (newton_reverse x) s0 = Ok (env, s) /\
    Reverse.grad_reverse_current_id s = 8%nat /\
    nth 0 env None = Some 0%nat /\ nth 7 env None = Some 7%nat /\
    Reverse.value (node_at (Reverse.grad_reverse_tape s) 7) =
      - (x * x) + 6 * x + 3 /\
    adjoint s 0 = - 2 * x + 6.
Proof.
  intros Hlen.
  assert (H : exists V D,
    match rev_scope (newton_reverse x) Reverse.initial_state with
    | Ok (env, s) =>
        Some (env, Reverse.grad_reverse_current_id s,
              Reverse.value (node_at (Reverse.grad_reverse_tape s) 7),
              adjoint s 0)
    | _ => None
    end = Some ([Some 0; Some 1; Some 2; Some 3; Some 4; Some 5; Some 6;
                 Some 7]%nat, 8%nat, V, D) /\
    V = - (x * x) + 6 * x + 3 /\ D = - 2 * x + 6).
  { do 2 eexists. split.
    - lazy -[Rplus Rmult Ropp Rminus Rdiv Rinv IZR INR]. reflexivity.
    - split; rring. }
  destruct H as (V & D & H & HV & HD).
  pose proof (@rev_run_related exact_real default_config
                (newton_reverse x) []
                {| Reverse.grad_reverse_tape := Reverse.grad_reverse_tape s0;
                   Reverse.grad_reverse_current_id := 0 |}
                {| Reverse.grad_reverse_tape :=
                     Reverse.grad_reverse_tape Reverse.initial_state;
                   Reverse.grad_reverse_current_id := 0 |}
                (rev_inv_start _ Hlen)
                (rev_inv_start Reverse.initial_state (repeat_length _ _))
                eq_refl) as Hrel.
  rewrite <- !rev_scope_unfold in Hrel.
  specialize (Hrel ltac:(intros i Hi; simpl in Hi; lia)).
  destruct (rev_scope (newton_reverse x) Reverse.initial_state)
    as [[env1 s1]| |]; try discriminate H.
  injection H as He Hc Hv Hd.
  destruct (rev_scope (newton_reverse x) s0) as [[env s]| |];
    simpl in Hrel; try contradiction.
  destruct Hrel as (Henv & Hcur & Hlive & _).
  exists env, s. split; [reflexivity|].
  rewrite Hc in Hcur. rewrite Hcur in Hlive. rewrite Henv, He.
  split; [exact Hcur|]. split; [reflexivity|]. split; [reflexivity|].
  destruct (@live_eq_fields exact_real _ _ _ 7 Hlive)
    as (E1 & _); [lia|].
  destruct (@live_eq_fields exact_real _ _ _ 0 Hlive)
    as (_ & E2 & _); [lia|].
  unfold adjoint in Hd |- *. rewrite E1, E2, Hv, Hd. auto.
Qed.

End Examples.


(** ** Forward mode in binary64: singular operands *)

Section ForwardSingularFloat.
Variable m : libm.
Context {C : GradConfig}.
#[local] Existing Instance binary64.

(** X15. In binary64, [grad_forward_inv] and [grad_forward_sqrt] of an
    operand whose value is 0.0 return an infinite resp. zero value and
    write NaN into every entry below the slot count at which the operand's
    entry is 0.0: the derivative with respect to a seed the operand does
    not depend on is lost as well. *)
Theorem forward_singular_entries
  (x : @Forward.grad_forward_t (binary64 m)) (s : Forward.state) (i : nat) :
  Forward.value x = 0%float ->
  Forward.derivative_at x i = 0%float ->
  i < Forward.grad_forward_current_id s -> i < GRAD_FORWARD_TAPE_SIZE ->
  (exists r,
     Forward.grad_forward_inv x s = Ok (r, s) /\
     Forward.value r = infinity /\ Forward.derivative_at r i = nan) /\
  (exists r,
     Forward.grad_forward_sqrt x s = Ok (r, s) /\
     Forward.value r = 0%float /\ Forward.derivative_at r i = nan).
Proof.
  intros Hv Hd Hi HN. apply Nat.ltb_lt in Hi, HN. split.
  - eexists. split; [apply grad_forward_inv_run|].
    unfold Forward.derivative_at in *.
    cbn [Forward.value Forward.derivative].
    rewrite nth_fill, Hi, HN, Hv, Hd. split; reflexivity.
  - eexists. split; [apply grad_forward_sqrt_run|].
    unfold Forward.derivative_at in *.
    cbn [Forward.value Forward.derivative].
    rewrite nth_fill, Hi, HN, Hv, Hd. split; reflexivity.
Qed.

End ForwardSingularFloat.


(* ================================================================= *)
(** * Instances of the theorems

    Each theorem with a hypothesis, applied to a run over the reals with
    the header's default tape sizes. *)

Section Witnesses.
#[local] Existing Instance exact_real.
#[local] Existing Instance default_config.

(** The reverse example: the final sum, node 7, refers to node 5, which the
    backward pass visits later. *)
Lemma tape_topological_invariant_witness :
  exists env s,
    rev_scope (newton_reverse 2) Reverse.initial_state = Ok (env, s) /\
    exists l,
      Some 5 = Some l /\ l < 7 /\
      exists l1 l2 l3, backward_order s = l1 ++ 7 :: l2 ++ l :: l3.
Proof.
  destruct (run_check_ok
              (rev_scope (newton_reverse 2) Reverse.initial_state)
              (fun _ s =>
                 (7 <? Reverse.grad_reverse_current_id s) &&
                 existsb (fun q => match q with
                                   | Some l => l =? 5
                                   | None => false
                                   end)
                   (operands (node_at (Reverse.grad_reverse_tape s) 7))))
    as (env & s & Hr & Hc); [vm_compute; reflexivity|].
  apply andb_prop in Hc as [H1 H2]. apply Nat.ltb_lt in H1.
  apply existsb_exists in H2 as (q & Hq & Hq5).
  destruct q as [l|]; [|discriminate Hq5].
  apply Nat.eqb_eq in Hq5. subst l.
  exists env, s. split; [exact Hr|].
  eapply (@tape_topological_invariant exact_real default_config
            (newton_reverse 2) Reverse.initial_state env s).
  - vm_compute; reflexivity.
  - exact Hr.
  - exact H1.
  - exact Hq.
Defined.

(** A subtraction with two live nodes on the tape. *)
Lemma reverse_sub_div_append_two_witness :
  exists s1,
    Reverse.grad_reverse_sub (Some 0) (Some 1)
      {| Reverse.grad_reverse_tape :=
           Reverse.grad_reverse_tape Reverse.initial_state;
         Reverse.grad_reverse_current_id := 2 |} = Ok (Some 3, s1) /\
    Reverse.grad_reverse_current_id s1 = 4.
Proof.
  destruct (@reverse_sub_div_append_two exact_real default_config
              {| Reverse.grad_reverse_tape :=
                   Reverse.grad_reverse_tape Reverse.initial_state;
                 Reverse.grad_reverse_current_id := 2 |} 0 1)
    as [Hok _]; try (vm_compute; lia); try (vm_compute; reflexivity).
  destruct Hok as (s1 & s2 & Hsub & _ & Hcur & _); [vm_compute; lia|].
  exists s1. split; [exact Hsub|exact Hcur].
Defined.

(** Sixty-four forward seeds; one leaf, thirty-one subtractions and one
    more leaf on the reverse tape. *)
Lemma capacity_boundary_witness :
  (exists env s,
     fwd_scope (repeat (FCall (Init 1%R)) 64)
       {| Forward.grad_forward_current_id := 7 |} = Ok (env, s) /\
     forall v, Forward.grad_forward_init v s = AssertFail) /\
  (exists env s,
     rev_scope
       (RCall (Init 1%R) :: repeat (RCall (Bin OSub 0 0)) 31 ++ [RCall (Init 2%R)])
       Reverse.initial_state = Ok (env, s) /\
     forall c, call_scoped (length env) c = true ->
               rev_exec c env s = AssertFail).
Proof.
  destruct (@capacity_boundary exact_real default_config) as [Hf Hr].
  split.
  - apply Hf; vm_compute; reflexivity.
  - apply Hr; vm_compute; reflexivity.
Defined.

(** The reverse example with a product and a reciprocal appended. *)
Lemma dead_nodes_irrelevant_witness :
  exists env s env2 s2,
    rev_scope (newton_reverse 2%R) Reverse.initial_state = Ok (env, s) /\
    rev_run (map RCall [Bin OMul 0 0; Un OInv 0]) env s = Ok (env2, s2) /\
    exists s' s2',
      Reverse.grad_reverse_backward (Some 7) s = Ok (tt, s') /\
      Reverse.grad_reverse_backward (Some 7) s2 = Ok (tt, s2') /\
      forall j, j < Reverse.grad_reverse_current_id s ->
                adjoint s2' j = adjoint s' j.
Proof.
  destruct (run_check_ok
              (rev_scope (newton_reverse 2%R) Reverse.initial_state)
              (fun env s =>
                 (7 <? Reverse.grad_reverse_current_id s) &&
                 run_check
                   (rev_run (map RCall [Bin OMul 0 0; Un OInv 0]) env s)
                   (fun _ _ => true)))
    as (env & s & Hr & Hc); [vm_compute; reflexivity|].
  apply andb_prop in Hc as [H1 H2]. apply Nat.ltb_lt in H1.
  apply run_check_ok in H2 as (env2 & s2 & Hextra & _).
  exists env, s, env2, s2. split; [exact Hr|]. split; [exact Hextra|].
  eapply (@dead_nodes_irrelevant exact_real default_config
            (newton_reverse 2%R) [Bin OMul 0 0; Un OInv 0]
            Reverse.initial_state env s env2 s2).
  - vm_compute; reflexivity.
  - exact Hr.
  - exact Hextra.
  - exact H1.
  - intros i _. apply exact_neutral_node.
Defined.

(** [y = 1 / x] at [x = 2]: the tape has an [INV] node, of the non-zero
    value 2; the pass from [y] leaves in [x] the derivative of [1 / x]. *)
Lemma reverse_backward_derivative_witness :
  exists env s,
    rev_scope (map RCall reciprocal_calls) Reverse.initial_state
      = Ok (env, s) /\
    exists s',
      Reverse.grad_reverse_backward (Some 1) s = Ok (tt, s') /\
      forall j, j < Reverse.grad_reverse_current_id s ->
        adjoint s' j = tangent (Reverse.grad_reverse_tape s) j 1 /\
        derivable_pt_lim (value_wrt (Reverse.grad_reverse_tape s) j 1)
          (Reverse.value (node_at (Reverse.grad_reverse_tape s) j))
          (adjoint s' j).
Proof.
  assert (Hop :
    match rev_scope (map RCall reciprocal_calls) Reverse.initial_state with
    | Ok (_, s) =>
        (Reverse.operation (node_at (Reverse.grad_reverse_tape s) 0),
         Reverse.operation (node_at (Reverse.grad_reverse_tape s) 1),
         Reverse.grad_reverse_current_id s)
    | _ => (Reverse.GRAD_OP_INV, Reverse.GRAD_OP_NONE, 0)
    end = (Reverse.GRAD_OP_NONE, Reverse.GRAD_OP_INV, 2))
    by (vm_compute; reflexivity).
  assert (Hv :
    match rev_scope (map RCall reciprocal_calls) Reverse.initial_state with
    | Ok (_, s) =>
        Reverse.value
          (node_at (Reverse.grad_reverse_tape s)
             (index_of
                (Reverse.left (node_at (Reverse.grad_reverse_tape s) 1))))
    | _ => 0%R
    end = 2%R)
    by (vm_compute; reflexivity).
  destruct (run_check_ok
              (rev_scope (map RCall reciprocal_calls) Reverse.initial_state)
              (fun _ _ => true))
    as (env & s & Hr & _); [vm_compute; reflexivity|].
  rewrite Hr in Hop, Hv. injection Hop as H0 H1 Hc.
  exists env, s. split; [exact Hr|].
  eapply (@reverse_backward_derivative default_config
            (map RCall reciprocal_calls) Reverse.initial_state env s 1).
  - vm_compute; reflexivity.
  - exact Hr.
  - lia.
  - intros i Hi. rewrite Hc in Hi. destruct i as [|[|i]]; [| |lia].
    + apply smooth_regular. rewrite H0. reflexivity.
    + unfold regular_node. cbv zeta. rewrite H1, Hv. lra.
Defined.

(** [y = 1 / x] at [x = 2], in both engines: the one call with a
    singularity divides by the non-zero value 2. *)
Lemma cross_mode_agreement_witness :
  exists envf sf envr sr,
    fwd_scope (map FCall reciprocal_calls)
      {| Forward.grad_forward_current_id := 0 |} = Ok (envf, sf) /\
    rev_scope (map RCall reciprocal_calls) Reverse.initial_state
      = Ok (envr, sr) /\
    exists sr',
      Reverse.grad_reverse_backward (nth 1 envr None) sr = Ok (tt, sr') /\
      Forward.derivative_at (var_at envf 1) (Forward.id (var_at envf 0)) =
      adjoint sr' (node_of envr 0).
Proof.
  assert (Hv :
    match fwd_scope (map FCall reciprocal_calls)
            {| Forward.grad_forward_current_id := 0 |} with
    | Ok (envf, _) => Forward.value (var_at envf 0)
    | _ => 0%R
    end = 2%R)
    by (vm_compute; reflexivity).
  destruct (run_check_ok
              (fwd_scope (map FCall reciprocal_calls)
                 {| Forward.grad_forward_current_id := 0 |})
              (fun _ _ => true))
    as (envf & sf & Hf & _); [vm_compute; reflexivity|].
  destruct (run_check_ok
              (rev_scope (map RCall reciprocal_calls) Reverse.initial_state)
              (fun _ _ => true))
    as (envr & sr & Hr & _); [vm_compute; reflexivity|].
  rewrite Hf in Hv.
  exists envf, sf, envr, sr. split; [exact Hf|]. split; [exact Hr|].
  eapply (@cross_mode_agreement default_config reciprocal_calls
            {| Forward.grad_forward_current_id := 0 |} Reverse.initial_state
            envf sf envr sr 0 1 2%R).
  - vm_compute; reflexivity.
  - exact Hf.
  - exact Hr.
  - intros j c Hc. destruct j as [|[|j]].
    + injection Hc as <-. exact I.
    + injection Hc as <-. simpl. rewrite Hv. lra.
    + destruct j; discriminate Hc.
  - reflexivity.
  - vm_compute; lia.
Defined.

(** The forward example at [x = 2]. *)
Lemma forward_partial_derivatives_witness :
  exists env s,
    fwd_scope (newton_forward 2)
      {| Forward.grad_forward_current_id := 0 |} = Ok (env, s) /\
    derivable_pt_lim
      (fun x => value_after (reseed_at 0 x (newton_forward 2)) 5) 2%R
      (Forward.derivative_at (var_at env 5) (Forward.id (var_at env 0))).
Proof.
  destruct (run_check_ok
              (fwd_scope (newton_forward 2)
                 {| Forward.grad_forward_current_id := 0 |})
              (fun _ _ => true))
    as (env & s & Hr & _); [vm_compute; reflexivity|].
  exists env, s. split; [exact Hr|].
  destruct (@forward_partial_derivatives default_config (newton_forward 2)
              {| Forward.grad_forward_current_id := 0 |} env s Hr)
    as (_ & Hd & _).
  apply Hd; [reflexivity|simpl; lia|].
  intros j c _ Hc.
  do 6 (destruct j as [|j];
        [inversion Hc; subst c; simpl; auto;
         (right; exists 2%Z; split; [reflexivity|right; lia])|]).
  destruct j; discriminate Hc.
Defined.


(** The forward example: the seed [x_grad] takes slot 0. *)
Lemma forward_seed_slots_witness :
  exists env s,
    fwd_scope (newton_forward 2)
      {| Forward.grad_forward_current_id := 0 |} = Ok (env, s) /\
    Forward.grad_forward_current_id s = 1 /\
    Forward.id (nth 0 env Forward.zero_init) = 0.
Proof.
  destruct (run_check_ok
              (fwd_scope (newton_forward 2)
                 {| Forward.grad_forward_current_id := 0 |})
              (fun _ _ => true))
    as (env & s & Hr & _); [vm_compute; reflexivity|].
  exists env, s. split; [exact Hr|].
  destruct (@forward_seed_slots exact_real default_config (newton_forward 2)
              {| Forward.grad_forward_current_id := 0 |} env s Hr)
    as (Hc & _ & Hseed & _).
  split; [exact Hc|].
  destruct (Hseed 0 2%R eq_refl) as [_ ->]. reflexivity.
Defined.

(** The reverse example: a pass from [f] keeps the counter. *)
Lemma backward_frame_witness :
  exists env s,
    rev_scope (newton_reverse 2) Reverse.initial_state = Ok (env, s) /\
    exists s',
      Reverse.grad_reverse_backward (Some 7) s = Ok (tt, s') /\
      Reverse.grad_reverse_current_id s' = Reverse.grad_reverse_current_id s.
Proof.
  destruct (run_check_ok
              (rev_scope (newton_reverse 2) Reverse.initial_state)
              (fun _ s => 7 <? Reverse.grad_reverse_current_id s))
    as (env & s & Hr & Hc); [vm_compute; reflexivity|].
  apply Nat.ltb_lt in Hc. exists env, s. split; [exact Hr|].
  destruct (@backward_frame exact_real default_config (newton_reverse 2)
              Reverse.initial_state env s 7)
    as (s' & Hb & Hcur & _);
    [vm_compute; reflexivity|exact Hr|exact Hc|].
  exists s'. split; [exact Hb|exact Hcur].
Defined.

(** The reverse example: a pass from [s4], then one from [f]. *)
Lemma backward_last_wins_witness :
  exists env s,
    rev_scope (newton_reverse 2) Reverse.initial_state = Ok (env, s) /\
    exists sa sb,
      Reverse.grad_reverse_backward (Some 5) s = Ok (tt, sa) /\
      Reverse.grad_reverse_backward (Some 7) s = Ok (tt, sb) /\
      Reverse.grad_reverse_backward (Some 7) sa = Ok (tt, sb).
Proof.
  destruct (run_check_ok
              (rev_scope (newton_reverse 2) Reverse.initial_state)
              (fun _ s => 7 <? Reverse.grad_reverse_current_id s))
    as (env & s & Hr & Hc); [vm_compute; reflexivity|].
  apply Nat.ltb_lt in Hc. exists env, s. split; [exact Hr|].
  apply (@backward_last_wins exact_real default_config (newton_reverse 2)
           Reverse.initial_state env s 5 7);
    [vm_compute; reflexivity|exact Hr|lia|exact Hc].
Defined.

(** The reverse example, then [grad_reverse_sub(x_grad, coe_grad)]. *)
Lemma reverse_calls_append_witness :
  exists env s r s',
    rev_scope (newton_reverse 2) Reverse.initial_state = Ok (env, s) /\
    rev_exec (Bin OSub 0 3) env s = Ok (r, s') /\
    Reverse.grad_reverse_current_id s' =
      Reverse.grad_reverse_current_id s + 2.
Proof.
  destruct (run_check_ok
              (rev_scope (newton_reverse 2) Reverse.initial_state)
              (fun env s =>
                 run_check (rev_exec (Bin OSub 0 3) env s) (fun _ _ => true)))
    as (env & s & Hr & Hc); [vm_compute; reflexivity|].
  apply run_check_ok in Hc as (r & s' & Hc & _).
  exists env, s, r, s'. split; [exact Hr|]. split; [exact Hc|].
  destruct (@reverse_calls_append exact_real default_config (newton_reverse 2)
              Reverse.initial_state env s (Bin OSub 0 3) r s')
    as (Hn & _);
    [vm_compute; reflexivity|exact Hr|exact Hc|].
  exact Hn.
Defined.

(** The reverse example: the value of [f] is the sum of its operands'. *)
Lemma tape_values_consistent_witness :
  exists env s,
    rev_scope (newton_reverse 2) Reverse.initial_state = Ok (env, s) /\
    value_consistent (Reverse.grad_reverse_tape s) 7.
Proof.
  destruct (run_check_ok
              (rev_scope (newton_reverse 2) Reverse.initial_state)
              (fun _ s => 7 <? Reverse.grad_reverse_current_id s))
    as (env & s & Hr & Hc); [vm_compute; reflexivity|].
  apply Nat.ltb_lt in Hc. exists env, s. split; [exact Hr|].
  apply (@tape_values_consistent exact_real default_config (newton_reverse 2)
           Reverse.initial_state env s);
    [vm_compute; reflexivity|exact Hr|exact Hc].
Defined.

(** The reverse example: eight nodes. *)
Lemma reverse_capacity_accounting_witness :
  exists env s,
    rev_scope (newton_reverse 2) Reverse.initial_state = Ok (env, s) /\
    Reverse.grad_reverse_current_id s = 8.
Proof.
  destruct (@reverse_capacity_accounting exact_real default_config
              (newton_reverse 2) Reverse.initial_state)
    as [Hok _]; [vm_compute; reflexivity|vm_compute; reflexivity|].
  destruct Hok as (env & s & Hr & Hc); [vm_compute; lia|].
  exists env, s. split; [exact Hr|exact Hc].
Defined.

(** The reverse example: a pass from [s4], node 5. *)
Lemma backward_output_adjoint_witness :
  exists env s,
    rev_scope (newton_reverse 2) Reverse.initial_state = Ok (env, s) /\
    exists s',
      Reverse.grad_reverse_backward (Some 5) s = Ok (tt, s') /\
      adjoint s' 5 = 1%R /\ adjoint s' 6 = 0%R.
Proof.
  destruct (run_check_ok
              (rev_scope (newton_reverse 2) Reverse.initial_state)
              (fun _ s =>
                 (Reverse.grad_reverse_current_id s =? 8) &&
                 forallb
                   (fun i => smooth_op
                      (Reverse.operation
                         (node_at (Reverse.grad_reverse_tape s) i)))
                   (seq 0 8)))
    as (env & s & Hr & Hc); [vm_compute; reflexivity|].
  apply andb_prop in Hc as [Hc Hreg]. apply Nat.eqb_eq in Hc.
  exists env, s. split; [exact Hr|].
  destruct (@backward_output_adjoint default_config (newton_reverse 2)
              Reverse.initial_state env s 5)
    as (s' & Hb & H1 & H0);
    [vm_compute; reflexivity|exact Hr| |lia|].
  { intros i Hi; apply smooth_regular;
     apply (proj1 (forallb_forall _ _) Hreg); apply in_seq; lia. }
  exists s'. split; [exact Hb|]. split; [exact H1|]. apply H0. lia.
Defined.

(** The reverse example: [f = s4 + c]. *)
Lemma backward_operand_rule_witness :
  exists env s,
    rev_scope (newton_reverse 2) Reverse.initial_state = Ok (env, s) /\
    adjoint_after s 7 0 = (adjoint_after s 5 0 + adjoint_after s 6 0)%R.
Proof.
  destruct (run_check_ok
              (rev_scope (newton_reverse 2) Reverse.initial_state)
              (fun _ s =>
                 (Reverse.grad_reverse_current_id s =? 8) &&
                 forallb
                   (fun i => smooth_op
                      (Reverse.operation
                         (node_at (Reverse.grad_reverse_tape s) i)))
                   (seq 0 8) &&
                 match Reverse.operation
                         (node_at (Reverse.grad_reverse_tape s) 7),
                       Reverse.left (node_at (Reverse.grad_reverse_tape s) 7),
                       Reverse.right (node_at (Reverse.grad_reverse_tape s) 7)
                 with
                 | Reverse.GRAD_OP_ADD, Some 5, Some 6 => true
                 | _, _, _ => false
                 end))
    as (env & s & Hr & Hc); [vm_compute; reflexivity|].
  apply andb_prop in Hc as [Hc Hnode]. apply andb_prop in Hc as [Hc Hreg].
  apply Nat.eqb_eq in Hc.
  exists env, s. split; [exact Hr|].
  destruct (@backward_operand_rule default_config (newton_reverse 2)
              Reverse.initial_state env s 7 0)
    as (_ & Hadd & _);
    [vm_compute; reflexivity|exact Hr| |lia|lia|].
  { intros i Hi; apply smooth_regular;
     apply (proj1 (forallb_forall _ _) Hreg); apply in_seq; lia. }
  destruct (Reverse.operation (node_at (Reverse.grad_reverse_tape s) 7))
    eqn:Eo; try discriminate Hnode.
  destruct (Reverse.left (node_at (Reverse.grad_reverse_tape s) 7))
    as [[|[|[|[|[|[|l]]]]]]|] eqn:El; try discriminate Hnode.
  destruct (Reverse.right (node_at (Reverse.grad_reverse_tape s) 7))
    as [[|[|[|[|[|[|[|r]]]]]]]|] eqn:Er; try discriminate Hnode.
  apply (Hadd 5 6); reflexivity.
Defined.

(** The reverse example, and a pass from cell 20 of the tape. *)
Lemma backward_stale_output_witness :
  exists env s,
    rev_scope (newton_reverse 2) Reverse.initial_state = Ok (env, s) /\
    exists s',
      Reverse.grad_reverse_backward (Some 20) s = Ok (tt, s') /\
      adjoint s' 20 = 1%R.
Proof.
  destruct (run_check_ok
              (rev_scope (newton_reverse 2) Reverse.initial_state)
              (fun _ s =>
                 (Reverse.grad_reverse_current_id s =? 8) &&
                 forallb
                   (fun i => smooth_op
                      (Reverse.operation
                         (node_at (Reverse.grad_reverse_tape s) i)))
                   (seq 0 8)))
    as (env & s & Hr & Hc); [vm_compute; reflexivity|].
  apply andb_prop in Hc as [Hc Hreg]. apply Nat.eqb_eq in Hc.
  exists env, s. split; [exact Hr|].
  destruct (@backward_stale_output default_config (newton_reverse 2)
              Reverse.initial_state env s 20)
    as (s' & Hb & H1 & _);
    [vm_compute; reflexivity|exact Hr| |split; [lia|vm_compute; lia]|].
  { intros i Hi; apply smooth_regular;
     apply (proj1 (forallb_forall _ _) Hreg); apply in_seq; lia. }
  exists s'. split; [exact Hb|exact H1].
Defined.

(** The polynomial of the examples at [x = 2], in both engines. *)
Lemma cross_mode_values_witness :
  exists envf sf envr sr,
    fwd_scope (map FCall (newton_calls 2))
      {| Forward.grad_forward_current_id := 0 |} = Ok (envf, sf) /\
    rev_scope (map RCall (newton_calls 2)) Reverse.initial_state
      = Ok (envr, sr) /\
    exists l,
      nth 7 envr None = Some l /\
      Forward.value (var_at envf 7) =
      Reverse.value (node_at (Reverse.grad_reverse_tape sr) l).
Proof.
  destruct (run_check_ok
              (fwd_scope (map FCall (newton_calls 2))
                 {| Forward.grad_forward_current_id := 0 |})
              (fun _ _ => true))
    as (envf & sf & Hf & _); [vm_compute; reflexivity|].
  destruct (run_check_ok
              (rev_scope (map RCall (newton_calls 2)) Reverse.initial_state)
              (fun _ _ => true))
    as (envr & sr & Hr & _); [vm_compute; reflexivity|].
  exists envf, sf, envr, sr. split; [exact Hf|]. split; [exact Hr|].
  destruct (@cross_mode_values default_config (newton_calls 2)
              {| Forward.grad_forward_current_id := 0 |} Reverse.initial_state
              envf sf envr sr 7)
    as (l & Hl & _ & Hv);
    [vm_compute; reflexivity|exact Hf|exact Hr|vm_compute; lia|].
  exists l. split; [exact Hl|exact Hv].
Defined.

(** The reverse example at [x = 2], on the zeroed static tape. *)
Lemma newton_reverse_iteration_witness :
  exists env s,
    rev_scope (newton_reverse 2) Reverse.initial_state = Ok (env, s) /\
    adjoint s 0 = (- 2 * 2 + 6)%R.
Proof.
  destruct (@newton_reverse_iteration 2%R Reverse.initial_state)
    as (env & s & Hr & _ & _ & _ & _ & Ha);
    [vm_compute; reflexivity|].
  exists env, s. split; [exact Hr|exact Ha].
Defined.

End Witnesses.

(** In binary64. *)

Section FloatWitnesses.


(** [x = 0.0] as the only seed, with the stand-in libm. *)
Lemma forward_singular_entries_witness :
  exists r,
    @Forward.grad_forward_inv (binary64 libm_stub) default_config
      (@Forward.zero_init (binary64 libm_stub) default_config)
      {| Forward.grad_forward_current_id := 1 |}
    = Ok (r, {| Forward.grad_forward_current_id := 1 |}) /\
    @Forward.derivative_at (binary64 libm_stub) r 0 = nan.
Proof.
  destruct (@forward_singular_entries libm_stub default_config
              (@Forward.zero_init (binary64 libm_stub) default_config)
              {| Forward.grad_forward_current_id := 1 |} 0)
    as [(r & Hr & _ & Hd) _];
    [reflexivity|reflexivity|vm_compute; lia|vm_compute; lia|].
  exists r. split; [exact Hr|exact Hd].
Defined.

End FloatWitnesses.
